(** * telnet-go: the TELNET codec, line helpers and NAWS negotiation

    A shallow embedding of [writer.go], [reader.go], [io.go] and of the
    [Session] methods, with the properties of the escape/unescape codec
    proved against it.

    Go byte slices are [list byte]; Go [int] counters are [Z]; an [error]
    value is an inhabitant of [error]; a nil error is [None]. *)

From Stdlib Require Import String.
From Stdlib Require Import List ZArith Bool Lia PeanoNat.
From Stdlib Require Import Strings.Byte.
From Stdlib Require DecimalString.
Import ListNotations.


(** ** Wire constants ([reader.go], const block) *)

Definition ECHO : byte := x01.
Definition SGA : byte := x03.
Definition NL : byte := x0a.
Definition CR : byte := x0d.
Definition LINEMODE : byte := x22.
Definition SE : byte := xf0.
Definition SB : byte := xfa.
Definition WILL : byte := xfb.
Definition WONT : byte := xfc.
Definition DO : byte := xfd.
Definition DONT : byte := xfe.
Definition IAC : byte := xff.

(** ** Errors *)

Inductive error : Type :=
| EOF                                   (* io.EOF *)
| ErrShortWrite                         (* io.ErrShortWrite *)
| ErrUnexpectedEOF                      (* io.ErrUnexpectedEOF *)
| ErrCorrupted                          (* errors.New("corrupted") *)
| ErrPartialIAC                         (* errors.New("partial IAC IAC write") *)
| ErrBadTerminator                      (* "invalid NAWS SB terminator after payload" *)
| ErrIO (code : nat)                    (* any other error of the transport *)
| ErrWrap (msg : string) (e : error).   (* fmt.Errorf("msg: %w", e) *)

(** [errors.Is(err, io.ErrShortWrite)]: the error or one it wraps. *)
Fixpoint isShortWrite (e : error) : bool :=
  match e with
  | ErrShortWrite => true
  | ErrWrap _ e' => isShortWrite e'
  | _ => false
  end.

(** [err == io.EOF] *)
Definition isEOF (e : error) : bool :=
  match e with EOF => true | _ => false end.

(** [bytes.Equal] *)
Fixpoint bytes_Equal (a b : list byte) : bool :=
  match a, b with
  | [], [] => true
  | x :: a', y :: b' => Byte.eqb x y && bytes_Equal a' b'
  | _, _ => false
  end.

(** ** The underlying [io.Writer]

    The transport under the codec.  What it does on its k-th call, given the
    slice it is handed, is its [behave]: how many bytes it takes (never more
    than it was given) and the error it reports.  [sent] is what reached the
    wire. *)

Record response : Type := mkResponse {
  accepted : nat;
  failure : option error
}.

Record ioWriter : Type := mkIoWriter {
  sent : list byte;
  behave : nat -> list byte -> response;
  calls : nat
}.

Definition ioWriter_Write (w : ioWriter) (p : list byte)
  : (nat * option error) * ioWriter :=
  let r := behave w (calls w) p in
  let n := Nat.min (accepted r) (length p) in
  ((n, failure r),
   {| sent := sent w ++ firstn n p; behave := behave w; calls := S (calls w) |}).

(** A transport that takes everything it is given. *)
Definition acceptAll : nat -> list byte -> response :=
  fun _ p => {| accepted := length p; failure := None |}.

Definition freshWriter (b : nat -> list byte -> response) : ioWriter :=
  {| sent := []; behave := b; calls := 0 |}.

(** ** [io.go]: LongWrite

    The [for len(p) > 0] loop has no bound of its own: [fuel] bounds the
    number of calls to the underlying writer, and [None] is "still looping". *)

Fixpoint LongWrite (fuel : nat) (w : ioWriter) (p : list byte) (numWritten : Z)
  : option ((Z * option error) * ioWriter) :=
  match p with
  | [] => Some ((numWritten, None), w)
  | _ :: _ =>
    match fuel with
    | O => None
    | S fuel' =>
      let '((n, err), w') := ioWriter_Write w p in
      let numWritten := (numWritten + Z.of_nat n)%Z in
      match err with
      | Some e =>
        if negb (isShortWrite e) then Some ((numWritten, Some e), w')
        else LongWrite fuel' w' (skipn n p) numWritten
      | None => LongWrite fuel' w' (skipn n p) numWritten
      end
    end
  end.

(** ** [writer.go] *)

Record writer : Type := newWriter { w_writer : ioWriter }.

Definition commandSignature : list byte := [IAC; IAC; IAC; IAC].

Definition EscapeIAC : list byte := [IAC; IAC].

(** The "workaround for commands" test at the head of [Write]. *)
Definition isCommand (data : list byte) : bool :=
  (5 <? length data) && bytes_Equal (firstn 4 data) commandSignature.

(** [if buffer.Len() > 0 { numWritten, err := LongWrite(...); n += ... }] *)
Definition flushBuffer (fuel : nat) (w : ioWriter) (buffer : list byte) (n : Z)
  : option ((Z * option error) * ioWriter) :=
  if 0 <? length buffer then
    match LongWrite fuel w buffer 0 with
    | None => None
    | Some ((numWritten, err), w') => Some (((n + numWritten)%Z, err), w')
    end
  else Some ((n, None), w).

(** The [for _, value := range data] loop of [Write] and what follows it. *)
Fixpoint Write_loop (fuel : nat) (w : ioWriter) (data buffer : list byte) (n : Z)
  : option ((Z * option error) * ioWriter) :=
  match data with
  | [] => flushBuffer fuel w buffer n
  | value :: rest =>
    if negb (Byte.eqb value IAC) then Write_loop fuel w rest (buffer ++ [value]) n
    else
      match flushBuffer fuel w buffer n with
      | None => None
      | Some ((n1, Some e), w1) => Some ((n1, Some e), w1)
      | Some ((n1, None), w1) =>
        match LongWrite fuel w1 EscapeIAC 0 with
        | None => None
        | Some ((_, Some e), w2) => Some ((n1, Some e), w2)
        | Some ((numWritten, None), w2) =>
          if negb (numWritten =? Z.of_nat (length EscapeIAC))%Z
          then Some ((n1, Some ErrPartialIAC), w2)
          else Write_loop fuel w2 rest [] (n1 + 1)%Z
        end
      end
  end.

Definition lift_writer (r : option ((Z * option error) * ioWriter))
  : option ((Z * option error) * writer) :=
  match r with
  | None => None
  | Some (res, w') => Some (res, newWriter w')
  end.

Definition Write (fuel : nat) (w : writer) (data : list byte)
  : option ((Z * option error) * writer) :=
  lift_writer
    (if isCommand data then LongWrite fuel (w_writer w) (skipn 4 data) 0
     else Write_loop fuel (w_writer w) data [] 0).

(** The [io.Writer] interface, as the callers of [WriteCommand] and
    [WriteLine] use it. *)
Class Writer (W : Type) : Type :=
  io_Write : nat -> W -> list byte -> option ((Z * option error) * W).

#[export] Instance writer_Writer : Writer writer := Write.

Definition WriteCommand {W : Type} `{Writer W} (fuel : nat) (w : W)
  (command opt action : byte) : option ((Z * option error) * W) :=
  io_Write fuel w (commandSignature ++ [command; opt; action]).

(** The escaped encoding of application data: each 255 doubled. *)
Fixpoint escape (data : list byte) : list byte :=
  match data with
  | [] => []
  | b :: rest => if Byte.eqb b IAC then IAC :: IAC :: escape rest else b :: escape rest
  end.

(** ** [bufio.Reader] over the transport's read half

    The peer's bytes arrive in chunks, one per [Read] of the transport, and
    after the last chunk every [Read] reports [srcErr] (io.EOF when the peer
    closed).  [buf] is what the buffered reader holds and has not handed out
    yet; [Buffered()] is its length. *)

Inductive result (A : Type) : Type :=
| Ok (a : A)
| Err (e : error).

Arguments Ok {A} a.
Arguments Err {A} e.

Definition defaultBufSize : nat := 4096.

Record bufioReader : Type := mkBufio {
  buf : list byte;
  src : list (list byte);
  srcErr : error
}.

Definition Buffered (b : bufioReader) : nat := length (buf b).

(** One read of the transport into the empty buffer; a read of zero bytes is
    tried again. *)
Fixpoint nextChunk (chunks : list (list byte)) : list byte * list (list byte) :=
  match chunks with
  | [] => ([], [])
  | c :: rest =>
    match c with
    | [] => nextChunk rest
    | _ :: _ => (firstn defaultBufSize c, skipn defaultBufSize c :: rest)
    end
  end.

(** [fill], which the methods below call on an empty buffer only. *)
Definition fill (b : bufioReader) : bufioReader :=
  match buf b with
  | [] => let '(c, rest) := nextChunk (src b) in
          {| buf := c; src := rest; srcErr := srcErr b |}
  | _ :: _ => b
  end.

Definition ReadByte (b : bufioReader) : result byte * bufioReader :=
  let b1 := fill b in
  match buf b1 with
  | c :: bs => (Ok c, {| buf := bs; src := src b1; srcErr := srcErr b1 |})
  | [] => (Err (srcErr b1), b1)
  end.

(** [Peek(1)], giving [peeked[0]]. *)
Definition Peek1 (b : bufioReader) : result byte * bufioReader :=
  let b1 := fill b in
  match buf b1 with
  | c :: _ => (Ok c, b1)
  | [] => (Err (srcErr b1), b1)
  end.

Fixpoint Discard (n : nat) (b : bufioReader) : result nat * bufioReader :=
  match n with
  | O => (Ok O, b)
  | S n' =>
    let b1 := fill b in
    match buf b1 with
    | _ :: bs =>
      match Discard n' {| buf := bs; src := src b1; srcErr := srcErr b1 |} with
      | (Ok d, b2) => (Ok (S d), b2)
      | (Err e, b2) => (Err e, b2)
      end
    | [] => (Err (srcErr b1), b1)
    end
  end.

(** [io.ReadFull(b, p)] with [len(p) = k]: exactly [k] bytes, or the error,
    which is io.ErrUnexpectedEOF when the stream ends after some of them. *)
Fixpoint ReadFull_loop (k : nat) (b : bufioReader) (got : list byte)
  : result (list byte) * bufioReader :=
  match k with
  | O => (Ok got, b)
  | S k' =>
    match ReadByte b with
    | (Ok c, b1) => ReadFull_loop k' b1 (got ++ [c])
    | (Err e, b1) =>
      (Err (if isEOF e && (0 <? length got) then ErrUnexpectedEOF else e), b1)
    end
  end.

Definition ReadFull (k : nat) (b : bufioReader) : result (list byte) * bufioReader :=
  ReadFull_loop k b [].

(** The wire bytes not yet consumed, whatever their chunking. *)
Definition pending (b : bufioReader) : list byte := buf b ++ concat (src b).

(** ** [reader.go] *)

Record reader : Type := mkReader { buffered : bufioReader }.

Definition newReader (chunks : list (list byte)) (e : error) : reader :=
  {| buffered := {| buf := []; src := chunks; srcErr := e |} |}.

Definition isVerb (b : byte) : bool :=
  Byte.eqb b WILL || Byte.eqb b WONT || Byte.eqb b DO || Byte.eqb b DONT.

(** The inner [for] of the [case SB] branch. *)
Fixpoint skipSubnegotiation (fuel : nat) (b : bufioReader)
  : option (option error * bufioReader) :=
  match fuel with
  | O => None
  | S fuel' =>
    match ReadByte b with
    | (Err e, b1) => Some (Some e, b1)
    | (Ok b2, b1) =>
      if Byte.eqb b2 IAC then
        match Peek1 b1 with
        | (Err e, b3) => Some (Some e, b3)
        | (Ok p, b3) =>
          if Byte.eqb p IAC || Byte.eqb p SE then
            match Discard 1 b3 with
            | (Err e, b4) => Some (Some e, b4)
            | (Ok _, b4) =>
              if Byte.eqb p SE then Some (None, b4)
              else skipSubnegotiation fuel' b4
            end
          else skipSubnegotiation fuel' b3
        end
      else skipSubnegotiation fuel' b1
    end
  end.

(** The [for len(data) > 0] loop of [Read]: [cap] is [len(data)], [out] the
    bytes stored so far ([n] is its length). *)
Fixpoint Read_loop (fuel : nat) (b : bufioReader) (cap : nat) (out : list byte)
  : option ((list byte * option error) * bufioReader) :=
  match cap with
  | O => Some ((out, None), b)
  | S cap' =>
    if (0 <? length out) && (Buffered b <? 1) then Some ((out, None), b)
    else
      match fuel with
      | O => None
      | S fuel' =>
        match ReadByte b with
        | (Err e, b1) => Some ((out, Some e), b1)
        | (Ok c, b1) =>
          if Byte.eqb c IAC then
            match Peek1 b1 with
            | (Err e, b2) => Some ((out, Some e), b2)
            | (Ok p, b2) =>
              if isVerb p then
                match Discard 2 b2 with
                | (Err e, b3) => Some ((out, Some e), b3)
                | (Ok _, b3) => Read_loop fuel' b3 cap out
                end
              else if Byte.eqb p IAC then
                match Discard 1 b2 with
                | (Err e, b3) => Some ((out ++ [IAC], Some e), b3)
                | (Ok _, b3) => Read_loop fuel' b3 cap' (out ++ [IAC])
                end
              else if Byte.eqb p SB then
                match skipSubnegotiation fuel' b2 with
                | None => None
                | Some (Some e, b3) => Some ((out, Some e), b3)
                | Some (None, b3) => Read_loop fuel' b3 cap out
                end
              else if Byte.eqb p SE then
                match Discard 1 b2 with
                | (Err e, b3) => Some ((out, Some e), b3)
                | (Ok _, b3) => Read_loop fuel' b3 cap out
                end
              else Some ((out, Some ErrCorrupted), b2)
            end
          else Read_loop fuel' b1 cap' (out ++ [c])
        end
      end
  end.

(** [Read(data)] with [len(data) = cap]: the bytes stored in [data[:n]] and the
    error.  Every turn of either loop takes a byte off the stream, so one more
    turn than there are bytes pending is enough ([Read_loop_total] below); the
    last branch is never taken. *)
Definition Read (r : reader) (cap : nat) : (list byte * option error) * reader :=
  match Read_loop (S (length (pending (buffered r)))) (buffered r) cap [] with
  | Some (res, b') => (res, {| buffered := b' |})
  | None => (([], Some (ErrIO 0)), r)
  end.

(** The [io.Reader] interface, as [ReadLine] uses it. *)
Class Reader (R : Type) : Type :=
  io_Read : R -> nat -> (list byte * option error) * R.

#[export] Instance reader_Reader : Reader reader := Read.

(** The [for] loop of [ReadLine], reading into a one-byte slice; gives the
    bytes of [line] at the [break]. *)
Fixpoint ReadLine_loop {R : Type} `{Reader R} (fuel : nat) (r : R) (line : list byte)
  : option (result (list byte) * R) :=
  match fuel with
  | O => None
  | S fuel' =>
    let '((p, err), r') := io_Read r 1 in
    match p with
    | [] =>
      match err with
      | None => ReadLine_loop fuel' r' line
      | Some e => Some (Err e, r')
      end
    | c :: _ =>
      if Byte.eqb c NL then Some (Ok (line ++ [c]), r')
      else ReadLine_loop fuel' r' (line ++ [c])
    end
  end.

(** "Remove the \r\n from the end of the string." *)
Definition trimCRLF (lineBytes : list byte) : list byte :=
  let len := length lineBytes in
  if (2 <=? len) && Byte.eqb (nth (len - 2) lineBytes x00) CR
                 && Byte.eqb (nth (len - 1) lineBytes x00) NL
  then firstn (len - 2) lineBytes
  else lineBytes.

(** A Go string is its bytes. *)
Definition ReadLine {R : Type} `{Reader R} (fuel : nat) (r : R)
  : option ((list byte * option error) * R) :=
  match ReadLine_loop fuel r [] with
  | None => None
  | Some (Err e, r') => Some (([], Some e), r')
  | Some (Ok lineBytes, r') => Some ((trimCRLF lineBytes, None), r')
  end.

(** ** The [Session] (the revision with the line-discipline flag) *)

Record Session : Type := mkSession {
  isPTY : bool;
  s_reader : reader;
  s_writer : writer;
  termCols : Z;
  termRows : Z
}.

Definition GetWindowSize (s : Session) : Z * Z := (termCols s, termRows s).

Definition HasWindowSize (s : Session) : bool :=
  (0 <? termCols s)%Z && (0 <? termRows s)%Z.

Definition Session_Read (s : Session) (cap : nat)
  : (list byte * option error) * Session :=
  let '(res, r') := Read (s_reader s) cap in
  (res, {| isPTY := isPTY s; s_reader := r'; s_writer := s_writer s;
           termCols := termCols s; termRows := termRows s |}).

#[export] Instance Session_Reader : Reader Session := Session_Read.

Fixpoint hasPrefix (s prefix : list byte) : bool :=
  match prefix, s with
  | [], _ => true
  | p :: prefix', c :: s' => Byte.eqb p c && hasPrefix s' prefix'
  | _ :: _, [] => false
  end.

(** [bytes.Replace(s, old, new, -1)] for a non-empty [old]: the instances of
    [old] found left to right, none overlapping another.  [skip] counts the
    bytes of the instance just replaced that are still to be passed over. *)
Fixpoint replace_from (s old new : list byte) (skip : nat) : list byte :=
  match s with
  | [] => []
  | c :: s' =>
    match skip with
    | S k => replace_from s' old new k
    | O =>
      if hasPrefix s old then new ++ replace_from s' old new (length old - 1)
      else c :: replace_from s' old new 0
    end
  end.

Definition bytes_Replace (s old new : list byte) : list byte :=
  replace_from s old new 0.

Definition Session_Write (fuel : nat) (s : Session) (data : list byte)
  : option ((Z * option error) * Session) :=
  let data' :=
    if isPTY s then
      bytes_Replace (bytes_Replace data [NL] [CR; NL]) [CR; CR; NL] [CR; NL]
    else data in
  match Write fuel (s_writer s) data' with
  | None => None
  | Some ((bytesWritten, err), w') =>
    let originalLength := Z.of_nat (length data) in
    let n := if isPTY s && (originalLength <? bytesWritten)%Z
             then originalLength else bytesWritten in
    Some ((n, err),
          {| isPTY := isPTY s; s_reader := s_reader s; s_writer := w';
             termCols := termCols s; termRows := termRows s |})
  end.

#[export] Instance Session_Writer : Writer Session := Session_Write.

Definition Session_WriteCommand (fuel : nat) (s : Session)
  (command opt action : byte) : option ((Z * option error) * Session) :=
  WriteCommand fuel s command opt action.

Definition withBuffered (s : Session) (b : bufioReader) : Session :=
  {| isPTY := isPTY s; s_reader := {| buffered := b |}; s_writer := s_writer s;
     termCols := termCols s; termRows := termRows s |}.

(** "Skip until IAC SE for unrelated SB." *)
Fixpoint skipUnrelated (fuel : nat) (b : bufioReader)
  : option (option error * bufioReader) :=
  match fuel with
  | O => None
  | S fuel' =>
    match ReadByte b with
    | (Err e, b1) => Some (Some (ErrWrap "skip SB error" e), b1)
    | (Ok c, b1) =>
      if Byte.eqb c IAC then
        match ReadByte b1 with
        | (Err e, b2) => Some (Some (ErrWrap "skip SB error" e), b2)
        | (Ok nextB, b2) =>
          if Byte.eqb nextB SE then Some (None, b2)
          else skipUnrelated fuel' b2
        end
      else skipUnrelated fuel' b1
    end
  end.

Section RequestWindowSize.

(** The option code of NAWS: the const block that declares it is not part
    of [reader.go] as given, so it is a parameter here. *)
Variable NAWS : byte.

(** Whether the two-second timer has fired by the [i]-th turn of the
    waiting loop. *)
Variable timeout : nat -> bool.

(** [int(payload[0])<<8 | int(payload[1])] *)
Definition be16 (hi lo : byte) : Z :=
  Z.lor (Z.shiftl (Z.of_N (Byte.to_N hi)) 8) (Z.of_N (Byte.to_N lo)).

(** The [for { select { ... } }] loop of [RequestWindowSize]; [i] counts
    its turns. *)
Fixpoint nawsWait (fuel : nat) (i : nat) (s : Session)
  : option (option error * Session) :=
  match fuel with
  | O => None
  | S fuel' =>
    if timeout i then Some (None, s)
    else
      match Peek1 (buffered (s_reader s)) with
      | (Err e, b0) =>
        if isEOF e then Some (None, withBuffered s b0)
        else Some (Some (ErrWrap "peek failed" e), withBuffered s b0)
      | (Ok p, b0) =>
        if Byte.eqb p IAC then
          match ReadByte b0 with
          | (Err e, b1) =>
            Some (Some (ErrWrap "read IAC failed" e), withBuffered s b1)
          | (Ok _, b1) =>
            match ReadByte b1 with
            | (Err e, b2) =>
              Some (Some (ErrWrap "read command after IAC failed" e),
                    withBuffered s b2)
            | (Ok cmd, b2) =>
              if Byte.eqb cmd WILL || Byte.eqb cmd WONT then
                match ReadByte b2 with
                | (Err e, b3) =>
                  Some (Some (ErrWrap "read option failed" e), withBuffered s b3)
                | (Ok opt, b3) =>
                  if Byte.eqb opt NAWS && Byte.eqb cmd WONT
                  then Some (None, withBuffered s b3)
                  else nawsWait fuel' (S i) (withBuffered s b3)
                end
              else if Byte.eqb cmd SB then
                match ReadByte b2 with
                | (Err e, b3) =>
                  Some (Some (ErrWrap "read SB option failed" e),
                        withBuffered s b3)
                | (Ok opt, b3) =>
                  if Byte.eqb opt NAWS then
                    match ReadFull 4 b3 with
                    | (Err e, b4) =>
                      Some (Some (ErrWrap "failed to read NAWS SB payload" e),
                            withBuffered s b4)
                    | (Ok payload, b4) =>
                      match ReadFull 2 b4 with
                      | (Err e, b5) =>
                        Some (Some (ErrWrap "failed to read NAWS SB terminator" e),
                              withBuffered s b5)
                      | (Ok seHdr, b5) =>
                        if negb (Byte.eqb (nth 0 seHdr x00) IAC)
                           || negb (Byte.eqb (nth 1 seHdr x00) SE)
                        then Some (Some ErrBadTerminator, withBuffered s b5)
                        else
                          Some (None,
                                {| isPTY := isPTY s;
                                   s_reader := {| buffered := b5 |};
                                   s_writer := s_writer s;
                                   termCols := be16 (nth 0 payload x00) (nth 1 payload x00);
                                   termRows := be16 (nth 2 payload x00) (nth 3 payload x00) |})
                      end
                    end
                  else
                    match skipUnrelated fuel' b3 with
                    | None => None
                    | Some (Some e, b4) => Some (Some e, withBuffered s b4)
                    | Some (None, b4) => nawsWait fuel' (S i) (withBuffered s b4)
                    end
                end
              else nawsWait fuel' (S i) (withBuffered s b2)
            end
          end
        else Some (None, withBuffered s b0)
      end
  end.

Definition RequestWindowSize (fuel : nat) (s : Session)
  : option (option error * Session) :=
  match Session_WriteCommand fuel s IAC DO NAWS with
  | None => None
  | Some ((_, Some e), s') => Some (Some (ErrWrap "failed to send DO NAWS" e), s')
  | Some ((_, None), s') => nawsWait fuel 0 s'
  end.

End RequestWindowSize.

(** Reading a stream to its end: [Read] called with a slice of length [cap]
    until it reports an error; the bytes of all the calls and that error. *)
Fixpoint readAll (fuel cap : nat) (r : reader)
  : option ((list byte * error) * reader) :=
  match fuel with
  | O => None
  | S fuel' =>
    match Read r cap with
    | ((out, Some e), r') => Some ((out, e), r')
    | ((out, None), r') =>
      match readAll fuel' cap r' with
      | None => None
      | Some ((rest, e), r'') => Some ((out ++ rest, e), r'')
      end
    end
  end.

(** ** The wire grammar of section 4.2, used to state what [Read] decodes *)

(** The payload of a subnegotiation: plain bytes and doubled 255s. *)
Inductive sbPayload : list byte -> Prop :=
| sbPayload_nil : sbPayload []
| sbPayload_plain c l : c <> IAC -> sbPayload l -> sbPayload (c :: l)
| sbPayload_doubled l : sbPayload l -> sbPayload (IAC :: IAC :: l).

(** [decodes w d]: the wire bytes [w] are whole protocol items and carry the
    application data [d]. *)
Inductive decodes : list byte -> list byte -> Prop :=
| decodes_nil : decodes [] []
| decodes_plain c w d :
    c <> IAC -> decodes w d -> decodes (c :: w) (c :: d)
| decodes_doubled w d :
    decodes w d -> decodes (IAC :: IAC :: w) (IAC :: d)
| decodes_verb v o w d :
    isVerb v = true -> decodes w d -> decodes (IAC :: v :: o :: w) d
| decodes_orphanSE w d :
    decodes w d -> decodes (IAC :: SE :: w) d
| decodes_subneg body w d :
    sbPayload body -> decodes w d ->
    decodes (IAC :: SB :: body ++ IAC :: SE :: w) d.

(** [Reads r bs r']: one-byte reads from [r] store the bytes [bs], one each,
    and leave [r']; a read that stores nothing and reports nothing is passed
    over, as [ReadLine] does. *)
Inductive Reads {R : Type} `{Reader R} : R -> list byte -> R -> Prop :=
| Reads_done r : Reads r [] r
| Reads_idle r r1 bs r2 :
    io_Read r 1 = (([], None), r1) -> Reads r1 bs r2 -> Reads r bs r2
| Reads_byte r c p err r1 bs r2 :
    io_Read r 1 = ((c :: p, err), r1) -> Reads r1 bs r2 -> Reads r (c :: bs) r2.

(** What the waiting loop of [RequestWindowSize] passes over without
    deciding anything: WILL and WONT with their option (other than WONT NAWS),
    a whole subnegotiation of another option, and a two-byte command (255 and
    a byte that is not a negotiation verb or SB). *)
Inductive sbOther : list byte -> Prop :=
| sbOther_end : sbOther [IAC; SE]
| sbOther_plain c l : c <> IAC -> sbOther l -> sbOther (c :: l)
| sbOther_pair c l : c <> SE -> sbOther l -> sbOther (IAC :: c :: l).

Inductive passedOver (NAWS : byte) : list byte -> Prop :=
| passedOver_nil : passedOver NAWS []
| passedOver_will o l :
    passedOver NAWS l -> passedOver NAWS (IAC :: WILL :: o :: l)
| passedOver_wont o l :
    o <> NAWS -> passedOver NAWS l -> passedOver NAWS (IAC :: WONT :: o :: l)
| passedOver_subneg o body l :
    o <> NAWS -> sbOther body -> passedOver NAWS l ->
    passedOver NAWS (IAC :: SB :: o :: body ++ l)
| passedOver_pair c l :
    isVerb c = false -> c <> SB -> passedOver NAWS l ->
    passedOver NAWS (IAC :: c :: l).

(** What one run of the loop of [Read] comes to on a stream that carries the
    data [d]: it stores a first part [d1] of [d] after [out] and leaves a
    stream that carries the rest, or, having stored nothing, meets the end of
    the stream. *)
Definition ReadOutcome (b : bufioReader) (cap : nat) (out d : list byte)
  (res : option ((list byte * option error) * bufioReader)) : Prop :=
  exists d1 d2 e b',
    res = Some ((out ++ d1, e), b') /\
    srcErr b' = srcErr b /\ d = d1 ++ d2 /\ decodes (pending b') d2 /\
    ((e = None /\ (cap = 0 \/ 0 < length (out ++ d1))) \/
     (e = Some (srcErr b) /\ out = [] /\ d1 = [] /\ d2 = [] /\ pending b' = [])).

(** A session on a transport that takes all it is given, with the peer's
    bytes in [chunks] and then end of stream. *)
Definition demoSession (pty : bool) (chunks : list (list byte)) : Session :=
  {| isPTY := pty; s_reader := newReader chunks EOF;
     s_writer := newWriter (freshWriter acceptAll);
     termCols := 0; termRows := 0 |}.

(** A transport that takes nothing on its first two calls and one byte on
    every later call, reporting a short write each time. *)
Definition hesitant : nat -> list byte -> response :=
  fun i _ => {| accepted := if i <? 2 then 0 else 1;
                failure := Some ErrShortWrite |}.

(** A transport that never takes a byte and always reports a short write. *)
Definition stuck : nat -> list byte -> response :=
  fun _ _ => {| accepted := 0; failure := Some ErrShortWrite |}.

(** A transport that makes headway from its [K]-th call on: given bytes, it
    takes at least one or fails with something other than a short write. *)
Definition progressesFrom (K : nat) (beh : nat -> list byte -> response) : Prop :=
  forall i p, K <= i -> p <> [] ->
    1 <= accepted (beh i p) \/
    exists e, failure (beh i p) = Some e /\ isShortWrite e = false.

(** The slice the loop of [LongWrite] holds after [i] turns in which it went
    round ([p = p[n:]] each time), on a transport [beh] whose next call is its
    [c]-th. *)
Fixpoint leftAfter (beh : nat -> list byte -> response) (c : nat)
  (p : list byte) (i : nat) : list byte :=
  match i with
  | O => p
  | S i' =>
    leftAfter beh (S c) (skipn (Nat.min (accepted (beh c p)) (length p)) p) i'
  end.

(** The error the transport reports on the call of that turn. *)
Definition reportAt (beh : nat -> list byte -> response) (c : nat)
  (p : list byte) (i : nat) : option error :=
  failure (beh (c + i) (leftAfter beh c p i)).

(** A report after which the loop goes round again: nil or a short write. *)
Definition softReport (e : option error) : Prop :=
  forall x, e = Some x -> isShortWrite x = true.

(** A transport that takes all it is given on its first [k] calls, and from
    then on one byte a call with an error of its own. *)
Definition failsFrom (k : nat) : nat -> list byte -> response :=
  fun i p => if i <? k then acceptAll i p
             else {| accepted := 1; failure := Some (ErrIO 32) |}.

(** [WriteLine(writer, text...)]: the fragments joined with nothing between
    them, in one Write of which only the error is returned. *)
Definition WriteLine {W : Type} `{Writer W} (fuel : nat) (w : W)
  (text : list (list byte)) : option (option error * W) :=
  match io_Write fuel w (concat text) with
  | None => None
  | Some ((_, err), w') => Some (err, w')
  end.

(** What a run of the loop of [Write] comes to on the input [input], counted
    from [n]: the escaped encoding of the first [m] bytes is on the wire, with
    [j] bytes of an escape pair after it when the transport failed there. *)
Definition WriteOutcome (w : ioWriter) (input : list byte) (n n' : Z)
  (e : option error) (w' : ioWriter) : Prop :=
  exists m j,
    m <= length input /\ j <= 2 /\ n' = (n + Z.of_nat m)%Z /\
    sent w' = sent w ++ escape (firstn m input) ++ firstn j EscapeIAC /\
    behave w' = behave w /\
    (e = None -> m = length input /\ j = 0) /\
    (forall x, e = Some x ->
       isShortWrite x = false /\ exists i q, failure (behave w i q) = Some x).

(** ** [server.go]: EchoHandler

    The [for] loop with its one-byte buffer; the Session as the handler
    leaves it. *)
Fixpoint EchoHandler (fuel : nat) (session : Session) : option Session :=
  match fuel with
  | O => None
  | S fuel' =>
    let '((p, err), s1) := Session_Read session 1 in
    let written :=
      if 0 <? length p then
        match Session_Write fuel s1 p with
        | None => None
        | Some ((_, werr), s2) => Some (werr, s2)
        end
      else Some (None, s1) in
    match written with
    | None => None
    | Some (Some _, s2) => Some s2
    | Some (None, s2) =>
      match err with
      | Some _ => Some s2
      | None => EchoHandler fuel' s2
      end
    end
  end.

(** The rewriting [Session.Write] applies to its data in line-discipline
    mode: the two [bytes.Replace] calls, one after the other. *)
Definition ptyNormalize (data : list byte) : list byte :=
  bytes_Replace (bytes_Replace data [NL] [CR; NL]) [CR; CR; NL] [CR; NL].

(** A line of text and its ending, LF or CR LF. *)
Definition lineWith (crlf : bool) (text : list byte) : list byte :=
  text ++ (if crlf then [CR; NL] else [NL]).

(** Text with no line ending in it. *)
Definition noLineBreak (text : list byte) : Prop :=
  Forall (fun c => c <> CR /\ c <> NL) text.

(** [byte(x)] of a Go [int]: its low eight bits. *)
Definition byteOfInt (x : Z) : byte :=
  match Byte.of_N (Z.to_N (x mod 256)) with
  | Some b => b
  | None => x00
  end.

(** The subnegotiation that TestRequestWindowSize_NAWS sends for a window
    of [cols] by [rows]:
    [IAC, SB, NAWS, byte(cols >> 8), byte(cols & 0xFF), byte(rows >> 8),
     byte(rows & 0xFF), IAC, SE]. *)
Definition nawsSB (NAWS : byte) (cols rows : Z) : list byte :=
  [IAC; SB; NAWS;
   byteOfInt (Z.shiftr cols 8); byteOfInt (Z.land cols 255);
   byteOfInt (Z.shiftr rows 8); byteOfInt (Z.land rows 255);
   IAC; SE].

(** What the waiting loop of [RequestWindowSize] comes to from the Session
    [s], whatever the stream holds: it returns, it has written nothing and
    taken bytes off the stream only, and the window size is as it was unless
    it returns nil with both numbers decoded from two bytes each. *)
Definition NawsOutcome (s : Session) (res : option (option error * Session)) : Prop :=
  exists e s',
    res = Some (e, s') /\
    s_writer s' = s_writer s /\ isPTY s' = isPTY s /\
    length (pending (buffered (s_reader s')))
    <= length (pending (buffered (s_reader s))) /\
    (GetWindowSize s' = GetWindowSize s \/
     (e = None /\ exists a b c d, GetWindowSize s' = (be16 a b, be16 c d))).

(** ** [shell/auth.go]: NewAuthHandler

    The handler talks to the peer through the methods of the Session:
    [session.WriteLine], [session.ReadLine] and [session.WriteCommand]. *)

Definition Session_WriteLine (fuel : nat) (s : Session) (text : list (list byte))
  : option (option error * Session) :=
  WriteLine fuel s text.

Definition Session_ReadLine (fuel : nat) (s : Session)
  : option ((list byte * option error) * Session) :=
  ReadLine fuel s.

(** [strconv.Itoa] *)
Definition Itoa (n : Z) : list byte :=
  list_byte_of_string (DecimalString.NilZero.string_of_int (Z.to_int n)).

Definition loginPrompt : list byte := list_byte_of_string "Login: ".
Definition passwordPrompt : list byte := list_byte_of_string "Password: ".
Definition loginIncorrect : list byte :=
  NL :: list_byte_of_string "Login incorrect" ++ [NL].
Definition triesExceeded (maxAttempts : Z) : list byte :=
  list_byte_of_string "Maximum number of tries exceeded (" ++ Itoa maxAttempts
  ++ list_byte_of_string ")" ++ [NL].

(** One turn of the [for attempts := 0; attempts < maxAttempts; attempts++]
    loop: [inl] is a [return] out of the handler, [inr] the Session with which
    the loop goes on.  The three-second sleep between attempts has no effect
    on the Session. *)
Definition authAttempt (fuel : nat) (username password : list byte)
  (session : Session) : option ((bool * Session) + Session) :=
  match Session_WriteLine fuel session [loginPrompt] with
  | None => None
  | Some (Some _, s1) => Some (inl (false, s1))
  | Some (None, s1) =>
  match Session_ReadLine fuel s1 with
  | None => None
  | Some ((_, Some _), s2) => Some (inl (false, s2))
  | Some ((userUsername, None), s2) =>
  match Session_WriteLine fuel s2 [passwordPrompt] with
  | None => None
  | Some (Some _, s3) => Some (inl (false, s3))
  | Some (None, s3) =>
  match Session_WriteCommand fuel s3 IAC WILL ECHO with
  | None => None
  | Some ((_, Some _), s4) => Some (inl (false, s4))
  | Some ((_, None), s4) =>
  match Session_ReadLine fuel s4 with
  | None => None
  | Some ((_, Some _), s5) => Some (inl (false, s5))
  | Some ((userPassword, None), s5) =>
  match Session_WriteCommand fuel s5 IAC WONT ECHO with
  | None => None
  | Some ((_, Some _), s6) => Some (inl (false, s6))
  | Some ((_, None), s6) =>
  match Session_WriteLine fuel s6 [[NL]] with
  | None => None
  | Some (Some _, s7) => Some (inl (false, s7))
  | Some (None, s7) =>
    if bytes_Equal userPassword password && bytes_Equal userUsername username
    then Some (inl (true, s7))
    else
      match Session_WriteLine fuel s7 [loginIncorrect] with
      | None => None
      | Some (Some _, s8) => Some (inl (false, s8))
      | Some (None, s8) => Some (inr s8)
      end
  end end end end end end end.

Fixpoint authLoop (fuel : nat) (username password : list byte) (maxAttempts : Z)
  (remaining : nat) (session : Session) : option (bool * Session) :=
  match remaining with
  | O =>
    match Session_WriteLine fuel session [triesExceeded maxAttempts] with
    | None => None
    | Some (_, s1) => Some (false, s1)
    end
  | S remaining' =>
    match authAttempt fuel username password session with
    | None => None
    | Some (inl result) => Some result
    | Some (inr s1) => authLoop fuel username password maxAttempts remaining' s1
    end
  end.

(** The handler [NewAuthHandler(username, password, maxAttempts)] returns,
    applied to a Session: its verdict and the Session as it leaves it. *)
Definition NewAuthHandler (username password : list byte) (maxAttempts : Z)
  (fuel : nat) (session : Session) : option (bool * Session) :=
  authLoop fuel username password maxAttempts (Z.to_nat maxAttempts) session.

(** The lines [ls] come off the reader [r] one after the other, each returned
    by ReadLine with a nil error; [r'] is the reader after the last of them. *)
Fixpoint linesRead (fuel : nat) (r : reader) (ls : list (list byte))
  (r' : reader) : Prop :=
  match ls with
  | [] => r' = r
  | l :: ls' =>
    exists r1, ReadLine fuel r = Some ((l, None), r1) /\ linesRead fuel r1 ls' r'
  end.

(* ================================================================== *)
(** * Properties *)

(** ** Bytes *)

Lemma eqb_refl (b : byte) : Byte.eqb b b = true.
Proof. now apply Byte.byte_dec_lb. Qed.

Lemma eqb_neq (a b : byte) : a <> b -> Byte.eqb a b = false.
Proof.
  intros N. destruct (Byte.eqb a b) eqn:E; [|reflexivity].
  now apply Byte.byte_dec_bl in E.
Qed.

Lemma eqb_eq (a b : byte) : Byte.eqb a b = true -> a = b.
Proof. apply Byte.byte_dec_bl. Qed.

Lemma eqb_false_neq (a b : byte) : Byte.eqb a b = false -> a <> b.
Proof. apply Byte.eqb_false. Qed.

(** ** The buffered reader *)

Lemma defaultBufSize_pos : exists k, defaultBufSize = S k.
Proof. now exists 4095. Qed.

Lemma nextChunk_spec chunks :
  let '(c, rest) := nextChunk chunks in
  c ++ concat rest = concat chunks /\ (c = [] -> concat chunks = []).
Proof.
  induction chunks as [|c chunks IH]; cbn [nextChunk].
  - now split.
  - destruct c as [|x c].
    + exact IH.
    + destruct defaultBufSize_pos as [k ->]. split.
      * cbn [firstn skipn concat app].
        rewrite <- firstn_skipn with (n := k) (l := c) at 3.
        now rewrite <- app_assoc.
      * discriminate.
Qed.

Lemma fill_spec b :
  pending (fill b) = pending b /\ srcErr (fill b) = srcErr b /\
  (buf (fill b) = [] -> pending b = []).
Proof.
  unfold fill, pending. destruct (buf b) as [|x l] eqn:E.
  - pose proof (nextChunk_spec (src b)) as H.
    destruct (nextChunk (src b)) as [c rest]. destruct H as [H1 H2].
    cbn [buf src srcErr app]. repeat split; auto.
  - rewrite E. repeat split; auto. discriminate.
Qed.

Lemma ReadByte_spec b :
  match ReadByte b with
  | (Ok c, b1) => pending b = c :: pending b1 /\ srcErr b1 = srcErr b
  | (Err e, b1) =>
    pending b = [] /\ pending b1 = [] /\ e = srcErr b /\ srcErr b1 = srcErr b
  end.
Proof.
  unfold ReadByte. destruct (fill_spec b) as (P & S & N).
  destruct (buf (fill b)) as [|c bs] eqn:E.
  - rewrite P. auto.
  - split; [|exact S]. rewrite <- P. unfold pending. now rewrite E.
Qed.

Lemma Peek1_spec b :
  match Peek1 b with
  | (Ok c, b1) =>
    pending b1 = pending b /\ srcErr b1 = srcErr b /\
    (exists l, pending b = c :: l) /\ 1 <= Buffered b1
  | (Err e, b1) =>
    pending b = [] /\ pending b1 = [] /\ e = srcErr b /\ srcErr b1 = srcErr b
  end.
Proof.
  unfold Peek1, Buffered. destruct (fill_spec b) as (P & S & N).
  destruct (buf (fill b)) as [|c bs] eqn:E.
  - rewrite P. auto.
  - repeat split; auto.
    + exists (bs ++ concat (src (fill b))). rewrite <- P. unfold pending.
      now rewrite E.
    + rewrite E. simpl. lia.
Qed.

Lemma Discard_spec n : forall b,
  match Discard n b with
  | (Ok d, b1) =>
    d = n /\ n <= length (pending b) /\ pending b1 = skipn n (pending b) /\
    srcErr b1 = srcErr b
  | (Err e, b1) =>
    length (pending b) < n /\ pending b1 = [] /\ e = srcErr b /\
    srcErr b1 = srcErr b
  end.
Proof.
  induction n as [|n IH]; intros b; simpl.
  - repeat split; auto. lia.
  - destruct (fill_spec b) as (P & S & N).
    destruct (buf (fill b)) as [|c bs] eqn:E.
    + rewrite P, (N eq_refl). simpl. repeat split; auto. lia.
    + specialize (IH {| buf := bs; src := src (fill b); srcErr := srcErr (fill b) |}).
      assert (Q : pending b = c :: pending {| buf := bs; src := src (fill b); srcErr := srcErr (fill b) |}).
      { rewrite <- P. unfold pending. now rewrite E. }
      destruct (Discard n _) as [[d|e] b2]; rewrite Q; simpl in *.
      * destruct IH as (-> & L & K & T). repeat split; auto; try lia. congruence.
      * destruct IH as (L & K & -> & T). repeat split; auto; try lia. congruence.
Qed.

Ltac read_byte b :=
  let H := fresh "HR" in
  pose proof (ReadByte_spec b) as H;
  let nb := fresh "b" in destruct (ReadByte b) as [[?c|?e] nb].

Ltac peek_one b :=
  let H := fresh "HP" in
  pose proof (Peek1_spec b) as H;
  let nb := fresh "b" in destruct (Peek1 b) as [[?p|?e] nb].

Ltac discard n b :=
  let H := fresh "HD" in
  pose proof (Discard_spec n b) as H;
  let nb := fresh "b" in destruct (Discard n b) as [[?d|?e] nb].

(** ** [Read] returns *)

Lemma skipSubnegotiation_total : forall fuel b,
  length (pending b) < fuel ->
  exists e b',
    skipSubnegotiation fuel b = Some (e, b') /\ srcErr b' = srcErr b /\
    length (pending b') <= length (pending b) /\
    (e = None -> length (pending b') < length (pending b)) /\
    (forall x, e = Some x -> x = srcErr b).
Proof.
  induction fuel as [|fuel IH]; intros b L; [lia|].
  cbn [skipSubnegotiation].
  read_byte b.
  2:{ destruct HR as (A & B & -> & D). exists (Some (srcErr b)), b0.
      repeat split; auto; try lia; try discriminate; try congruence.
      rewrite A, B; lia. }
  destruct HR as (A & D). rewrite A in L. simpl in L.
  assert (IH1 : forall b', srcErr b' = srcErr b -> length (pending b') <= length (pending b0) ->
     exists e b'', skipSubnegotiation fuel b' = Some (e, b'') /\ srcErr b'' = srcErr b /\
       length (pending b'') <= length (pending b) /\
       (e = None -> length (pending b'') < length (pending b)) /\
       (forall x, e = Some x -> x = srcErr b)).
  { intros b' S' L'. destruct (IH b') as (e & b'' & E & S'' & L1 & L2 & L3); [lia|].
    exists e, b''. rewrite A. simpl. repeat split; auto; try congruence; try lia.
    intros x Hx. rewrite (L3 x Hx). exact S'. }
  destruct (Byte.eqb c IAC); [|apply IH1; auto].
  peek_one b0.
  2:{ destruct HP as (A' & B' & -> & D'). exists (Some (srcErr b0)), b1.
      repeat split; auto; try congruence; try discriminate.
      rewrite A, B'. simpl. lia. }
  destruct HP as (A' & D' & (l & Hl) & _).
  destruct (Byte.eqb p IAC || Byte.eqb p SE).
  2:{ apply IH1; [congruence|rewrite A'; lia]. }
  discard 1 b1.
  2:{ destruct HD as (X & _). rewrite A', Hl in X. simpl in X. lia. }
  destruct HD as (_ & X & Y & Z).
  destruct (Byte.eqb p SE).
  - exists None, b2. rewrite A, Y, A', Hl. simpl.
    repeat split; auto; try congruence; try lia; discriminate.
  - apply IH1; [congruence|]. rewrite Y, A', Hl. simpl. lia.
Qed.

Lemma Read_loop_total : forall fuel b cap out,
  length (pending b) < fuel ->
  exists d1 e b',
    Read_loop fuel b cap out = Some ((out ++ d1, e), b') /\
    srcErr b' = srcErr b /\
    length d1 <= cap /\
    length (pending b') + length d1 <= length (pending b) /\
    (e = None -> cap = 0 \/ 0 < length (out ++ d1)) /\
    (forall x, e = Some x -> x = srcErr b \/ x = ErrCorrupted).
Proof.
  induction fuel as [|fuel IH]; intros b cap out L; [lia|].
  destruct cap as [|cap].
  { exists [], None, b. rewrite app_nil_r. cbn. repeat split; auto; try lia; discriminate. }
  cbn [Read_loop].
  destruct ((0 <? length out) && (Buffered b <? 1)) eqn:Brk.
  { apply andb_prop in Brk as [B1 _]. apply Nat.ltb_lt in B1.
    exists [], None, b. rewrite app_nil_r. cbn.
    repeat split; auto; try lia; discriminate. }
  clear Brk.
  assert (Stop : forall x b', srcErr b' = srcErr b -> pending b' = [] \/ length (pending b') <= length (pending b) ->
            x = srcErr b \/ x = ErrCorrupted ->
            exists d1 e b'',
              Some ((out, Some x), b') = Some ((out ++ d1, e), b'') /\
              srcErr b'' = srcErr b /\ length d1 <= S cap /\
              length (pending b'') + length d1 <= length (pending b) /\
              (e = None -> S cap = 0 \/ 0 < length (out ++ d1)) /\
              (forall y, e = Some y -> y = srcErr b \/ y = ErrCorrupted)).
  { intros x b' S' P' Hx. exists [], (Some x), b'. rewrite app_nil_r. cbn.
    repeat split; auto; try lia; try discriminate.
    - destruct P' as [-> | ?]; simpl; lia.
    - intros y [= <-]. exact Hx. }
  assert (Again : forall b', srcErr b' = srcErr b -> length (pending b') < length (pending b) ->
            exists d1 e b'',
              Read_loop fuel b' (S cap) out = Some ((out ++ d1, e), b'') /\
              srcErr b'' = srcErr b /\ length d1 <= S cap /\
              length (pending b'') + length d1 <= length (pending b) /\
              (e = None -> S cap = 0 \/ 0 < length (out ++ d1)) /\
              (forall y, e = Some y -> y = srcErr b \/ y = ErrCorrupted)).
  { intros b' S' L'. destruct (IH b' (S cap) out) as (d1 & e & b'' & E & S'' & C & P & N & X); [lia|].
    exists d1, e, b''. rewrite S' in *. repeat split; auto; try lia. }
  assert (Store : forall c b', srcErr b' = srcErr b -> length (pending b') < length (pending b) ->
            exists d1 e b'',
              Read_loop fuel b' cap (out ++ [c]) = Some ((out ++ d1, e), b'') /\
              srcErr b'' = srcErr b /\ length d1 <= S cap /\
              length (pending b'') + length d1 <= length (pending b) /\
              (e = None -> S cap = 0 \/ 0 < length (out ++ d1)) /\
              (forall y, e = Some y -> y = srcErr b \/ y = ErrCorrupted)).
  { intros c b' S' L'. destruct (IH b' cap (out ++ [c])) as (d1 & e & b'' & E & S'' & C & P & N & X); [lia|].
    exists (c :: d1), e, b''. rewrite S' in *.
    replace (out ++ c :: d1) with ((out ++ [c]) ++ d1) by now rewrite <- app_assoc.
    simpl. repeat split; auto; try lia.
    intros _. right. rewrite !length_app. simpl. lia. }
  read_byte b.
  2:{ destruct HR as (A & B & -> & D). apply Stop; auto. }
  destruct HR as (A & D).
  assert (L0 : length (pending b0) < length (pending b)) by (rewrite A; simpl; lia).
  destruct (Byte.eqb c IAC); [|apply Store; auto].
  peek_one b0.
  2:{ destruct HP as (A' & B' & -> & D'). apply Stop; auto; congruence. }
  destruct HP as (A' & D' & (l & Hl) & _).
  assert (S1 : srcErr b1 = srcErr b) by congruence.
  destruct (isVerb p).
  { discard 2 b1.
    - destruct HD as (_ & X & Y & Z). apply Again; [congruence|].
      rewrite Y, A', Hl. simpl. rewrite Hl in L0. simpl in L0.
      destruct l; simpl in *; lia.
    - destruct HD as (X & Y & -> & Z). apply Stop; auto; congruence. }
  destruct (Byte.eqb p IAC).
  { discard 1 b1.
    - destruct HD as (_ & X & Y & Z). apply Store; [congruence|].
      rewrite Y, A', Hl. simpl. rewrite Hl in L0. simpl in L0. lia.
    - destruct HD as (X & _). rewrite A', Hl in X. simpl in X. lia. }
  destruct (Byte.eqb p SB).
  { destruct (skipSubnegotiation_total fuel b1) as (e & b2 & E & S2 & L2 & N2 & X2); [rewrite A'; lia|].
    rewrite E. rewrite A' in L2, N2. destruct e as [x|].
    - apply Stop; [congruence|right; lia|]. left. rewrite (X2 x eq_refl). exact S1.
    - apply Again; [congruence|]. specialize (N2 eq_refl). lia. }
  destruct (Byte.eqb p SE).
  { discard 1 b1.
    - destruct HD as (_ & X & Y & Z). apply Again; [congruence|].
      rewrite Y, A', Hl. simpl. rewrite Hl in L0. simpl in L0. lia.
    - destruct HD as (X & _). rewrite A', Hl in X. simpl in X. lia. }
  apply Stop; auto. right. rewrite A'. lia.
Qed.

Lemma Read_spec r cap :
  exists d e b',
    Read r cap = ((d, e), {| buffered := b' |}) /\
    Read_loop (S (length (pending (buffered r)))) (buffered r) cap [] = Some ((d, e), b') /\
    srcErr b' = srcErr (buffered r) /\
    length d <= cap /\
    length (pending b') + length d <= length (pending (buffered r)) /\
    (e = None -> cap = 0 \/ 0 < length d) /\
    (forall x, e = Some x -> x = srcErr (buffered r) \/ x = ErrCorrupted).
Proof.
  destruct (Read_loop_total (S (length (pending (buffered r)))) (buffered r) cap [])
    as (d & e & b' & E & H); [lia|].
  exists d, e, b'. unfold Read. rewrite E. simpl in *. auto.
Qed.

Lemma isVerb_false x :
  x <> WILL -> x <> WONT -> x <> DO -> x <> DONT -> isVerb x = false.
Proof.
  intros. unfold isVerb. now rewrite !eqb_neq.
Qed.

(** C5 (reader.go, Read, the default branch of the switch).  When the next two
    wire bytes are 255 and a byte that is none of WILL, WONT, DO, DONT, IAC,
    SB, SE, a Read into a non-empty slice stores nothing (n = 0) and returns
    the error "corrupted"; it has taken the 255 off the stream and nothing
    else, the offending byte and all that follows are left as they were. *)
Theorem Read_corrupted (r : reader) (x : byte) (rest : list byte) (cap : nat)
  (Hwire : pending (buffered r) = IAC :: x :: rest)
  (Hcap : 0 < cap)
  (HWILL : x <> WILL) (HWONT : x <> WONT) (HDO : x <> DO) (HDONT : x <> DONT)
  (HIAC : x <> IAC) (HSB : x <> SB) (HSE : x <> SE) :
  exists r',
    Read r cap = (([], Some ErrCorrupted), r') /\
    pending (buffered r') = x :: rest.
Proof.
  unfold Read. destruct cap as [|cap]; [lia|].
  cbn [Read_loop length Nat.ltb Nat.leb andb].
  read_byte (buffered r).
  2:{ destruct HR as (A & _). congruence. }
  destruct HR as (A & D). rewrite Hwire in A. injection A as <- A.
  rewrite eqb_refl.
  peek_one b.
  2:{ destruct HP as (A' & _). congruence. }
  destruct HP as (A' & D' & (l & Hl) & _).
  rewrite <- A in Hl. injection Hl as <- <-.
  rewrite (isVerb_false x HWILL HWONT HDO HDONT).
  rewrite (eqb_neq _ _ HIAC), (eqb_neq _ _ HSB), (eqb_neq _ _ HSE).
  eexists. split; [reflexivity|]. simpl. congruence.
Qed.

Lemma Read_corrupted_witness :
  exists r',
    Read (newReader [[IAC]; [x01; x41]] EOF) 4 = (([], Some ErrCorrupted), r') /\
    pending (buffered r') = [x01; x41].
Proof.
  apply (@Read_corrupted (newReader [[IAC]; [x01; x41]] EOF) x01 [x41] 4);
    (reflexivity || lia || discriminate).
Defined.

(** A Read into an empty slice does not enter the loop: nothing is read and
    nothing is reported. *)
Example Read_empty_slice :
  fst (Read (newReader [[IAC; x01]] EOF) 0) = ([], None).
Proof. reflexivity. Qed.

(** The error is not kept: the next Read goes on from the byte that was
    left. *)
Example Read_after_corrupted :
  let '(_, r1) := Read (newReader [[IAC; x01; x41]] EOF) 4 in
  fst (Read r1 4) = ([x01; x41], None).
Proof. reflexivity. Qed.

(** ** [LongWrite] *)

Lemma firstn_plus {A : Type} (n m : nat) : forall l : list A,
  firstn (n + m) l = firstn n l ++ firstn m (skipn n l).
Proof.
  induction n as [|n IH]; intros l; [reflexivity|].
  destruct l as [|x l]; simpl.
  - now rewrite firstn_nil.
  - now rewrite IH.
Qed.

(** Whatever [LongWrite] returns, the wire has grown by the first [m] bytes of
    [p], [m] is the count it adds, and a nil error means all of [p]. *)
Lemma LongWrite_sent : forall fuel w p acc k e w',
  LongWrite fuel w p acc = Some ((k, e), w') ->
  exists m,
    m <= length p /\ k = (acc + Z.of_nat m)%Z /\
    sent w' = sent w ++ firstn m p /\ behave w' = behave w /\
    (e = None -> m = length p) /\
    (forall x, e = Some x ->
       isShortWrite x = false /\ exists i q, failure (behave w i q) = Some x).
Proof.
  induction fuel as [|fuel IH]; intros w p acc k e w' E.
  - destruct p; [|discriminate]. injection E as <- <- <-.
    exists 0. simpl. rewrite app_nil_r. repeat split; auto; try lia; discriminate.
  - destruct p as [|c p0]; simpl in E.
    { injection E as <- <- <-. exists 0. simpl. rewrite app_nil_r.
      repeat split; auto; try lia; discriminate. }
    set (p := c :: p0) in *.
    set (r := behave w (calls w) p) in *.
    set (n := Nat.min (accepted r) (length p)) in *.
    set (w1 := {| sent := sent w ++ firstn n p; behave := behave w; calls := S (calls w) |}) in *.
    assert (Rec : LongWrite fuel w1 (skipn n p) (acc + Z.of_nat n) = Some ((k, e), w') ->
              exists m, m <= length p /\ k = (acc + Z.of_nat m)%Z /\
                sent w' = sent w ++ firstn m p /\ behave w' = behave w /\
                (e = None -> m = length p) /\
                (forall x, e = Some x ->
                   isShortWrite x = false /\ exists i q, failure (behave w i q) = Some x)).
    { intros E'. apply IH in E' as (m & M1 & M2 & M3 & M4 & M5 & M6).
      rewrite length_skipn in M1, M5.
      assert (n <= length p) by apply Nat.le_min_r.
      exists (n + m). split; [lia|]. split; [lia|].
      split; [rewrite M3, firstn_plus; simpl; now rewrite <- app_assoc|].
      split; [exact M4|]. split; [intros He; specialize (M5 He); lia|].
      exact M6. }
    destruct (failure r) as [x|] eqn:F; [|exact (Rec E)].
    destruct (isShortWrite x) eqn:SW; simpl in E; [exact (Rec E)|].
    injection E as <- <- <-. exists n.
    split; [apply Nat.le_min_r|]. split; [reflexivity|]. split; [reflexivity|].
    split; [reflexivity|]. split; [discriminate|].
    intros y [= <-]. split; [exact SW|]. exists (calls w), p. exact F.
Qed.

(** With a transport that makes headway from its [K]-th call on, the calls
    before that one and one call per byte of [p] are enough. *)
Lemma LongWrite_returns : forall K fuel w p acc,
  progressesFrom K (behave w) -> (K - calls w) + length p <= fuel ->
  LongWrite fuel w p acc <> None.
Proof.
  intros K. induction fuel as [|fuel IH]; intros w p acc Hp L.
  - destruct p; [discriminate|simpl in L; lia].
  - destruct p as [|c p0]; [discriminate|]. simpl.
    set (p := c :: p0) in *.
    set (r := behave w (calls w) p).
    set (n := Nat.min (accepted r) (length p)).
    assert (Rec : (calls w < K \/ 1 <= accepted r) -> forall a,
              LongWrite fuel {| sent := sent w ++ firstn n p; behave := behave w; calls := S (calls w) |}
                (skipn n p) a <> None).
    { intros A a. apply IH; [exact Hp|]. rewrite length_skipn.
      subst n. change (length p) with (S (length p0)) in *. simpl calls. lia. }
    destruct (Nat.lt_ge_cases (calls w) K) as [Early | Late].
    + destruct (failure r) as [x|]; [|now apply Rec; left].
      destruct (isShortWrite x); simpl; [now apply Rec; left|discriminate].
    + destruct (Hp (calls w) p Late) as [A | (x & F & SW)]; [discriminate| |].
      * fold r in A. destruct (failure r) as [x|]; [|now apply Rec; right].
        destruct (isShortWrite x); simpl; [now apply Rec; right|discriminate].
      * fold r in F. rewrite F, SW. discriminate.
Qed.

Lemma LongWrite_stuck : forall fuel w acc c p,
  behave w = stuck -> LongWrite fuel w (c :: p) acc = None.
Proof.
  induction fuel as [|fuel IH]; intros w acc c p Hs; [reflexivity|].
  simpl. rewrite Hs. simpl. apply IH. reflexivity.
Qed.

Lemma hesitant_progresses : progressesFrom 2 hesitant.
Proof.
  intros i p Hi Hp. left. unfold hesitant.
  destruct (i <? 2) eqn:E; [apply Nat.ltb_lt in E; lia|simpl; lia].
Qed.

Lemma LongWrite_acceptAll fuel w p acc :
  behave w = acceptAll -> 0 < fuel ->
  exists w', LongWrite fuel w p acc = Some (((acc + Z.of_nat (length p))%Z, None), w') /\
             sent w' = sent w ++ p /\ behave w' = acceptAll.
Proof.
  intros Ha Hf. destruct fuel as [|fuel]; [lia|].
  destruct p as [|c p0].
  - exists w. simpl. rewrite app_nil_r, Z.add_0_r. auto.
  - cbn [LongWrite ioWriter_Write]. rewrite Ha. cbn [acceptAll accepted failure].
    rewrite Nat.min_id, skipn_all, firstn_all.
    destruct fuel; simpl; eexists; split; try reflexivity; simpl; auto.
Qed.

Lemma reportAt_S beh c p i :
  reportAt beh c p (S i)
  = reportAt beh (S c) (skipn (Nat.min (accepted (beh c p)) (length p)) p) i.
Proof.
  unfold reportAt. cbn [leftAfter]. now rewrite Nat.add_succ_r.
Qed.

(** The turns of the loop, one by one: [LongWrite] has made [j] calls, each on
    a slice that was not empty; every call but the last was answered with nil
    or a short write; the last one either emptied the slice or is the first
    to report another error, and the bytes it took are counted. *)
Lemma LongWrite_turns : forall fuel w p acc k e w',
  LongWrite fuel w p acc = Some ((k, e), w') ->
  exists j m,
    calls w' = calls w + j /\ j <= fuel /\
    leftAfter (behave w) (calls w) p j = skipn m p /\ m <= length p /\
    k = (acc + Z.of_nat m)%Z /\ sent w' = sent w ++ firstn m p /\
    (forall i, i < j -> leftAfter (behave w) (calls w) p i <> []) /\
    (forall i, S i < j -> softReport (reportAt (behave w) (calls w) p i)) /\
    match e with
    | None =>
      leftAfter (behave w) (calls w) p j = [] /\
      (forall i, i < j -> softReport (reportAt (behave w) (calls w) p i))
    | Some x =>
      exists i, j = S i /\ reportAt (behave w) (calls w) p i = Some x /\
                isShortWrite x = false
    end.
Proof.
  induction fuel as [|fuel IH]; intros w p acc k e w' E.
  - destruct p; [|discriminate]. injection E as <- <- <-.
    exists 0, 0. cbn [leftAfter skipn firstn length].
    rewrite app_nil_r, Nat.add_0_r, Z.add_0_r.
    repeat split; auto; intros; lia.
  - destruct p as [|c p0]; cbn [LongWrite ioWriter_Write] in E.
    { injection E as <- <- <-.
      exists 0, 0. cbn [leftAfter skipn firstn length].
      rewrite app_nil_r, Nat.add_0_r, Z.add_0_r.
      repeat split; auto; try lia; intros; lia. }
    set (p := c :: p0) in *.
    set (r := behave w (calls w) p) in *.
    set (n := Nat.min (accepted r) (length p)) in *.
    set (w1 := {| sent := sent w ++ firstn n p; behave := behave w;
                  calls := S (calls w) |}) in *.
    assert (Hn : n <= length p) by apply Nat.le_min_r.
    assert (Hp : p <> []) by discriminate.
    assert (Rec : softReport (failure r) ->
              LongWrite fuel w1 (skipn n p) (acc + Z.of_nat n) = Some ((k, e), w') ->
              exists j m,
                calls w' = calls w + j /\ j <= S fuel /\
                leftAfter (behave w) (calls w) p j = skipn m p /\ m <= length p /\
                k = (acc + Z.of_nat m)%Z /\ sent w' = sent w ++ firstn m p /\
                (forall i, i < j -> leftAfter (behave w) (calls w) p i <> []) /\
                (forall i, S i < j -> softReport (reportAt (behave w) (calls w) p i)) /\
                match e with
                | None =>
                  leftAfter (behave w) (calls w) p j = [] /\
                  (forall i, i < j -> softReport (reportAt (behave w) (calls w) p i))
                | Some x =>
                  exists i, j = S i /\ reportAt (behave w) (calls w) p i = Some x /\
                            isShortWrite x = false
                end).
    { intros Soft E'.
      apply IH in E' as (j & m & J1 & J2 & J3 & J4 & J5 & J6 & J7 & J8 & J9).
      cbn [calls behave sent w1] in J1, J3, J6, J7, J8, J9.
      rewrite length_skipn in J4.
      assert (Soft0 : softReport (reportAt (behave w) (calls w) p 0)).
      { unfold reportAt. cbn [leftAfter]. now rewrite Nat.add_0_r. }
      exists (S j), (n + m).
      split; [lia|]. split; [lia|].
      split; [cbn [leftAfter]; fold r; fold n; rewrite J3, skipn_skipn;
              f_equal; lia|].
      split; [lia|]. split; [lia|].
      split; [rewrite J6, firstn_plus, <- app_assoc; reflexivity|].
      split.
      { intros [|i] Hi; [exact Hp|]. cbn [leftAfter]. apply J7. lia. }
      split.
      { intros [|i] Hi; [exact Soft0|]. rewrite reportAt_S. apply J8. lia. }
      destruct e as [x|].
      - destruct J9 as (i & -> & R & SW). exists (S i).
        split; [reflexivity|]. split; [|exact SW]. now rewrite reportAt_S.
      - destruct J9 as [L S']. split; [exact L|].
        intros [|i] Hi; [exact Soft0|]. rewrite reportAt_S. apply S'. lia. }
    destruct (failure r) as [x|] eqn:F.
    + destruct (isShortWrite x) eqn:SW; cbn [negb] in E.
      * apply Rec; [|exact E]. intros y [= <-]. exact SW.
      * injection E as <- <- <-. exists 1, n.
        split; [unfold w1; cbn [calls]; lia|]. split; [lia|].
        split; [reflexivity|]. split; [exact Hn|]. split; [reflexivity|].
        split; [reflexivity|].
        split; [intros i Hi; replace i with 0 by lia; exact Hp|].
        split; [intros i Hi; lia|].
        exists 0. split; [reflexivity|]. split; [|exact SW].
        unfold reportAt. cbn [leftAfter]. rewrite Nat.add_0_r. exact F.
    + apply Rec; [|exact E]. intros y [=].
Qed.

(** C8 (io.go, LongWrite), as the code has it.  For every transport and every
    [p]: when LongWrite returns a nil error it has put all of [p] on the wire
    and counts len(p), short writes having been tried again; when it returns
    an error, that error is one the transport reported and is not a short
    write, and the count is the number of bytes of [p] that reached the wire.
    Turn by turn: LongWrite has made [j] calls, each on what was left of [p]
    and none on an empty slice; every call before the last was answered with
    nil or a short write and was followed by another call, with or without
    headway; the call ends at once at the first call that reports another
    error, the bytes that call took being counted, and otherwise at the
    first turn at which nothing is left.  LongWrite returns provided that the
    transport, from some call on, makes headway on every call (takes a byte,
    or fails otherwise than by a short write). *)
Theorem LongWrite_resilient (w : ioWriter) (p : list byte) :
  (forall fuel k e w',
     LongWrite fuel w p 0 = Some ((k, e), w') ->
     (e = None /\ k = Z.of_nat (length p) /\ sent w' = sent w ++ p) \/
     (exists x m,
        e = Some x /\ isShortWrite x = false /\
        (exists i q, failure (behave w i q) = Some x) /\
        m <= length p /\ k = Z.of_nat m /\ sent w' = sent w ++ firstn m p)) /\
  (forall fuel k e w',
     LongWrite fuel w p 0 = Some ((k, e), w') ->
     exists j m,
       calls w' = calls w + j /\
       leftAfter (behave w) (calls w) p j = skipn m p /\ m <= length p /\
       k = Z.of_nat m /\ sent w' = sent w ++ firstn m p /\
       (forall i, i < j -> leftAfter (behave w) (calls w) p i <> []) /\
       (forall i, S i < j -> softReport (reportAt (behave w) (calls w) p i)) /\
       match e with
       | None =>
         leftAfter (behave w) (calls w) p j = [] /\
         (forall i, i < j -> softReport (reportAt (behave w) (calls w) p i))
       | Some x =>
         exists i, j = S i /\ reportAt (behave w) (calls w) p i = Some x /\
                   isShortWrite x = false
       end) /\
  (forall K, progressesFrom K (behave w) ->
   forall fuel, (K - calls w) + length p <= fuel ->
     LongWrite fuel w p 0 <> None).
Proof.
  split; [|split].
  - intros fuel k e w' E.
    apply LongWrite_sent in E as (m & M1 & M2 & M3 & M4 & M5 & M6).
    destruct e as [x|].
    + right. exists x, m. destruct (M6 x eq_refl) as [SW R].
      repeat split; auto.
    + left. rewrite (M5 eq_refl) in *. rewrite firstn_all in M3. auto.
  - intros fuel k e w' E.
    apply LongWrite_turns in E
      as (j & m & J1 & _ & J3 & J4 & J5 & J6 & J7 & J8 & J9).
    exists j, m. rewrite Z.add_0_l in J5.
    split; [exact J1|]. split; [exact J3|]. split; [exact J4|].
    split; [exact J5|]. split; [exact J6|]. split; [exact J7|].
    split; [exact J8|exact J9].
  - intros K Hp fuel L. now apply LongWrite_returns with (K := K).
Qed.

Lemma LongWrite_resilient_witness :
  LongWrite 5 (freshWriter hesitant) [x41; x42; x43] 0 <> None /\
  exists j m,
    j = 1 /\ m = 1 /\
    leftAfter (failsFrom 0) 0 [x41; x42; x43] j = skipn m [x41; x42; x43] /\
    reportAt (failsFrom 0) 0 [x41; x42; x43] 0 = Some (ErrIO 32).
Proof.
  split.
  - apply (proj2 (proj2 (LongWrite_resilient (freshWriter hesitant)
                           [x41; x42; x43])) 2).
    + exact hesitant_progresses.
    + simpl. lia.
  - destruct (proj1 (proj2 (LongWrite_resilient (freshWriter (failsFrom 0))
                              [x41; x42; x43]))
                5 1%Z (Some (ErrIO 32))
                {| sent := [x41]; behave := failsFrom 0; calls := 1 |} eq_refl)
      as (j & m & J1 & J3 & _ & J5 & _ & _ & _ & i & -> & R & _).
    cbn [calls freshWriter] in J1.
    assert (i = 0) by lia. subst i.
    assert (m = 1) by lia. subst m.
    exists 1, 1. split; [reflexivity|]. split; [reflexivity|].
    split; [exact J3|exact R].
Defined.

(** Two calls that take nothing, then a byte a call, each with a short write:
    all of [p] reaches the wire in five calls. *)
Example LongWrite_retries :
  LongWrite 5 (freshWriter hesitant) [x41; x42; x43] 0
  = Some ((3%Z, None),
          {| sent := [x41; x42; x43]; behave := hesitant; calls := 5 |}).
Proof. reflexivity. Qed.

(** The call does not return, whatever the number of turns allowed, when the
    transport answers every call with zero bytes and a short write. *)
Lemma LongWrite_may_not_return :
  ~ (exists fuel, LongWrite fuel (freshWriter stuck) [x41] 0 <> None).
Proof.
  intros [fuel H]. apply H. now apply LongWrite_stuck.
Qed.

(** An error that is not a short write ends the call at once, also when the
    failing call took a byte. *)
Example LongWrite_error_with_headway :
  LongWrite 5 (freshWriter (fun _ _ => {| accepted := 1; failure := Some (ErrIO 32) |}))
            [x41; x42; x43] 0
  = Some ((1%Z, Some (ErrIO 32)),
          {| sent := [x41];
             behave := fun _ _ => {| accepted := 1; failure := Some (ErrIO 32) |};
             calls := 1 |}).
Proof. reflexivity. Qed.

(** ** [writer.Write] *)

Lemma flushBuffer_ok fuel w buffer n n' w' :
  flushBuffer fuel w buffer n = Some ((n', None), w') ->
  sent w' = sent w ++ buffer /\ n' = (n + Z.of_nat (length buffer))%Z /\
  behave w' = behave w.
Proof.
  unfold flushBuffer. destruct (0 <? length buffer) eqn:Len.
  - destruct (LongWrite fuel w buffer 0) as [[[k e] w1]|] eqn:E; [|discriminate].
    intros [= <- -> <-].
    apply LongWrite_sent in E as (m & M1 & M2 & M3 & M4 & M5 & M6).
    rewrite (M5 eq_refl) in *. rewrite firstn_all in M3.
    repeat split; auto. lia.
  - apply Nat.ltb_ge in Len. intros [= <- <-].
    destruct buffer; [|simpl in Len; lia].
    rewrite app_nil_r. simpl. repeat split; auto. lia.
Qed.

Lemma Write_loop_ok : forall data fuel w buffer n n' w',
  Write_loop fuel w data buffer n = Some ((n', None), w') ->
  sent w' = sent w ++ buffer ++ escape data /\
  n' = (n + Z.of_nat (length buffer) + Z.of_nat (length data))%Z /\
  behave w' = behave w.
Proof.
  induction data as [|value rest IH]; intros fuel w buffer n n' w' E.
  - simpl in E. apply flushBuffer_ok in E as (S1 & N1 & B1).
    simpl. rewrite app_nil_r. repeat split; auto. lia.
  - cbn [Write_loop escape] in *. destruct (Byte.eqb value IAC) eqn:V; cbn [negb] in E.
    + destruct (flushBuffer fuel w buffer n) as [[[n1 [e|]] w1]|] eqn:F;
        try discriminate.
      apply flushBuffer_ok in F as (S1 & N1 & B1).
      destruct (LongWrite fuel w1 EscapeIAC 0) as [[[k [e|]] w2]|] eqn:L;
        try discriminate.
      apply LongWrite_sent in L as (m & M1 & M2 & M3 & M4 & M5 & M6).
      rewrite (M5 eq_refl) in *. rewrite firstn_all in M3.
      destruct (negb (k =? Z.of_nat (length EscapeIAC))%Z); [discriminate|].
      apply IH in E as (S2 & N2 & B2).
      split; [|split].
      * rewrite S2, M3, S1. unfold EscapeIAC. simpl.
        now rewrite <- !app_assoc.
      * rewrite N2, N1. cbn [length]. lia.
      * congruence.
    + apply IH in E as (S2 & N2 & B2). split; [|split]; auto.
      * rewrite S2. now rewrite <- !app_assoc.
      * rewrite N2, length_app. cbn [length]. lia.
Qed.

Lemma flushBuffer_acceptAll fuel w buffer n :
  behave w = acceptAll -> 0 < fuel ->
  exists w', flushBuffer fuel w buffer n
             = Some (((n + Z.of_nat (length buffer))%Z, None), w') /\
             sent w' = sent w ++ buffer /\ behave w' = acceptAll.
Proof.
  intros Ha Hf. unfold flushBuffer. destruct (0 <? length buffer) eqn:Len.
  - destruct (LongWrite_acceptAll fuel w buffer 0 Ha Hf) as (w' & E & S1 & B1).
    rewrite E. exists w'. auto.
  - apply Nat.ltb_ge in Len. destruct buffer; [|simpl in Len; lia].
    exists w. rewrite app_nil_r, Z.add_0_r. auto.
Qed.

Lemma Write_loop_acceptAll : forall data fuel w buffer n,
  behave w = acceptAll -> 0 < fuel ->
  exists w',
    Write_loop fuel w data buffer n
    = Some (((n + Z.of_nat (length buffer) + Z.of_nat (length data))%Z, None), w').
Proof.
  induction data as [|value rest IH]; intros fuel w buffer n Ha Hf.
  - destruct (flushBuffer_acceptAll fuel w buffer n Ha Hf) as (w' & E & _).
    exists w'. simpl. now rewrite E, Z.add_0_r.
  - cbn [Write_loop]. destruct (Byte.eqb value IAC); simpl.
    + destruct (flushBuffer_acceptAll fuel w buffer n Ha Hf) as (w1 & E & _ & B1).
      rewrite E.
      destruct (LongWrite_acceptAll fuel w1 EscapeIAC 0 B1 Hf) as (w2 & L & _ & B2).
      rewrite L. simpl.
      destruct (IH fuel w2 [] (n + Z.of_nat (length buffer) + 1)%Z B2 Hf) as (w' & E').
      exists w'. rewrite E'. do 3 f_equal. cbn [length]. lia.
    + destruct (IH fuel w (buffer ++ [value]) n Ha Hf) as (w' & E').
      exists w'. rewrite E'. do 3 f_equal. rewrite length_app. cbn [length]. lia.
Qed.

(** C2 (writer.go, Write), for data that does not trip the command test at
    the head of Write (more than five bytes, the first four all 255).  A Write
    that returns a nil error has added to the wire exactly the escaped
    encoding of [data], each 255 doubled and every other byte as it is, in
    order, and returns n = len(data), the count of input bytes; and on a
    transport that takes all it is given Write does return so. *)
Theorem Write_escapes (data : list byte) (Hdata : isCommand data = false) :
  (forall fuel w n w',
     Write fuel w data = Some ((n, None), w') ->
     sent (w_writer w') = sent (w_writer w) ++ escape data /\
     n = Z.of_nat (length data)) /\
  (forall fuel w,
     behave (w_writer w) = acceptAll -> 0 < fuel ->
     exists w', Write fuel w data = Some ((Z.of_nat (length data), None), w')).
Proof.
  split.
  - intros fuel w n w' E. unfold Write in E. rewrite Hdata in E.
    destruct (Write_loop fuel (w_writer w) data [] 0) as [[[n1 e1] w1]|] eqn:L;
      [|discriminate].
    simpl in E. injection E as -> -> <-.
    apply Write_loop_ok in L as (S1 & N1 & _). simpl in *. split; auto.
  - intros fuel w Ha Hf. unfold Write. rewrite Hdata.
    destruct (Write_loop_acceptAll data fuel (w_writer w) [] 0 Ha Hf) as (w' & E).
    rewrite E. simpl. eexists. reflexivity.
Qed.

Lemma Write_escapes_witness :
  exists w',
    Write 1 (newWriter (freshWriter acceptAll)) [x01; IAC; x02]
    = Some ((3%Z, None), w').
Proof.
  apply (proj2 (Write_escapes [x01; IAC; x02] eq_refl)
               1 (newWriter (freshWriter acceptAll)));
    [reflexivity | lia].
Defined.

(** Six bytes of data that begin with four 255s are taken for a command: the
    last two go to the wire as they are, not the escaped encoding, and n is 2,
    not 6. *)
Lemma Write_signature_data_not_escaped :
  let data := [IAC; IAC; IAC; IAC; x01; x02] in
  exists w',
    Write 4 (newWriter (freshWriter acceptAll)) data = Some ((2%Z, None), w') /\
    sent (w_writer w') = [x01; x02] /\
    sent (w_writer w') <> escape data /\
    2%Z <> Z.of_nat (length data).
Proof.
  eexists. split; [reflexivity|]. split; [reflexivity|].
  split; discriminate.
Qed.

(** ** [WriteCommand] *)

Lemma WriteCommand_unfold fuel (w : writer) c o a :
  WriteCommand fuel w c o a = lift_writer (LongWrite fuel (w_writer w) [c; o; a] 0).
Proof. reflexivity. Qed.

(** C3 (writer.go, WriteCommand through the command test of Write).  For every
    three bytes, what WriteCommand adds to the wire is those bytes as they are
    and in order, never a byte more and none of them doubled, 255 included:
    with a nil error all three and n = 3, otherwise a first part of them; on a
    transport that takes all it is given it returns n = 3 and a nil error. *)
Theorem WriteCommand_raw (w : writer) (c o a : byte) :
  (forall fuel n e w',
     WriteCommand fuel w c o a = Some ((n, e), w') ->
     exists m,
       m <= 3 /\ n = Z.of_nat m /\
       sent (w_writer w') = sent (w_writer w) ++ firstn m [c; o; a] /\
       (e = None -> m = 3)) /\
  (behave (w_writer w) = acceptAll ->
   forall fuel, 0 < fuel ->
     exists w',
       WriteCommand fuel w c o a = Some ((3%Z, None), w') /\
       sent (w_writer w') = sent (w_writer w) ++ [c; o; a]).
Proof.
  split.
  - intros fuel n e w' E. rewrite WriteCommand_unfold in E.
    destruct (LongWrite fuel (w_writer w) [c; o; a] 0) as [[[k e1] w1]|] eqn:L;
      [|discriminate].
    simpl in E. injection E as -> -> <-.
    apply LongWrite_sent in L as (m & M1 & M2 & M3 & M4 & M5 & M6).
    exists m. simpl in *. repeat split; auto.
  - intros Ha fuel Hf. rewrite WriteCommand_unfold.
    destruct (LongWrite_acceptAll fuel (w_writer w) [c; o; a] 0 Ha Hf)
      as (w' & E & S1 & _).
    rewrite E. simpl. eexists. split; [reflexivity|exact S1].
Qed.

Lemma WriteCommand_raw_witness :
  exists w',
    WriteCommand 1 (newWriter (freshWriter acceptAll)) IAC WILL ECHO
    = Some ((3%Z, None), w') /\
    sent (w_writer w') = [xff; xfb; x01].
Proof.
  apply (proj2 (WriteCommand_raw (newWriter (freshWriter acceptAll)) IAC WILL ECHO));
    [reflexivity | lia].
Defined.

(** Through a [Session] in line-discipline mode the bytes of a command pass
    the LF rewriting of [Session.Write] before they reach [Write]: a command
    that holds the byte 10 goes out with a 13 before it. *)
Example Session_WriteCommand_pty_LF :
  option_map (fun '((n, e), s') => (n, e, sent (w_writer (s_writer s'))))
             (Session_WriteCommand 1 (demoSession true []) IAC DO NL)
  = Some (4%Z, None, [IAC; DO; CR; NL]).
Proof. reflexivity. Qed.

Example Session_WriteCommand_plain :
  option_map (fun '((n, e), s') => (n, e, sent (w_writer (s_writer s'))))
             (Session_WriteCommand 1 (demoSession false []) IAC DO NL)
  = Some (3%Z, None, [IAC; DO; NL]).
Proof. reflexivity. Qed.

(** ** [Read] on a well-formed stream *)

Lemma skipSubnegotiation_payload : forall body, sbPayload body ->
  forall fuel b w,
    pending b = body ++ IAC :: SE :: w -> length (pending b) < fuel ->
    exists b', skipSubnegotiation fuel b = Some (None, b') /\
               pending b' = w /\ srcErr b' = srcErr b.
Proof.
  induction 1 as [|c l Hc Hl IH|l Hl IH]; intros fuel b w Hp Hf;
    (destruct fuel as [|fuel]; [lia|]); cbn [skipSubnegotiation];
    read_byte b; try (destruct HR as (A & _); rewrite A in Hp; discriminate);
    destruct HR as (A & D); rewrite A in Hp, Hf; simpl in Hp, Hf;
    injection Hp as -> Hp.
  - rewrite eqb_refl. peek_one b0.
    2:{ destruct HP as (A' & _). congruence. }
    destruct HP as (A' & D' & (l' & Hl') & _).
    rewrite Hp in Hl'. injection Hl' as <- <-.
    change (Byte.eqb SE IAC || Byte.eqb SE SE) with true. cbn iota.
    discard 1 b1.
    2:{ destruct HD as (X & _). rewrite A', Hp in X. simpl in X. lia. }
    destruct HD as (_ & _ & Y & Z). rewrite A', Hp in Y. simpl in Y.
    rewrite eqb_refl. exists b2. repeat split; auto. congruence.
  - rewrite (eqb_neq _ _ Hc).
    destruct (IH fuel b0 w Hp) as (b' & E & P' & S'); [lia|].
    exists b'. repeat split; auto. congruence.
  - rewrite eqb_refl. peek_one b0.
    2:{ destruct HP as (A' & _). congruence. }
    destruct HP as (A' & D' & (l' & Hl') & _).
    rewrite Hp in Hl'. injection Hl' as <- <-.
    rewrite eqb_refl. cbn [orb]. discard 1 b1.
    2:{ destruct HD as (X & _). rewrite A', Hp in X. simpl in X. lia. }
    destruct HD as (_ & _ & Y & Z). rewrite A', Hp in Y. simpl in Y.
    change (Byte.eqb IAC SE) with false. cbn iota.
    destruct (IH fuel b2 w Y) as (b' & E & P' & S');
      [rewrite Y; rewrite Hp in Hf; simpl in Hf |- *; lia|].
    exists b'. repeat split; auto. congruence.
Qed.

Lemma Read_loop_head fuel b cap out :
  cap = 0 \/ (0 <? length out) && (Buffered b <? 1) = true ->
  Read_loop fuel b cap out = Some ((out, None), b) /\
  (cap = 0 \/ 0 < length out).
Proof.
  intros [-> | H].
  - destruct fuel; split; auto.
  - destruct cap; [destruct fuel; split; auto|].
    destruct fuel; cbn [Read_loop]; rewrite H; (split; [reflexivity|]);
      apply andb_prop in H as [H _]; apply Nat.ltb_lt in H; auto.
Qed.

Lemma ReadOutcome_head fuel b cap out d :
  decodes (pending b) d ->
  cap = 0 \/ (0 <? length out) && (Buffered b <? 1) = true ->
  ReadOutcome b cap out d (Read_loop fuel b cap out).
Proof.
  intros Hd H. destruct (Read_loop_head fuel b cap out H) as [E C].
  exists [], d, None, b. rewrite app_nil_r. repeat split; auto.
Qed.

Lemma ReadOutcome_again b b' cap out d res :
  srcErr b' = srcErr b ->
  ReadOutcome b' cap out d res -> ReadOutcome b cap out d res.
Proof.
  intros S (d1 & d2 & e & b'' & E & S' & D & W & C).
  exists d1, d2, e, b''. rewrite S in *. auto.
Qed.

Lemma ReadOutcome_store b b' cap out c d res :
  srcErr b' = srcErr b ->
  ReadOutcome b' cap (out ++ [c]) d res -> ReadOutcome b (S cap) out (c :: d) res.
Proof.
  intros S (d1 & d2 & e & b'' & E & S' & D & W & C).
  exists (c :: d1), d2, e, b''.
  replace (out ++ c :: d1) with ((out ++ [c]) ++ d1) by now rewrite <- app_assoc.
  split; [exact E|]. split; [congruence|]. split; [now rewrite D|].
  split; [exact W|]. left. destruct C as [[-> C] | (_ & C & _)].
  - split; [reflexivity|]. right. rewrite !length_app. simpl. lia.
  - now destruct out.
Qed.

Lemma Read_loop_decodes : forall w d, decodes w d ->
  forall fuel b cap out,
    pending b = w -> length w < fuel ->
    ReadOutcome b cap out d (Read_loop fuel b cap out).
Proof.
  induction 1 as [|c w d Hc Hw IH|w d Hw IH|v o w d Hv Hw IH|w d Hw IH|body w d Hb Hw IH];
    intros fuel b cap out Hp Hf;
    (destruct cap as [|cap];
     [apply ReadOutcome_head; [rewrite Hp; now constructor|now left]|]);
    (destruct ((0 <? length out) && (Buffered b <? 1)) eqn:Brk;
     [apply ReadOutcome_head; [rewrite Hp; now constructor|now right]|]);
    (destruct fuel as [|fuel]; [lia|]);
    cbn [Read_loop]; rewrite Brk; read_byte b.
  - destruct HR as (A & _). congruence.
  - (* end of the stream *)
    destruct HR as (A & B & -> & D).
    assert (out = []) as ->.
    { unfold pending in Hp. apply app_eq_nil in Hp as [Hb _].
      unfold Buffered in Brk. rewrite Hb in Brk. simpl in Brk.
      rewrite andb_true_r in Brk. apply Nat.ltb_ge in Brk.
      destruct out; [reflexivity|simpl in Brk; lia]. }
    exists [], [], (Some (srcErr b)), b0. rewrite B.
    repeat split; auto; [constructor|]. right. auto.
  - (* a plain byte *)
    destruct HR as (A & D). rewrite Hp in A. injection A as <- A.
    rewrite (eqb_neq _ _ Hc).
    apply ReadOutcome_store with (b' := b0); [exact D|].
    apply IH; [auto|simpl in Hf; lia].
  - destruct HR as (A & _). congruence.
  - (* 255 255 *)
    destruct HR as (A & D). rewrite Hp in A. injection A as <- A.
    rewrite eqb_refl. peek_one b0.
    2:{ destruct HP as (A' & _). congruence. }
    destruct HP as (A' & D' & (l & Hl) & _).
    rewrite <- A in Hl. injection Hl as <- <-.
    change (isVerb IAC) with false. cbn iota. rewrite eqb_refl.
    discard 1 b1.
    2:{ destruct HD as (X & _). rewrite A', <- A in X. simpl in X. lia. }
    destruct HD as (_ & _ & Y & Z). rewrite A', <- A in Y. simpl in Y.
    apply ReadOutcome_store with (b' := b2); [congruence|].
    apply IH; [auto|simpl in Hf; lia].
  - destruct HR as (A & _). congruence.
  - (* 255, a verb, its option *)
    destruct HR as (A & D). rewrite Hp in A. injection A as <- A.
    rewrite eqb_refl. peek_one b0.
    2:{ destruct HP as (A' & _). congruence. }
    destruct HP as (A' & D' & (l & Hl) & _).
    rewrite <- A in Hl. injection Hl as <- <-.
    rewrite Hv. discard 2 b1.
    2:{ destruct HD as (X & _). rewrite A', <- A in X. simpl in X. lia. }
    destruct HD as (_ & _ & Y & Z). rewrite A', <- A in Y. simpl in Y.
    apply ReadOutcome_again with (b' := b2); [congruence|].
    apply IH; [auto|simpl in Hf; lia].
  - destruct HR as (A & _). congruence.
  - (* 255 SE with no subnegotiation open *)
    destruct HR as (A & D). rewrite Hp in A. injection A as <- A.
    rewrite eqb_refl. peek_one b0.
    2:{ destruct HP as (A' & _). congruence. }
    destruct HP as (A' & D' & (l & Hl) & _).
    rewrite <- A in Hl. injection Hl as <- <-.
    change (isVerb SE) with false. change (Byte.eqb SE IAC) with false.
    change (Byte.eqb SE SB) with false. cbn iota. rewrite eqb_refl.
    discard 1 b1.
    2:{ destruct HD as (X & _). rewrite A', <- A in X. simpl in X. lia. }
    destruct HD as (_ & _ & Y & Z). rewrite A', <- A in Y. simpl in Y.
    apply ReadOutcome_again with (b' := b2); [congruence|].
    apply IH; [auto|simpl in Hf; lia].
  - destruct HR as (A & _). congruence.
  - (* a subnegotiation *)
    destruct HR as (A & D). rewrite Hp in A. injection A as <- A.
    rewrite eqb_refl. peek_one b0.
    2:{ destruct HP as (A' & _). congruence. }
    destruct HP as (A' & D' & (l & Hl) & _).
    rewrite <- A in Hl. injection Hl as <- <-.
    change (isVerb SB) with false. change (Byte.eqb SB IAC) with false.
    cbn iota. rewrite eqb_refl.
    assert (HSB : sbPayload (SB :: body)) by (constructor; [discriminate|exact Hb]).
    destruct (skipSubnegotiation_payload (SB :: body) HSB fuel b1 w) as (b2 & E & P2 & S2).
    { rewrite A', <- A. reflexivity. }
    { rewrite A', <- A. simpl in Hf |- *. lia. }
    rewrite E.
    apply ReadOutcome_again with (b' := b2); [congruence|].
    apply IH; [auto|].
    simpl in Hf. rewrite length_app in Hf. simpl in Hf. lia.
  - destruct HR as (A & _). congruence.
Qed.

Lemma readAll_decodes : forall fuel d r cap,
  decodes (pending (buffered r)) d -> 0 < cap -> length d < fuel ->
  exists r',
    readAll fuel cap r = Some ((d, srcErr (buffered r)), r') /\
    pending (buffered r') = [].
Proof.
  induction fuel as [|fuel IH]; intros d r cap Hd Hc Hf; [lia|].
  cbn [readAll]. unfold Read.
  destruct (Read_loop_decodes _ _ Hd (S (length (pending (buffered r))))
              (buffered r) cap [] eq_refl)
    as (d1 & d2 & e & b' & E & S' & D & W & C); [lia|].
  rewrite E. simpl app. destruct C as [[-> C] | (-> & _ & -> & -> & P)].
  - destruct C as [C | C]; [lia|]. simpl in C.
    destruct (IH d2 {| buffered := b' |} cap W Hc) as (r' & E' & P').
    { subst d. rewrite length_app in Hf. lia. }
    rewrite E'. exists r'. simpl in *. subst d. rewrite S'. auto.
  - subst d. eexists. split; [reflexivity|exact P].
Qed.

Lemma decodes_escape : forall data, decodes (escape data) data.
Proof.
  induction data as [|c data IH]; simpl; [constructor|].
  destruct (Byte.eqb c IAC) eqn:E.
  - apply eqb_eq in E as ->. now constructor.
  - apply eqb_false_neq in E. now constructor.
Qed.

Lemma decodes_plain_prefix : forall prefix w d,
  Forall (fun c => c <> IAC) prefix -> decodes w d ->
  decodes (prefix ++ w) (prefix ++ d).
Proof.
  induction 1 as [|c prefix Hc Hp IH]; intros Hd; simpl; [exact Hd|].
  constructor; auto.
Qed.

(** C1 (writer.go Write, reader.go Read), for data that does not trip the
    command test at the head of Write.  Whatever bytes [B] a successful Write
    put on the wire, reading that wire to its end, with any slice length and
    however the transport cuts it into chunks, gives back [B] and then the
    transport's end-of-stream error. *)
Theorem Write_Read_roundtrip (B : list byte) (HB : isCommand B = false)
  (beh : nat -> list byte -> response) (fuel : nat) (n : Z) (w' : writer)
  (HW : Write fuel (newWriter (freshWriter beh)) B = Some ((n, None), w'))
  (chunks : list (list byte)) (e : error) (cap k : nat)
  (Hchunks : concat chunks = sent (w_writer w'))
  (Hcap : 0 < cap) (Hk : length B < k) :
  exists r',
    readAll k cap (newReader chunks e) = Some ((B, e), r') /\
    pending (buffered r') = [].
Proof.
  unfold Write in HW. rewrite HB in HW.
  destruct (Write_loop fuel (w_writer (newWriter (freshWriter beh))) B [] 0)
    as [[[n1 e1] w1]|] eqn:L; [|discriminate].
  simpl in HW. injection HW as -> -> <-.
  apply Write_loop_ok in L as (S1 & _ & _). simpl in S1, Hchunks.
  apply (readAll_decodes k B (newReader chunks e) cap); auto.
  unfold pending. simpl. rewrite Hchunks, S1. apply decodes_escape.
Qed.

Lemma Write_Read_roundtrip_witness :
  exists r',
    readAll 4 2 (newReader [[x01; IAC]; [IAC; x02]] EOF)
    = Some (([x01; IAC; x02], EOF), r') /\
    pending (buffered r') = [].
Proof.
  apply (Write_Read_roundtrip [x01; IAC; x02] eq_refl acceptAll 1 3
           {| w_writer := {| sent := [x01; IAC; IAC; x02];
                             behave := acceptAll; calls := 3 |} |}
           eq_refl [[x01; IAC]; [IAC; x02]] EOF 2 4);
    [reflexivity | lia | simpl; lia].
Defined.

(** Six bytes of data that begin with four 255s do not come back: the wire
    carries the last two only. *)
Lemma roundtrip_loses_signature_data :
  let B := [IAC; IAC; IAC; IAC; x01; x02] in
  exists w' r',
    Write 4 (newWriter (freshWriter acceptAll)) B = Some ((2%Z, None), w') /\
    readAll 8 4 (newReader [sent (w_writer w')] EOF)
    = Some (([x01; x02], EOF), r') /\
    [x01; x02] <> B.
Proof.
  do 2 eexists. split; [reflexivity|]. split; [reflexivity|discriminate].
Qed.

(** C4 (reader.go, Read, case SB).  For plain prefix and suffix data and a
    payload in which every 255 is doubled: the scan that starts at SB takes
    the whole run up to and with the closing 255 SE and stops at the byte
    after it, a doubled 255 in the payload does not end it; and reading the
    stream to its end gives the prefix data followed by the suffix data and
    nothing for the bracketed run, however the stream is cut into chunks. *)
Theorem Read_strips_subnegotiation (prefix payload suffix : list byte)
  (Hprefix : Forall (fun c => c <> IAC) prefix)
  (Hsuffix : Forall (fun c => c <> IAC) suffix)
  (Hpayload : sbPayload payload) :
  (forall b fuel rest,
     pending b = SB :: payload ++ IAC :: SE :: rest ->
     length (pending b) < fuel ->
     exists b', skipSubnegotiation fuel b = Some (None, b') /\ pending b' = rest) /\
  (forall chunks e cap fuel,
     concat chunks = prefix ++ IAC :: SB :: payload ++ IAC :: SE :: suffix ->
     0 < cap -> length (prefix ++ suffix) < fuel ->
     exists r',
       readAll fuel cap (newReader chunks e) = Some ((prefix ++ suffix, e), r') /\
       pending (buffered r') = []).
Proof.
  split.
  - intros b fuel rest Hp Hf.
    assert (HSB : sbPayload (SB :: payload)) by (constructor; [discriminate|auto]).
    destruct (skipSubnegotiation_payload _ HSB fuel b rest Hp Hf) as (b' & E & P & _).
    exists b'. auto.
  - intros chunks e cap fuel Hw Hc Hf.
    apply (readAll_decodes fuel (prefix ++ suffix) (newReader chunks e) cap); auto.
    unfold pending. simpl. rewrite Hw.
    apply decodes_plain_prefix; [exact Hprefix|].
    apply decodes_subneg; [exact Hpayload|].
    rewrite <- (app_nil_r suffix) at 1. rewrite <- (app_nil_r suffix) at 2.
    apply decodes_plain_prefix; [exact Hsuffix|constructor].
Qed.

Lemma Read_strips_subnegotiation_witness :
  exists r',
    readAll 3 8 (newReader [[x41; IAC; SB; x18; IAC]; [IAC; x01; IAC; SE; x42]] EOF)
    = Some (([x41; x42], EOF), r') /\
    pending (buffered r') = [].
Proof.
  apply (proj2 (Read_strips_subnegotiation [x41] [x18; IAC; IAC; x01] [x42]
                  ltac:(repeat constructor; discriminate)
                  ltac:(repeat constructor; discriminate)
                  ltac:(repeat constructor; discriminate))
               [[x41; IAC; SB; x18; IAC]; [IAC; x01; IAC; SE; x42]] EOF 8 3);
    [reflexivity | lia | simpl; lia].
Defined.

(** ** [ReadLine] *)

Lemma ReadLine_loop_spec {R : Type} `{Reader R} : forall fuel (r : R) line res r',
  ReadLine_loop fuel r line = Some (res, r') ->
  match res with
  | Ok lineBytes =>
    exists acc, lineBytes = line ++ acc ++ [NL] /\ ~ In NL acc /\
                Reads r (acc ++ [NL]) r'
  | Err e =>
    exists acc r1, ~ In NL acc /\ Reads r acc r1 /\
                   io_Read r1 1 = (([], Some e), r')
  end.
Proof.
  induction fuel as [|fuel IH]; intros r line res r' E; [discriminate|].
  cbn [ReadLine_loop] in E.
  destruct (io_Read r 1) as [[p err] r1] eqn:Rd.
  destruct p as [|c p].
  - destruct err as [e|].
    + injection E as <- <-. exists [], r. repeat split; auto. constructor.
    + apply IH in E. destruct res as [lineBytes|e].
      * destruct E as (acc & L & N & T). exists acc. repeat split; auto.
        eapply Reads_idle; eauto.
      * destruct E as (acc & r2 & N & T & F). exists acc, r2. repeat split; auto.
        eapply Reads_idle; eauto.
  - destruct (Byte.eqb c NL) eqn:C.
    + apply eqb_eq in C as ->. injection E as <- <-.
      exists []. repeat split; auto. simpl.
      eapply Reads_byte; [exact Rd|constructor].
    + apply eqb_false_neq in C. apply IH in E. destruct res as [lineBytes|e].
      * destruct E as (acc & L & N & T). exists (c :: acc).
        split; [rewrite L; now rewrite <- app_assoc|].
        split; [intros [X | X]; [now apply C|now apply N]|].
        simpl. eapply Reads_byte; eauto.
      * destruct E as (acc & r2 & N & T & F). exists (c :: acc), r2.
        split; [intros [X | X]; [now apply C|now apply N]|].
        split; [eapply Reads_byte; eauto|exact F].
Qed.

Lemma ReadLine_loop_returns : forall fuel (r : reader) line,
  length (pending (buffered r)) < fuel -> ReadLine_loop fuel r line <> None.
Proof.
  induction fuel as [|fuel IH]; intros r line L; [lia|].
  cbn [ReadLine_loop]. unfold io_Read, reader_Reader.
  destruct (Read_spec r 1) as (d & e & b' & E & _ & _ & C & P & N & _).
  rewrite E. destruct d as [|c d].
  - destruct e as [x|]; [discriminate|].
    destruct (N eq_refl) as [X | X]; [discriminate|simpl in X; lia].
  - destruct (Byte.eqb c NL); [discriminate|].
    apply IH. simpl in *. lia.
Qed.

Lemma trimCRLF_crlf l : trimCRLF (l ++ [CR; NL]) = l.
Proof.
  unfold trimCRLF. rewrite length_app. cbn [length].
  replace (length l + 2 - 2) with (length l) by lia.
  replace (length l + 2 - 1) with (length l + 1) by lia.
  replace (2 <=? length l + 2) with true by (symmetry; apply Nat.leb_le; lia).
  rewrite !app_nth2 by lia.
  replace (length l - length l) with 0 by lia.
  replace (length l + 1 - length l) with 1 by lia.
  cbn [nth]. rewrite !eqb_refl. cbn [andb].
  now rewrite firstn_app, firstn_all, Nat.sub_diag, firstn_O, app_nil_r.
Qed.

Lemma last_cases {A : Type} (l : list A) :
  l = [] \/ exists l' x, l = l' ++ [x].
Proof.
  induction l as [|x l _] using rev_ind; [now left|right; eauto].
Qed.

Lemma trimCRLF_bare acc :
  (forall l, acc <> l ++ [CR]) -> trimCRLF (acc ++ [NL]) = acc ++ [NL].
Proof.
  intros Hno. unfold trimCRLF. rewrite length_app. cbn [length].
  destruct (last_cases acc) as [-> | (l & x & ->)].
  - reflexivity.
  - assert (x <> CR) by (intros ->; now apply (Hno l)).
    rewrite length_app. cbn [length].
    replace (length l + 1 + 1 - 2) with (length l) by lia.
    rewrite <- app_assoc. rewrite app_nth2 by lia.
    rewrite Nat.sub_diag. cbn [app nth]. rewrite (eqb_neq _ _ H).
    now rewrite andb_false_r.
Qed.

(** C6 (reader.go, ReadLine).  On every stream ReadLine returns.  Either it
    returns a nil error, the one-byte reads have stored bytes up to the first
    line feed, and the string is those bytes without a closing CR LF pair,
    or all of them, line feed included, when no CR comes before the line
    feed; or a read stored nothing and reported an error before any line
    feed, and ReadLine returns that error and the empty string. *)
Theorem ReadLine_line_or_error (r : reader) (fuel : nat)
  (Hfuel : length (pending (buffered r)) < fuel) :
  exists line err r',
    ReadLine fuel r = Some ((line, err), r') /\
    ((err = None /\
      exists acc,
        ~ In NL acc /\ Reads r (acc ++ [NL]) r' /\
        ((exists l, acc = l ++ [CR] /\ line = l) \/
         ((forall l, acc <> l ++ [CR]) /\ line = acc ++ [NL]))) \/
     (exists e acc r1,
        err = Some e /\ line = [] /\ ~ In NL acc /\ Reads r acc r1 /\
        Read r1 1 = (([], Some e), r'))).
Proof.
  unfold ReadLine.
  destruct (ReadLine_loop fuel r []) as [[res r']|] eqn:E.
  2:{ exfalso. revert E. now apply ReadLine_loop_returns. }
  apply ReadLine_loop_spec in E. destruct res as [lineBytes|e].
  - destruct E as (acc & L & N & T). simpl in L. subst lineBytes.
    exists (trimCRLF (acc ++ [NL])), None, r'. split; [reflexivity|].
    left. split; [reflexivity|]. exists acc. split; [exact N|]. split; [exact T|].
    destruct (last_cases acc) as [-> | (l & x & ->)].
    + right. split; [|reflexivity]. intros l X. now destruct l.
    + destruct (Byte.byte_eq_dec x CR) as [-> | Hx].
      * left. exists l. split; [reflexivity|].
        rewrite <- app_assoc. apply trimCRLF_crlf.
      * right. split.
        -- intros l' X. apply app_inj_tail in X as [_ X]. contradiction.
        -- apply trimCRLF_bare. intros l' X.
           apply app_inj_tail in X as [_ X]. contradiction.
  - destruct E as (acc & r1 & N & T & F).
    exists [], (Some e), r'. split; [reflexivity|].
    right. exists e, acc, r1. auto.
Qed.

Lemma ReadLine_line_or_error_witness :
  exists line err r',
    ReadLine 9 (newReader [[x6c; x73; CR]; [NL; x70; x77]] EOF) = Some ((line, err), r') /\
    ((err = None /\
      exists acc,
        ~ In NL acc /\
        Reads (newReader [[x6c; x73; CR]; [NL; x70; x77]] EOF) (acc ++ [NL]) r' /\
        ((exists l, acc = l ++ [CR] /\ line = l) \/
         ((forall l, acc <> l ++ [CR]) /\ line = acc ++ [NL]))) \/
     (exists e acc r1,
        err = Some e /\ line = [] /\ ~ In NL acc /\
        Reads (newReader [[x6c; x73; CR]; [NL; x70; x77]] EOF) acc r1 /\
        Read r1 1 = (([], Some e), r'))).
Proof.
  apply (ReadLine_line_or_error (newReader [[x6c; x73; CR]; [NL; x70; x77]] EOF) 9).
  simpl. lia.
Defined.

Example ReadLine_crlf :
  option_map fst (ReadLine 9 (newReader [[x6c; x73; CR]; [NL; x70; x77]] EOF))
  = Some ([x6c; x73], None).
Proof. reflexivity. Qed.

Example ReadLine_bare_lf :
  option_map fst (ReadLine 9 (newReader [[x6c; x73; NL; x70]] EOF))
  = Some ([x6c; x73; NL], None).
Proof. reflexivity. Qed.

Example ReadLine_no_lf :
  option_map fst (ReadLine 9 (newReader [[x6c; x73]] EOF))
  = Some ([], Some EOF).
Proof. reflexivity. Qed.

(** ** [RequestWindowSize] *)

Lemma ReadByte_cons b c l :
  pending b = c :: l ->
  exists b', ReadByte b = (Ok c, b') /\ pending b' = l /\ srcErr b' = srcErr b.
Proof.
  intros Hp. read_byte b.
  - destruct HR as (A & D). rewrite Hp in A. injection A as A1 A2.
    exists b0. subst. auto.
  - destruct HR as (A & _). congruence.
Qed.

Lemma Peek1_cons b c l :
  pending b = c :: l ->
  exists b', Peek1 b = (Ok c, b') /\ pending b' = c :: l /\ srcErr b' = srcErr b.
Proof.
  intros Hp. peek_one b.
  - destruct HP as (A & D & (l' & Hl) & _). rewrite Hp in Hl.
    injection Hl as A1 A2. exists b0. subst. repeat split; auto. congruence.
  - destruct HP as (A & _). congruence.
Qed.

Lemma ReadFull_loop_app : forall k b got l rest,
  length l = k -> pending b = l ++ rest ->
  exists b', ReadFull_loop k b got = (Ok (got ++ l), b') /\ pending b' = rest.
Proof.
  induction k as [|k IH]; intros b got l rest Hl Hp.
  - destruct l; [|discriminate]. exists b. simpl. now rewrite app_nil_r.
  - destruct l as [|c l]; [discriminate|]. injection Hl as Hl.
    destruct (ReadByte_cons b c (l ++ rest) Hp) as (b1 & E & P1 & _).
    cbn [ReadFull_loop]. rewrite E.
    destruct (IH b1 (got ++ [c]) l rest Hl P1) as (b' & E' & P').
    exists b'. rewrite E', <- app_assoc. auto.
Qed.

Lemma ReadFull_app k b l rest :
  length l = k -> pending b = l ++ rest ->
  exists b', ReadFull k b = (Ok l, b') /\ pending b' = rest.
Proof.
  intros Hl Hp. exact (ReadFull_loop_app k b [] l rest Hl Hp).
Qed.

Lemma Read_plain_first r c rest cap :
  pending (buffered r) = c :: rest -> c <> IAC -> 0 < cap ->
  exists d e r', Read r cap = ((c :: d, e), r').
Proof.
  intros Hp Hc Hcap. unfold Read. destruct cap as [|cap]; [lia|].
  cbn [Read_loop length Nat.ltb Nat.leb andb].
  destruct (ReadByte_cons _ _ _ Hp) as (b1 & E & P1 & _). rewrite E.
  rewrite (eqb_neq _ _ Hc).
  destruct (Read_loop_total (length (pending (buffered r))) b1 cap ([] ++ [c]))
    as (d1 & e & b' & E' & _).
  { rewrite Hp, P1. simpl. lia. }
  rewrite E'. simpl. eauto.
Qed.

Lemma Session_Write_keeps fuel s data res s' :
  Session_Write fuel s data = Some (res, s') ->
  s_reader s' = s_reader s /\ termCols s' = termCols s /\
  termRows s' = termRows s /\ isPTY s' = isPTY s.
Proof.
  unfold Session_Write.
  destruct (Write fuel (s_writer s) _) as [[[n e] w']|]; [|discriminate].
  intros [= <- <-]. simpl. auto.
Qed.

Lemma be16_value hi lo :
  be16 hi lo = (256 * Z.of_N (Byte.to_N hi) + Z.of_N (Byte.to_N lo))%Z.
Proof.
  unfold be16.
  pose proof (Byte.to_N_bounded lo) as Hlo.
  set (h := Z.of_N (Byte.to_N hi)). set (l := Z.of_N (Byte.to_N lo)).
  assert (Hl : (0 <= l < 2 ^ 8)%Z) by (subst l; lia).
  assert (Hland : Z.land (Z.shiftl h 8) l = 0%Z).
  { apply Z.bits_inj'. intros n Hn. rewrite Z.land_spec, Z.bits_0.
    destruct (Z.lt_ge_cases n 8) as [Lt | Ge].
    - rewrite Z.shiftl_spec_low by exact Lt. reflexivity.
    - replace (Z.testbit l n) with false; [now rewrite andb_false_r|].
      symmetry. destruct (Z.eq_dec l 0) as [-> | Nz]; [apply Z.bits_0|].
      apply Z.bits_above_log2; [lia|].
      apply Z.lt_le_trans with 8%Z; [apply Z.log2_lt_pow2; lia|exact Ge]. }
  rewrite <- Z.lxor_lor by exact Hland.
  rewrite <- Z.add_nocarry_lxor by exact Hland.
  rewrite Z.shiftl_mul_pow2 by lia. lia.
Qed.

Lemma skipUnrelated_sbOther : forall body, sbOther body ->
  forall fuel b rest,
    pending b = body ++ rest -> length (pending b) < fuel ->
    exists b', skipUnrelated fuel b = Some (None, b') /\ pending b' = rest.
Proof.
  induction 1 as [|c l Hc Hl IH|c l Hc Hl IH]; intros fuel b rest Hp Hf;
    (destruct fuel as [|fuel]; [lia|]); cbn [skipUnrelated];
    simpl in Hp; destruct (ReadByte_cons _ _ _ Hp) as (b1 & -> & P1 & _).
  - rewrite eqb_refl.
    destruct (ReadByte_cons _ _ _ P1) as (b2 & -> & P2 & _).
    rewrite eqb_refl. exists b2. auto.
  - rewrite (eqb_neq _ _ Hc). apply IH; [exact P1|].
    rewrite Hp in Hf. rewrite P1. simpl in Hf. lia.
  - rewrite eqb_refl.
    destruct (ReadByte_cons _ _ _ P1) as (b2 & -> & P2 & _).
    rewrite (eqb_neq _ _ Hc). apply IH; [exact P2|].
    rewrite Hp in Hf. rewrite P2. simpl in Hf. lia.
Qed.

Section WindowSize.

Variable NAWS : byte.
Variable timeout : nat -> bool.

Lemma nawsWait_plain fuel i s c rest :
  0 < fuel -> pending (buffered (s_reader s)) = c :: rest -> c <> IAC ->
  exists s',
    nawsWait NAWS timeout fuel i s = Some (None, s') /\
    pending (buffered (s_reader s')) = c :: rest /\
    GetWindowSize s' = GetWindowSize s /\ s_writer s' = s_writer s.
Proof.
  intros Hf Hp Hc. destruct fuel as [|fuel]; [lia|]. cbn [nawsWait].
  destruct (timeout i); [exists s; auto|].
  destruct (Peek1_cons _ _ _ Hp) as (b0 & -> & P0 & _).
  rewrite (eqb_neq _ _ Hc). exists (withBuffered s b0). auto.
Qed.

Hypothesis never : forall i, timeout i = false.

Lemma nawsWait_window : forall pre, passedOver NAWS pre ->
  forall fuel i s whi wlo hhi hlo rest,
    pending (buffered (s_reader s))
    = pre ++ [IAC; SB; NAWS; whi; wlo; hhi; hlo; IAC; SE] ++ rest ->
    length (pending (buffered (s_reader s))) < fuel ->
    exists s',
      nawsWait NAWS timeout fuel i s = Some (None, s') /\
      pending (buffered (s_reader s')) = rest /\
      termCols s' = be16 whi wlo /\ termRows s' = be16 hhi hlo /\
      s_writer s' = s_writer s /\ isPTY s' = isPTY s.
Proof.
  induction 1 as [|o l Hl IH|o l Ho Hl IH|o body l Ho Hb Hl IH|c l H1 H3 Hl IH];
    intros fuel i s whi wlo hhi hlo rest Hp Hf;
    (destruct fuel as [|fuel]; [lia|]); cbn [nawsWait]; rewrite never;
    simpl in Hp; rewrite Hp in Hf; simpl in Hf;
    destruct (Peek1_cons _ _ _ Hp) as (b0 & -> & P0 & _); rewrite eqb_refl;
    destruct (ReadByte_cons _ _ _ P0) as (b1 & -> & P1 & _);
    destruct (ReadByte_cons _ _ _ P1) as (b2 & -> & P2 & _).
  - change (Byte.eqb SB WILL || Byte.eqb SB WONT) with false. cbn iota.
    rewrite eqb_refl.
    destruct (ReadByte_cons _ _ _ P2) as (b3 & -> & P3 & _).
    rewrite eqb_refl.
    destruct (ReadFull_app 4 b3 [whi; wlo; hhi; hlo] ([IAC; SE] ++ rest) eq_refl P3)
      as (b4 & -> & P4).
    destruct (ReadFull_app 2 b4 [IAC; SE] rest eq_refl P4) as (b5 & -> & P5).
    cbn [nth]. rewrite !eqb_refl. cbn [negb orb].
    eexists. split; [reflexivity|]. simpl. auto.
  - rewrite eqb_refl. cbn [orb].
    destruct (ReadByte_cons _ _ _ P2) as (b3 & -> & P3 & _).
    change (Byte.eqb WILL WONT) with false. rewrite andb_false_r.
    destruct (IH fuel (S i) (withBuffered s b3) whi wlo hhi hlo rest P3)
      as (s' & E & R); [simpl; rewrite P3; lia|].
    exists s'. auto.
  - change (Byte.eqb WONT WILL) with false. rewrite eqb_refl. cbn [orb].
    destruct (ReadByte_cons _ _ _ P2) as (b3 & -> & P3 & _).
    rewrite (eqb_neq _ _ Ho). cbn [andb].
    destruct (IH fuel (S i) (withBuffered s b3) whi wlo hhi hlo rest P3)
      as (s' & E & R); [simpl; rewrite P3; lia|].
    exists s'. auto.
  - change (Byte.eqb SB WILL || Byte.eqb SB WONT) with false. cbn iota.
    rewrite eqb_refl.
    destruct (ReadByte_cons _ _ _ P2) as (b3 & -> & P3 & _).
    rewrite (eqb_neq _ _ Ho). rewrite <- app_assoc in P3.
    rewrite !length_app in Hf. cbn [length] in Hf.
    destruct (skipUnrelated_sbOther body Hb fuel b3 _ P3) as (b4 & -> & P4).
    { rewrite P3, !length_app. cbn [length]. lia. }
    destruct (IH fuel (S i) (withBuffered s b4) whi wlo hhi hlo rest P4)
      as (s' & E & R);
      [simpl; rewrite P4, !length_app; cbn [length]; lia|].
    exists s'. auto.
  - unfold isVerb in H1. apply orb_false_elim in H1 as [H1 _].
  apply orb_false_elim in H1 as [H1 _]. apply orb_false_elim in H1 as [H1 H2].
  rewrite H1, H2, (eqb_neq _ _ H3). cbn [orb].
    destruct (IH fuel (S i) (withBuffered s b2) whi wlo hhi hlo rest P2)
      as (s' & E & R); [simpl; rewrite P2; lia|].
    exists s'. auto.
Qed.

End WindowSize.

Lemma passedOver_app NAWS : forall pre mid,
  passedOver NAWS pre -> passedOver NAWS mid -> passedOver NAWS (pre ++ mid).
Proof.
  induction 1; intros Hm; simpl; try (constructor; auto; fail); auto.
  rewrite <- app_assoc. constructor; auto.
Qed.

Lemma Session_Read_plain_first s c rest cap :
  pending (buffered (s_reader s)) = c :: rest -> c <> IAC -> 0 < cap ->
  exists d e s', Session_Read s cap = ((c :: d, e), s').
Proof.
  intros Hp Hc Hcap. unfold Session_Read.
  destruct (Read_plain_first _ _ _ _ Hp Hc Hcap) as (d & e & r' & ->).
  eauto.
Qed.

(** C10 (Session.RequestWindowSize, the else branch of [peeked[0] == IAC]).
    When the next wire byte is not 255, the waiting loop, at whichever turn
    and whether or not the timer has fired, returns nil at once: the window
    size is as it was, the byte has not been consumed, and the next Read on
    the Session stores it first.  So does RequestWindowSize when that byte is
    the first one after DO NAWS was sent. *)
Theorem RequestWindowSize_leaves_plain_byte (NAWS : byte) (timeout : nat -> bool)
  (c : byte) (rest : list byte) (Hc : c <> IAC) :
  (forall fuel i s,
     0 < fuel -> pending (buffered (s_reader s)) = c :: rest ->
     exists s',
       nawsWait NAWS timeout fuel i s = Some (None, s') /\
       GetWindowSize s' = GetWindowSize s /\
       pending (buffered (s_reader s')) = c :: rest /\
       (forall cap, 0 < cap ->
          exists d e s'', Session_Read s' cap = ((c :: d, e), s''))) /\
  (forall fuel s n s1,
     0 < fuel ->
     Session_WriteCommand fuel s IAC DO NAWS = Some ((n, None), s1) ->
     pending (buffered (s_reader s)) = c :: rest ->
     exists s',
       RequestWindowSize NAWS timeout fuel s = Some (None, s') /\
       GetWindowSize s' = GetWindowSize s /\
       pending (buffered (s_reader s')) = c :: rest /\
       (forall cap, 0 < cap ->
          exists d e s'', Session_Read s' cap = ((c :: d, e), s''))).
Proof.
  assert (Loop : forall fuel i s,
     0 < fuel -> pending (buffered (s_reader s)) = c :: rest ->
     exists s',
       nawsWait NAWS timeout fuel i s = Some (None, s') /\
       GetWindowSize s' = GetWindowSize s /\
       pending (buffered (s_reader s')) = c :: rest /\
       (forall cap, 0 < cap ->
          exists d e s'', Session_Read s' cap = ((c :: d, e), s''))).
  { intros fuel i s Hf Hp.
    destruct (nawsWait_plain NAWS timeout fuel i s c rest Hf Hp Hc)
      as (s' & E & P & G & _).
    exists s'. repeat split; auto.
    intros cap Hcap. now apply Session_Read_plain_first with (rest := rest). }
  split; [exact Loop|].
  intros fuel s n s1 Hf Hsend Hp. unfold RequestWindowSize. rewrite Hsend.
  apply Session_Write_keeps in Hsend as (R & C & W & _).
  destruct (Loop fuel 0 s1 Hf) as (s' & E & G & P & Nx); [now rewrite R|].
  exists s'. repeat split; auto.
  rewrite G. unfold GetWindowSize. now rewrite C, W.
Qed.

Lemma RequestWindowSize_leaves_plain_byte_witness :
  exists s',
    RequestWindowSize x1f (fun _ => false) 4 (demoSession true [[x6c; x73; NL]])
    = Some (None, s') /\
    GetWindowSize s' = (0%Z, 0%Z) /\
    pending (buffered (s_reader s')) = [x6c; x73; NL] /\
    (forall cap, 0 < cap ->
       exists d e s'', Session_Read s' cap = ((x6c :: d, e), s'')).
Proof.
  eapply (proj2 (RequestWindowSize_leaves_plain_byte x1f (fun _ => false)
                   x6c [x73; NL] ltac:(discriminate))
                4 (demoSession true [[x6c; x73; NL]]));
    [lia | reflexivity | reflexivity].
Defined.

(** C7 (Session.RequestWindowSize, case SB with [opt == NAWS]), as the code
    has it.  Once DO NAWS is sent and while the timer has not fired: if the
    peer's bytes are 255 WILL NAWS and, after it, 255 SB NAWS w-hi w-lo h-hi
    h-lo 255 SE, with nothing before or between them but what the waiting loop
    passes over (WILL or WONT with an option, WONT NAWS apart; a whole
    subnegotiation of another option; a two-byte command), then
    RequestWindowSize returns nil and the Session holds
    width = 256*w-hi + w-lo and height = 256*h-hi + h-lo; the bytes after the
    closing 255 SE are left unread. *)
Theorem RequestWindowSize_stores_size (NAWS : byte) (timeout : nat -> bool)
  (Htimer : forall i, timeout i = false)
  (s : Session) (fuel : nat) (n : Z) (s1 : Session)
  (Hsend : Session_WriteCommand fuel s IAC DO NAWS = Some ((n, None), s1))
  (pre mid : list byte) (whi wlo hhi hlo : byte) (rest : list byte)
  (Hpre : passedOver NAWS pre) (Hmid : passedOver NAWS mid)
  (Hwire : pending (buffered (s_reader s))
           = pre ++ [IAC; WILL; NAWS] ++ mid
                 ++ [IAC; SB; NAWS; whi; wlo; hhi; hlo; IAC; SE] ++ rest)
  (Hfuel : length (pending (buffered (s_reader s))) < fuel) :
  exists s',
    RequestWindowSize NAWS timeout fuel s = Some (None, s') /\
    GetWindowSize s'
    = ((256 * Z.of_N (Byte.to_N whi) + Z.of_N (Byte.to_N wlo))%Z,
       (256 * Z.of_N (Byte.to_N hhi) + Z.of_N (Byte.to_N hlo))%Z) /\
    pending (buffered (s_reader s')) = rest.
Proof.
  unfold RequestWindowSize. rewrite Hsend.
  apply Session_Write_keeps in Hsend as (R & _).
  assert (Hall : passedOver NAWS (pre ++ [IAC; WILL; NAWS] ++ mid)).
  { apply passedOver_app; [exact Hpre|]. simpl. now constructor. }
  destruct (nawsWait_window NAWS timeout Htimer _ Hall fuel 0 s1 whi wlo hhi hlo rest)
    as (s' & E & P & C & W & _).
  { rewrite R, Hwire. now rewrite <- !app_assoc. }
  { now rewrite R. }
  exists s'. split; [exact E|]. split; [|exact P].
  unfold GetWindowSize. now rewrite C, W, !be16_value.
Qed.

Lemma RequestWindowSize_stores_size_witness :
  exists s',
    RequestWindowSize x1f (fun _ => false) 13
      (demoSession true [[IAC; WILL; x1f];
                         [IAC; SB; x1f; x00; x50; x00; x18; IAC; SE]])
    = Some (None, s') /\
    GetWindowSize s' = (80%Z, 24%Z) /\
    pending (buffered (s_reader s')) = [].
Proof.
  eapply (RequestWindowSize_stores_size x1f (fun _ => false) (fun _ => eq_refl)
            (demoSession true [[IAC; WILL; x1f];
                               [IAC; SB; x1f; x00; x50; x00; x18; IAC; SE]])
            13 _ _ _ [] [] x00 x50 x00 x18 []).
  - constructor.
  - constructor.
  - reflexivity.
  - simpl. lia.
  Unshelve. all: try reflexivity.
Defined.

(** A plain byte between the two: RequestWindowSize returns nil, the window
    size stays (0, 0), and the subnegotiation is left unread. *)
Lemma RequestWindowSize_data_between :
  exists s',
    RequestWindowSize x1f (fun _ => false) 20
      (demoSession false [[IAC; WILL; x1f; x41;
                           IAC; SB; x1f; x00; x50; x00; x18; IAC; SE]])
    = Some (None, s') /\
    GetWindowSize s' = (0%Z, 0%Z) /\
    GetWindowSize s' <> (80%Z, 24%Z) /\
    pending (buffered (s_reader s'))
    = [x41; IAC; SB; x1f; x00; x50; x00; x18; IAC; SE].
Proof.
  eexists. split; [reflexivity|]. split; [reflexivity|].
  split; [discriminate|reflexivity].
Qed.

(** With 255 DO SGA between the two, the loop takes 255 DO as a pair and
    returns at the option byte. *)
Example RequestWindowSize_DO_between :
  exists s',
    RequestWindowSize x1f (fun _ => false) 20
      (demoSession false [[IAC; WILL; x1f; IAC; DO; SGA;
                           IAC; SB; x1f; x00; x50; x00; x18; IAC; SE]])
    = Some (None, s') /\
    GetWindowSize s' = (0%Z, 0%Z) /\
    pending (buffered (s_reader s'))
    = [SGA; IAC; SB; x1f; x00; x50; x00; x18; IAC; SE].
Proof.
  eexists. split; [reflexivity|]. split; reflexivity.
Qed.

(* ================================================================== *)
(** * Further properties of the reader *)

(** X1 (reader.go, Read).  For every stream and every slice length, Read
    stores no more bytes than the slice holds and takes at least as many
    bytes off the stream as it stores; with a nil error and a non-empty slice
    it has stored at least one byte; an error is the transport's own or
    "corrupted"; and with an empty slice it returns (0, nil) and leaves the
    stream alone. *)
Theorem Read_contract (r : reader) (cap : nat) :
  exists d e r',
    Read r cap = ((d, e), r') /\
    length d <= cap /\
    length (pending (buffered r')) + length d <= length (pending (buffered r)) /\
    (e = None -> 0 < cap -> 0 < length d) /\
    (forall x, e = Some x -> x = srcErr (buffered r) \/ x = ErrCorrupted) /\
    (cap = 0 -> d = [] /\ e = None /\ r' = r).
Proof.
  destruct (Read_spec r cap) as (d & e & b' & E & L & S & C & P & N & X).
  exists d, e, {| buffered := b' |}. split; [exact E|]. split; [exact C|].
  split; [exact P|]. split; [|split; [exact X|]].
  - intros He Hc. destruct (N He) as [Z | Z]; [lia|exact Z].
  - intros ->. destruct r as [b]. simpl in L. injection L as <- <- <-. auto.
Qed.

(** X2 (reader.go, Read).  A stream made of whole protocol items (plain bytes,
    doubled 255s, 255 WILL/WONT/DO/DONT with an option byte, 255 SE alone,
    subnegotiations closed by 255 SE) reads to its end as the data it
    carries, in order, with every negotiation item left out, whatever the
    slice length and the chunking; the last Read reports the transport's
    error. *)
Theorem readAll_wellformed (chunks : list (list byte)) (d : list byte)
  (e : error) (cap fuel : nat)
  (Hwire : decodes (concat chunks) d) (Hcap : 0 < cap) (Hfuel : length d < fuel) :
  exists r',
    readAll fuel cap (newReader chunks e) = Some ((d, e), r') /\
    pending (buffered r') = [].
Proof.
  apply (readAll_decodes fuel d (newReader chunks e) cap); auto.
Qed.

Lemma readAll_wellformed_witness :
  exists r',
    readAll 3 2 (newReader [[x41; IAC; DO]; [x18; x42; IAC]; [SE; IAC; WONT; x01]] EOF)
    = Some (([x41; x42], EOF), r') /\
    pending (buffered r') = [].
Proof.
  apply (readAll_wellformed
           [[x41; IAC; DO]; [x18; x42; IAC]; [SE; IAC; WONT; x01]] [x41; x42] EOF 2 3).
  - simpl. constructor; [discriminate|]. apply decodes_verb; [reflexivity|].
    constructor; [discriminate|]. apply decodes_orphanSE.
    apply decodes_verb; [reflexivity|]. constructor.
  - lia.
  - simpl. lia.
Defined.

Lemma Read_loop_plain_buf : forall l fuel chunks e cap out,
  Forall (fun c => c <> IAC) l -> length l <= fuel -> out <> [] ->
  Read_loop fuel {| buf := l; src := chunks; srcErr := e |} cap out
  = Some ((out ++ firstn cap l, None),
          {| buf := skipn cap l; src := chunks; srcErr := e |}).
Proof.
  induction l as [|x l IH]; intros fuel chunks e cap out Hl Hf Ho.
  - assert (Hlen : (0 <? length out) = true).
    { apply Nat.ltb_lt. destruct out; [congruence|simpl; lia]. }
    rewrite firstn_nil, skipn_nil, app_nil_r.
    destruct cap; destruct fuel; cbn [Read_loop Buffered buf length];
      try rewrite Hlen; reflexivity.
  - inversion Hl as [|? ? Hx Hl']; subst.
    destruct fuel as [|fuel]; [simpl in Hf; lia|].
    destruct cap as [|cap]; [cbn; now rewrite app_nil_r|].
    cbn [Read_loop Buffered buf length Nat.ltb Nat.leb]. rewrite andb_false_r.
    unfold ReadByte, fill. cbn [buf src srcErr].
    rewrite (eqb_neq _ _ Hx).
    rewrite IH; [|exact Hl'|simpl in Hf; lia|now destruct out].
    cbn [firstn skipn]. now rewrite <- app_assoc.
Qed.

(** X3 (reader.go, Read, the [n > 0 && Buffered() < 1] test).  When the
    transport has delivered a chunk of plain data that fits the buffer, Read
    returns the bytes of that chunk that fit the slice, with a nil error, and
    does not turn to the transport again for the chunks that follow. *)
Theorem Read_returns_first_chunk (c : list byte) (rest : list (list byte))
  (e : error) (cap : nat)
  (Hc : c <> []) (Hplain : Forall (fun x => x <> IAC) c)
  (Hfit : length c <= defaultBufSize) (Hcap : 0 < cap) :
  exists r',
    Read (newReader (c :: rest) e) cap = ((firstn cap c, None), r') /\
    buf (buffered r') = skipn cap c /\
    concat (src (buffered r')) = concat rest.
Proof.
  unfold Read, newReader. cbn [buffered].
  destruct cap as [|cap]; [lia|].
  destruct c as [|x c]; [congruence|].
  inversion Hplain as [|? ? Hx Hp]; subst.
  cbn [Read_loop length Nat.ltb Nat.leb andb].
  unfold ReadByte, fill. cbn [buf src srcErr nextChunk].
  rewrite firstn_all2 by exact Hfit. rewrite skipn_all2 by exact Hfit.
  cbn [buf src srcErr]. rewrite (eqb_neq _ _ Hx).
  rewrite Read_loop_plain_buf; [|exact Hp| |discriminate].
  - eexists. split; [reflexivity|]. split; reflexivity.
  - unfold pending. cbn [buf src]. simpl. rewrite length_app. lia.
Qed.

Lemma Read_returns_first_chunk_witness :
  exists r',
    Read (newReader [[x68; x69]; [x21; NL]] EOF) 8 = (([x68; x69], None), r') /\
    buf (buffered r') = [] /\
    concat (src (buffered r')) = [x21; NL].
Proof.
  apply (Read_returns_first_chunk [x68; x69] [[x21; NL]] EOF 8).
  - discriminate.
  - repeat constructor; discriminate.
  - unfold defaultBufSize. simpl. lia.
  - lia.
Defined.

Lemma skipSubnegotiation_unterminated : forall body, sbPayload body ->
  forall fuel b,
    pending b = body -> length (pending b) < fuel ->
    exists b', skipSubnegotiation fuel b = Some (Some (srcErr b), b') /\
               pending b' = [].
Proof.
  induction 1 as [|c l Hc Hl IH|l Hl IH]; intros fuel b Hp Hf;
    (destruct fuel as [|fuel]; [lia|]); cbn [skipSubnegotiation]; read_byte b.
  - destruct HR as (A & _). congruence.
  - destruct HR as (A & B & -> & D). exists b0. auto.
  - destruct HR as (A & D). rewrite Hp in A. injection A as <- A.
    rewrite (eqb_neq _ _ Hc).
    destruct (IH fuel b0 (eq_sym A)) as (b' & E & P).
    { rewrite Hp in Hf. rewrite <- A. simpl in Hf. lia. }
    exists b'. rewrite E, D. auto.
  - destruct HR as (A & _). congruence.
  - destruct HR as (A & D). rewrite Hp in A. injection A as <- A.
    rewrite eqb_refl. peek_one b0.
    2:{ destruct HP as (A' & _). congruence. }
    destruct HP as (A' & D' & (l' & Hl') & _).
    rewrite <- A in Hl'. injection Hl' as <- <-.
    rewrite eqb_refl. cbn [orb]. discard 1 b1.
    2:{ destruct HD as (X & _). rewrite A', <- A in X. simpl in X. lia. }
    destruct HD as (_ & _ & Y & Z). rewrite A', <- A in Y. simpl in Y.
    change (Byte.eqb IAC SE) with false. cbn iota.
    destruct (IH fuel b2 Y) as (b' & E & P).
    { rewrite Hp in Hf. rewrite Y. simpl in Hf. lia. }
    exists b'. rewrite E. split; [|exact P]. do 3 f_equal. congruence.
  - destruct HR as (A & _). congruence.
Qed.

(** X4 (reader.go, Read, case SB).  A subnegotiation that is never closed
    takes the rest of the stream with it: when 255 SB is followed, up to the
    end of the stream, by plain bytes and doubled 255s only, Read stores
    nothing, consumes all of it and returns the transport's end-of-stream
    error. *)
Theorem Read_unterminated_subnegotiation (r : reader) (body : list byte)
  (cap : nat)
  (Hwire : pending (buffered r) = IAC :: SB :: body)
  (Hbody : sbPayload body) (Hcap : 0 < cap) :
  exists r',
    Read r cap = (([], Some (srcErr (buffered r))), r') /\
    pending (buffered r') = [].
Proof.
  unfold Read. destruct cap as [|cap]; [lia|].
  cbn [Read_loop length Nat.ltb Nat.leb andb].
  destruct (ReadByte_cons _ _ _ Hwire) as (b1 & -> & P1 & S1).
  rewrite eqb_refl.
  destruct (Peek1_cons _ _ _ P1) as (b2 & -> & P2 & S2).
  change (isVerb SB) with false. change (Byte.eqb SB IAC) with false.
  cbn iota. rewrite eqb_refl.
  assert (HSB : sbPayload (SB :: body)) by (constructor; [discriminate|auto]).
  destruct (skipSubnegotiation_unterminated _ HSB (length (pending (buffered r))) b2 P2)
    as (b3 & -> & P3).
  { rewrite P2, Hwire. simpl. lia. }
  exists {| buffered := b3 |}. split; [|exact P3]. do 3 f_equal. congruence.
Qed.

Lemma Read_unterminated_subnegotiation_witness :
  exists r',
    Read (newReader [[IAC; SB; x18]; [x01; IAC; IAC; x41; x42]] EOF) 8
    = (([], Some EOF), r') /\
    pending (buffered r') = [].
Proof.
  apply (Read_unterminated_subnegotiation
           (newReader [[IAC; SB; x18]; [x01; IAC; IAC; x41; x42]] EOF)
           [x18; x01; IAC; IAC; x41; x42] 8).
  - reflexivity.
  - repeat constructor; discriminate.
  - lia.
Defined.

(* ================================================================== *)
(** * Further properties of the writer *)

Lemma isCommand_signature rest :
  2 <= length rest -> isCommand (commandSignature ++ rest) = true.
Proof.
  intros H. unfold isCommand. rewrite length_app.
  replace (5 <? length commandSignature + length rest) with true
    by (symmetry; apply Nat.ltb_lt; simpl; lia).
  reflexivity.
Qed.

(** X5 (writer.go, Write, the "workaround for commands").  Data of more than
    five bytes that begins with four 255s is not escaped: Write sends what
    follows the four bytes as it is, a first part of it when the transport
    fails, and the count it returns is that of the bytes sent, four short of
    len(data) on success. *)
Theorem Write_signature_raw (rest : list byte) (Hlen : 2 <= length rest)
  (fuel : nat) (w : writer) (n : Z) (e : option error) (w' : writer)
  (HW : Write fuel w (commandSignature ++ rest) = Some ((n, e), w')) :
  exists m,
    m <= length rest /\ n = Z.of_nat m /\
    sent (w_writer w') = sent (w_writer w) ++ firstn m rest /\
    (e = None -> m = length rest /\
                 n = (Z.of_nat (length (commandSignature ++ rest)) - 4)%Z).
Proof.
  unfold Write in HW. rewrite (isCommand_signature rest Hlen) in HW.
  change (skipn 4 (commandSignature ++ rest)) with rest in HW.
  destruct (LongWrite fuel (w_writer w) rest 0) as [[[k e1] w1]|] eqn:L;
    [|discriminate].
  simpl in HW. injection HW as -> -> <-.
  apply LongWrite_sent in L as (m & M1 & M2 & M3 & M4 & M5 & M6).
  exists m. cbn [w_writer]. split; [exact M1|]. split; [lia|]. split; [exact M3|].
  intros He. specialize (M5 He). split; [exact M5|].
  rewrite length_app. change (length commandSignature) with 4. lia.
Qed.

Lemma Write_signature_raw_witness :
  exists m,
    m <= 3 /\ 3%Z = Z.of_nat m /\
    [IAC; x41; IAC] = [] ++ firstn m [IAC; x41; IAC] /\
    (@None error = None -> m = 3 /\ 3%Z = (7 - 4)%Z).
Proof.
  apply (Write_signature_raw [IAC; x41; IAC] ltac:(simpl; lia) 1
           (newWriter (freshWriter acceptAll)) 3 None
           (newWriter {| sent := [IAC; x41; IAC]; behave := acceptAll; calls := 1 |})
           eq_refl).
Defined.

Lemma escape_app a b : escape (a ++ b) = escape a ++ escape b.
Proof.
  induction a as [|c a IH]; [reflexivity|]. simpl.
  destruct (Byte.eqb c IAC); simpl; now rewrite IH.
Qed.

Lemma escape_plain l : Forall (fun c => c <> IAC) l -> escape l = l.
Proof.
  induction 1 as [|c l Hc Hl IH]; [reflexivity|]. simpl.
  now rewrite (eqb_neq _ _ Hc), IH.
Qed.

Lemma Forall_firstn {A : Type} (P : A -> Prop) : forall n l,
  Forall P l -> Forall P (firstn n l).
Proof.
  induction n as [|n IH]; intros l H; [constructor|].
  destruct H; simpl; constructor; auto.
Qed.

Lemma flushBuffer_any fuel w buffer n n' e w' :
  flushBuffer fuel w buffer n = Some ((n', e), w') ->
  exists m,
    m <= length buffer /\ n' = (n + Z.of_nat m)%Z /\
    sent w' = sent w ++ firstn m buffer /\ behave w' = behave w /\
    (e = None -> m = length buffer) /\
    (forall x, e = Some x ->
       isShortWrite x = false /\ exists i q, failure (behave w i q) = Some x).
Proof.
  unfold flushBuffer. destruct (0 <? length buffer) eqn:Len.
  - destruct (LongWrite fuel w buffer 0) as [[[k e1] w1]|] eqn:E; [|discriminate].
    intros [= <- <- <-].
    apply LongWrite_sent in E as (m & M1 & M2 & M3 & M4 & M5 & M6).
    exists m. split; [exact M1|]. split; [lia|]. auto.
  - apply Nat.ltb_ge in Len. intros [= <- <- <-].
    destruct buffer; [|simpl in Len; lia].
    exists 0. simpl. rewrite app_nil_r.
    split; [lia|]. split; [lia|]. split; [reflexivity|]. split; [reflexivity|].
    split; [reflexivity|discriminate].
Qed.

Lemma Write_loop_any : forall data fuel w buffer n n' e w',
  Forall (fun c => c <> IAC) buffer ->
  Write_loop fuel w data buffer n = Some ((n', e), w') ->
  WriteOutcome w (buffer ++ data) n n' e w'.
Proof.
  induction data as [|value rest IH]; intros fuel w buffer n n' e w' Hb E.
  - simpl in E. apply flushBuffer_any in E as (m & M1 & M2 & M3 & M4 & M5 & M6).
    exists m, 0. rewrite app_nil_r. split; [exact M1|]. split; [lia|].
    split; [exact M2|]. split.
    { simpl. rewrite app_nil_r, escape_plain; [exact M3|].
      now apply Forall_firstn. }
    split; [exact M4|]. split; [|exact M6]. auto.
  - cbn [Write_loop] in E. destruct (Byte.eqb value IAC) eqn:V; cbn [negb] in E.
    + apply eqb_eq in V. subst value.
      destruct (flushBuffer fuel w buffer n) as [[[n1 e1] w1]|] eqn:F;
        [|discriminate].
      apply flushBuffer_any in F as (m & M1 & M2 & M3 & M4 & M5 & M6).
      destruct e1 as [x|].
      { injection E as <- <- <-. exists m, 0.
        split; [rewrite length_app; lia|]. split; [lia|]. split; [exact M2|].
        split.
        { simpl. rewrite app_nil_r, firstn_app.
          replace (m - length buffer) with 0 by lia. simpl.
          rewrite app_nil_r, escape_plain; [exact M3|]. now apply Forall_firstn. }
        split; [exact M4|]. split; [discriminate|exact M6]. }
      specialize (M5 eq_refl). subst m. rewrite firstn_all in M3.
      destruct (LongWrite fuel w1 EscapeIAC 0) as [[[k e2] w2]|] eqn:L;
        [|discriminate].
      apply LongWrite_sent in L as (j & J1 & J2 & J3 & J4 & J5 & J6).
      assert (Hfirst : firstn (length buffer) (buffer ++ IAC :: rest) = buffer).
      { rewrite firstn_app, Nat.sub_diag, firstn_all. simpl. apply app_nil_r. }
      destruct e2 as [x|].
      { injection E as <- <- <-. exists (length buffer), j.
        split; [rewrite length_app; lia|]. split; [exact J1|].
        split; [exact M2|]. split.
        { rewrite Hfirst, (escape_plain buffer Hb).
          rewrite J3, M3. now rewrite <- app_assoc. }
        split; [congruence|]. split; [discriminate|].
        intros y Hy. destruct (J6 y Hy) as [SW (i & q & R)].
        split; [exact SW|]. exists i, q. now rewrite <- M4. }
      specialize (J5 eq_refl). subst j. rewrite firstn_all in J3.
      replace (negb (k =? Z.of_nat (length EscapeIAC))%Z) with false in E
        by (subst k; reflexivity).
      apply IH in E; [|constructor].
      destruct E as (m & j & E1 & E2 & E3 & E4 & E5 & E6 & E7).
      exists (length buffer + 1 + m), j.
      split; [rewrite length_app; simpl in *; lia|]. split; [exact E2|].
      split; [lia|]. split.
      { rewrite E4, J3, M3.
        replace (length buffer + 1 + m) with (length buffer + S m) by lia.
        rewrite firstn_app_2. cbn [firstn app].
        rewrite escape_app, (escape_plain buffer Hb).
        cbn [escape]. rewrite eqb_refl. unfold EscapeIAC.
        simpl. now rewrite <- !app_assoc. }
      split; [congruence|]. split.
      { intros He. destruct (E6 He) as [-> ->]. split; [|reflexivity].
        rewrite !length_app. simpl. lia. }
      intros y Hy. destruct (E7 y Hy) as [SW (i & q & R)].
      split; [exact SW|]. exists i, q. now rewrite <- M4, <- J4.
    + apply eqb_false_neq in V.
      apply IH in E; [|apply Forall_app; split; [exact Hb|now constructor]].
      now rewrite <- app_assoc in E.
Qed.

(** X6 (writer.go, Write), for data that does not trip the command test.
    Whatever the transport does, when Write returns (n, err): n is at most
    len(data); the wire has grown by the escaped encoding of the first n
    bytes of data, followed by at most the two bytes of an escape pair that
    was being written when the transport failed; and a non-nil err is an
    error the transport reported, never a short write and never one of
    Write's own making. *)
Theorem Write_partial (data : list byte) (Hdata : isCommand data = false)
  (fuel : nat) (w : writer) (n : Z) (e : option error) (w' : writer)
  (HW : Write fuel w data = Some ((n, e), w')) :
  exists m j,
    n = Z.of_nat m /\ m <= length data /\ j <= 2 /\
    sent (w_writer w')
    = sent (w_writer w) ++ escape (firstn m data) ++ firstn j [IAC; IAC] /\
    (e = None -> m = length data /\ j = 0) /\
    (forall x, e = Some x ->
       isShortWrite x = false /\
       exists i q, failure (behave (w_writer w) i q) = Some x).
Proof.
  unfold Write in HW. rewrite Hdata in HW.
  destruct (Write_loop fuel (w_writer w) data [] 0) as [[[n1 e1] w1]|] eqn:L;
    [|discriminate].
  simpl in HW. injection HW as -> -> <-.
  apply Write_loop_any in L; [|constructor].
  destruct L as (m & j & E1 & E2 & E3 & E4 & E5 & E6 & E7).
  exists m, j. simpl in *. repeat split; auto; try apply E6; try apply E7; auto.
Qed.

Lemma Write_partial_witness :
  exists m j,
    1%Z = Z.of_nat m /\ m <= 3 /\ j <= 2 /\
    [x41; IAC] = [] ++ escape (firstn m [x41; IAC; x42]) ++ firstn j [IAC; IAC] /\
    (Some (ErrIO 32) = None -> m = 3 /\ j = 0) /\
    (forall x, Some (ErrIO 32) = Some x ->
       isShortWrite x = false /\
       exists i q, failure (failsFrom 1 i q) = Some x).
Proof.
  apply (Write_partial [x41; IAC; x42] eq_refl 2
           (newWriter (freshWriter (failsFrom 1))) 1 (Some (ErrIO 32))
           (newWriter {| sent := [x41; IAC]; behave := failsFrom 1; calls := 2 |})
           eq_refl).
Defined.

(* ================================================================== *)
(** * Lines and echo on a well-formed stream *)

Lemma Read1_decodes_cons r c d :
  decodes (pending (buffered r)) (c :: d) ->
  exists r',
    Read r 1 = (([c], None), r') /\
    decodes (pending (buffered r')) d /\
    srcErr (buffered r') = srcErr (buffered r).
Proof.
  intros H. unfold Read.
  destruct (Read_loop_decodes _ _ H (S (length (pending (buffered r))))
              (buffered r) 1 [] eq_refl)
    as (d1 & d2 & e & b' & E & S' & D & W & C); [lia|].
  destruct (Read_loop_total (S (length (pending (buffered r)))) (buffered r) 1 [])
    as (d1' & e' & b'' & E' & _ & L & _); [lia|].
  rewrite E in E'. injection E' as <- _ _. rewrite E. simpl app.
  destruct C as [[-> C] | (_ & _ & -> & -> & _)]; [|discriminate].
  destruct C as [C | C]; [lia|]. simpl in C.
  destruct d1 as [|x [|y d1]]; simpl in *; try lia.
  injection D as <- <-. exists {| buffered := b' |}. auto.
Qed.

Lemma Read1_decodes_nil r :
  decodes (pending (buffered r)) [] ->
  exists r',
    Read r 1 = (([], Some (srcErr (buffered r))), r') /\
    pending (buffered r') = [].
Proof.
  intros H. unfold Read.
  destruct (Read_loop_decodes _ _ H (S (length (pending (buffered r))))
              (buffered r) 1 [] eq_refl)
    as (d1 & d2 & e & b' & E & S' & D & W & C); [lia|].
  rewrite E. simpl app.
  destruct C as [[-> C] | (-> & _ & -> & -> & P)].
  - destruct d1; [simpl in C; lia|discriminate].
  - exists {| buffered := b' |}. auto.
Qed.

Lemma ReadLine_loop_decodes : forall line (r : reader) rest fuel acc,
  decodes (pending (buffered r)) (line ++ NL :: rest) -> ~ In NL line ->
  length line < fuel ->
  exists r',
    ReadLine_loop fuel r acc = Some (Ok (acc ++ line ++ [NL]), r') /\
    decodes (pending (buffered r')) rest /\
    srcErr (buffered r') = srcErr (buffered r).
Proof.
  induction line as [|c line IH]; intros r rest fuel acc Hd Hn Hf;
    (destruct fuel as [|fuel]; [lia|]); cbn [ReadLine_loop];
    change (io_Read r 1) with (Read r 1);
    destruct (Read1_decodes_cons _ _ _ Hd) as (r1 & -> & D1 & S1).
  - rewrite eqb_refl. exists r1. auto.
  - rewrite eqb_neq by (intros ->; apply Hn; now left).
    destruct (IH r1 rest fuel (acc ++ [c]) D1) as (r' & E & D' & S').
    { intros X. apply Hn. now right. }
    { simpl in Hf. lia. }
    exists r'. rewrite E, <- app_assoc. simpl. split; [reflexivity|].
    split; [exact D'|congruence].
Qed.

Lemma ReadLine_loop_decodes_eof : forall d (r : reader) fuel acc,
  decodes (pending (buffered r)) d -> ~ In NL d -> length d < fuel ->
  exists r',
    ReadLine_loop fuel r acc = Some (Err (srcErr (buffered r)), r') /\
    pending (buffered r') = [].
Proof.
  induction d as [|c d IH]; intros r fuel acc Hd Hn Hf;
    (destruct fuel as [|fuel]; [lia|]); cbn [ReadLine_loop];
    change (io_Read r 1) with (Read r 1).
  - destruct (Read1_decodes_nil _ Hd) as (r1 & -> & P1). exists r1. auto.
  - destruct (Read1_decodes_cons _ _ _ Hd) as (r1 & -> & D1 & S1).
    rewrite eqb_neq by (intros ->; apply Hn; now left).
    destruct (IH r1 fuel (acc ++ [c]) D1) as (r' & E & P').
    { intros X. apply Hn. now right. }
    { simpl in Hf. lia. }
    exists r'. rewrite E, S1. auto.
Qed.

(** X7 (reader.go, ReadLine over Read).  On a stream of whole protocol items
    whose data is a line, a line feed and more, ReadLine returns the line,
    without its closing CR when it has one and with the line feed otherwise,
    whatever negotiation items lie inside it; and it takes no more than that
    line: the stream it leaves carries the data after the line feed, so the
    next ReadLine gives the next line. *)
Theorem ReadLine_wellformed (r : reader) (line rest : list byte) (fuel : nat)
  (Hwire : decodes (pending (buffered r)) (line ++ NL :: rest))
  (Hline : ~ In NL line) (Hfuel : length line < fuel) :
  exists text r',
    ReadLine fuel r = Some ((text, None), r') /\
    decodes (pending (buffered r')) rest /\
    ((exists l, line = l ++ [CR] /\ text = l) \/
     ((forall l, line <> l ++ [CR]) /\ text = line ++ [NL])).
Proof.
  unfold ReadLine.
  destruct (ReadLine_loop_decodes line r rest fuel [] Hwire Hline Hfuel)
    as (r' & -> & D & _).
  exists (trimCRLF ([] ++ line ++ [NL])), r'. split; [reflexivity|].
  split; [exact D|]. simpl app.
  destruct (last_cases line) as [-> | (l & x & ->)].
  - right. split; [|reflexivity]. intros l X. now destruct l.
  - destruct (Byte.byte_eq_dec x CR) as [-> | Hx].
    + left. exists l. split; [reflexivity|].
      rewrite <- app_assoc. apply trimCRLF_crlf.
    + right. split.
      * intros l' X. apply app_inj_tail in X as [_ X]. contradiction.
      * apply trimCRLF_bare. intros l' X.
        apply app_inj_tail in X as [_ X]. contradiction.
Qed.

Lemma ReadLine_wellformed_witness :
  exists text r',
    ReadLine 4 (newReader [[x6c; IAC; WILL; x01]; [x73; CR; NL; x70]] EOF)
    = Some ((text, None), r') /\
    decodes (pending (buffered r')) [x70] /\
    ((exists l, [x6c; x73; CR] = l ++ [CR] /\ text = l) \/
     ((forall l, [x6c; x73; CR] <> l ++ [CR]) /\ text = [x6c; x73; CR] ++ [NL])).
Proof.
  apply (ReadLine_wellformed
           (newReader [[x6c; IAC; WILL; x01]; [x73; CR; NL; x70]] EOF)
           [x6c; x73; CR] [x70] 4).
  - simpl. constructor; [discriminate|]. apply decodes_verb; [reflexivity|].
    repeat (constructor; [discriminate|]). constructor.
  - intros [X | [X | [X | X]]]; try discriminate; contradiction.
  - simpl. lia.
Defined.

(** X8 (reader.go, ReadLine).  When the stream ends before any line feed,
    the text read so far is lost: ReadLine returns the empty string and the
    transport's error, and the bytes it went through are consumed, so a later
    read does not see them again. *)
Theorem ReadLine_partial_line_lost (r : reader) (d : list byte) (fuel : nat)
  (Hwire : decodes (pending (buffered r)) d)
  (Hd : ~ In NL d) (Hfuel : length d < fuel) :
  exists r',
    ReadLine fuel r = Some (([], Some (srcErr (buffered r))), r') /\
    pending (buffered r') = [].
Proof.
  unfold ReadLine.
  destruct (ReadLine_loop_decodes_eof d r fuel [] Hwire Hd Hfuel) as (r' & -> & P).
  exists r'. auto.
Qed.

Lemma ReadLine_partial_line_lost_witness :
  exists r',
    ReadLine 3 (newReader [[x24; x20]] EOF) = Some (([], Some EOF), r') /\
    pending (buffered r') = [].
Proof.
  apply (ReadLine_partial_line_lost (newReader [[x24; x20]] EOF) [x24; x20] 3).
  - simpl. repeat (constructor; [discriminate|]). constructor.
  - intros [X | [X | X]]; try discriminate; contradiction.
  - simpl. lia.
Defined.

(** X9 (writer.go WriteLine, reader.go ReadLine).  A line written with
    WriteLine as its text and a CR LF, the two together not tripping the
    command test of Write, comes back from ReadLine as the text alone,
    whatever bytes other than the line feed the text holds (255 and CR
    included) and however the wire is cut into chunks; the wire holds no
    data after it. *)
Theorem WriteLine_ReadLine_roundtrip (text : list byte)
  (Htext : ~ In NL text) (Hdata : isCommand (text ++ [CR; NL]) = false)
  (beh : nat -> list byte -> response) (fuel : nat) (w' : writer)
  (HW : WriteLine fuel (newWriter (freshWriter beh)) [text; [CR; NL]]
        = Some (None, w'))
  (chunks : list (list byte)) (e : error) (k : nat)
  (Hchunks : concat chunks = sent (w_writer w'))
  (Hk : length text + 1 < k) :
  exists r',
    ReadLine k (newReader chunks e) = Some ((text, None), r') /\
    decodes (pending (buffered r')) [].
Proof.
  unfold WriteLine, io_Write, writer_Writer, Write in HW.
  change (concat [text; [CR; NL]]) with (text ++ [CR; NL]) in HW.
  rewrite Hdata in HW.
  destruct (Write_loop fuel (w_writer (newWriter (freshWriter beh)))
              (text ++ [CR; NL]) [] 0) as [[[n1 e1] w1]|] eqn:L; [|discriminate].
  simpl in HW. injection HW as -> <-.
  apply Write_loop_ok in L as (S1 & _ & _). simpl in S1, Hchunks.
  unfold ReadLine.
  destruct (ReadLine_loop_decodes (text ++ [CR]) (newReader chunks e) [] k [])
    as (r' & -> & D & _).
  - unfold pending. simpl. rewrite Hchunks, S1, <- app_assoc.
    apply decodes_escape.
  - intros X. apply in_app_or in X as [X | [X | X]];
      [now apply Htext|discriminate|contradiction].
  - rewrite length_app. simpl. lia.
  - exists r'. simpl app. rewrite <- app_assoc. simpl app.
    rewrite trimCRLF_crlf. split; [reflexivity|exact D].
Qed.

Lemma WriteLine_ReadLine_roundtrip_witness :
  exists r',
    ReadLine 5 (newReader [[x6f; IAC]; [IAC; x6b; CR; NL]] EOF)
    = Some (([x6f; IAC; x6b], None), r') /\
    decodes (pending (buffered r')) [].
Proof.
  apply (WriteLine_ReadLine_roundtrip [x6f; IAC; x6b]
           ltac:(intros [X | [X | [X | X]]]; try discriminate; contradiction)
           eq_refl acceptAll 1
           (newWriter {| sent := [x6f; IAC; IAC; x6b; CR; NL];
                         behave := acceptAll; calls := 3 |})
           eq_refl [[x6f; IAC]; [IAC; x6b; CR; NL]] EOF 5).
  - reflexivity.
  - simpl. lia.
Defined.

Lemma Session_Write_plain_byte fuel s c :
  isPTY s = false -> behave (w_writer (s_writer s)) = acceptAll -> 0 < fuel ->
  exists n s',
    Session_Write fuel s [c] = Some ((n, None), s') /\
    sent (w_writer (s_writer s')) = sent (w_writer (s_writer s)) ++ escape [c] /\
    behave (w_writer (s_writer s')) = acceptAll /\
    s_reader s' = s_reader s /\ isPTY s' = false.
Proof.
  intros Hpty Ha Hf. unfold Session_Write. rewrite Hpty.
  unfold Write. change (isCommand [c]) with false. cbn iota.
  destruct (Write_loop_acceptAll [c] fuel (w_writer (s_writer s)) [] 0 Ha Hf)
    as (w' & E).
  rewrite E. apply Write_loop_ok in E as (S1 & _ & B1).
  simpl. eexists _, _. split; [reflexivity|]. simpl. repeat split; auto.
  congruence.
Qed.

Lemma EchoHandler_decodes : forall d fuel s,
  isPTY s = false -> behave (w_writer (s_writer s)) = acceptAll ->
  decodes (pending (buffered (s_reader s))) d -> length d < fuel ->
  exists s',
    EchoHandler fuel s = Some s' /\
    sent (w_writer (s_writer s')) = sent (w_writer (s_writer s)) ++ escape d /\
    pending (buffered (s_reader s')) = [].
Proof.
  induction d as [|c d IH]; intros fuel s Hpty Ha Hd Hf;
    (destruct fuel as [|fuel]; [lia|]); cbn [EchoHandler]; unfold Session_Read.
  - destruct (Read1_decodes_nil _ Hd) as (r1 & -> & P1).
    cbn [length Nat.ltb Nat.leb]. eexists. split; [reflexivity|].
    simpl. rewrite app_nil_r. auto.
  - destruct (Read1_decodes_cons _ _ _ Hd) as (r1 & -> & D1 & S1).
    cbn [length Nat.ltb Nat.leb].
    set (s1 := {| isPTY := isPTY s; s_reader := r1; s_writer := s_writer s;
                  termCols := termCols s; termRows := termRows s |}).
    destruct (Session_Write_plain_byte (S fuel) s1 c Hpty Ha)
      as (n & s2 & -> & W2 & B2 & R2 & P2); [lia|].
    destruct (IH fuel s2 P2 B2) as (s' & E & W' & P').
    { rewrite R2. exact D1. }
    { simpl in Hf. lia. }
    exists s'. split; [exact E|]. split; [|exact P'].
    rewrite W', W2. simpl s_writer.
    change (c :: d) with ([c] ++ d). rewrite escape_app. now rewrite <- app_assoc.
Qed.

(** X10 (server.go, EchoHandler).  On a Session without line discipline and a
    transport that takes all it is given, EchoHandler reads a stream of whole
    protocol items to its end and has then sent back the escaped encoding of
    exactly the data the stream carried, byte for byte and in order: the
    negotiation items of the peer are not echoed, and a 255 in the data goes
    back doubled. *)
Theorem EchoHandler_echoes (s : Session) (d : list byte) (fuel : nat)
  (Hpty : isPTY s = false)
  (Htransport : behave (w_writer (s_writer s)) = acceptAll)
  (Hwire : decodes (pending (buffered (s_reader s))) d)
  (Hfuel : length d < fuel) :
  exists s',
    EchoHandler fuel s = Some s' /\
    sent (w_writer (s_writer s')) = sent (w_writer (s_writer s)) ++ escape d /\
    pending (buffered (s_reader s')) = [].
Proof.
  now apply EchoHandler_decodes.
Qed.

Lemma EchoHandler_echoes_witness :
  exists s',
    EchoHandler 3 (demoSession false [[x41; IAC; DO; x18]; [IAC; IAC]]) = Some s' /\
    sent (w_writer (s_writer s')) = [] ++ escape [x41; IAC] /\
    pending (buffered (s_reader s')) = [].
Proof.
  apply (EchoHandler_echoes (demoSession false [[x41; IAC; DO; x18]; [IAC; IAC]])
           [x41; IAC] 3 eq_refl eq_refl).
  - simpl. constructor; [discriminate|]. apply decodes_verb; [reflexivity|].
    apply decodes_doubled. constructor.
  - simpl. lia.
Defined.

(* ================================================================== *)
(** * Line discipline of [Session.Write] *)

Lemma replace_from_skip : forall s old new k,
  replace_from s old new k = replace_from (skipn k s) old new 0.
Proof.
  induction s as [|c s IH]; intros old new k.
  - now destruct k.
  - destruct k as [|k]; [reflexivity|]. cbn [replace_from skipn]. apply IH.
Qed.

Lemma hasPrefix_nil s : hasPrefix s [] = true.
Proof. now destruct s. Qed.

Lemma replace_LF_cons c s :
  bytes_Replace (c :: s) [NL] [CR; NL]
  = (if Byte.eqb c NL then [CR; NL] else [c]) ++ bytes_Replace s [NL] [CR; NL].
Proof.
  unfold bytes_Replace. cbn [replace_from hasPrefix length Nat.sub].
  rewrite hasPrefix_nil, andb_true_r.
  destruct (Byte.byte_eq_dec c NL) as [-> | Hc].
  - reflexivity.
  - rewrite (eqb_neq _ _ Hc), (eqb_neq NL c) by congruence. reflexivity.
Qed.

Lemma replace_LF_app a b :
  bytes_Replace (a ++ b) [NL] [CR; NL]
  = bytes_Replace a [NL] [CR; NL] ++ bytes_Replace b [NL] [CR; NL].
Proof.
  induction a as [|c a IH]; [reflexivity|].
  cbn [app]. rewrite !replace_LF_cons, IH. now rewrite <- app_assoc.
Qed.

Lemma replace_LF_clean text :
  noLineBreak text -> bytes_Replace text [NL] [CR; NL] = text.
Proof.
  induction 1 as [|c text [_ Hc] Ht IH]; [reflexivity|].
  now rewrite replace_LF_cons, (eqb_neq _ _ Hc), IH.
Qed.

Lemma replace_CRCRLF_clean text rest :
  noLineBreak text ->
  bytes_Replace (text ++ rest) [CR; CR; NL] [CR; NL]
  = text ++ bytes_Replace rest [CR; CR; NL] [CR; NL].
Proof.
  induction 1 as [|c text [Hc _] Ht IH]; [reflexivity|].
  unfold bytes_Replace in *. cbn [app replace_from hasPrefix].
  rewrite (eqb_neq CR c) by congruence. cbn [andb]. now rewrite IH.
Qed.

Lemma replace_CRCRLF_crcrlf rest :
  bytes_Replace (CR :: CR :: NL :: rest) [CR; CR; NL] [CR; NL]
  = CR :: NL :: bytes_Replace rest [CR; CR; NL] [CR; NL].
Proof.
  unfold bytes_Replace. cbn [replace_from hasPrefix].
  rewrite hasPrefix_nil. reflexivity.
Qed.

Lemma replace_CRCRLF_crlf rest :
  bytes_Replace (CR :: NL :: rest) [CR; CR; NL] [CR; NL]
  = CR :: NL :: bytes_Replace rest [CR; CR; NL] [CR; NL].
Proof. reflexivity. Qed.

Lemma ptyNormalize_lines : forall (ls : list (bool * list byte)) (tail : list byte),
  Forall (fun l => noLineBreak (snd l)) ls -> noLineBreak tail ->
  ptyNormalize (concat (map (fun l => lineWith (fst l) (snd l)) ls) ++ tail)
  = concat (map (fun l => lineWith true (snd l)) ls) ++ tail.
Proof.
  unfold ptyNormalize. intros ls tail Hls Ht.
  induction Hls as [|[crlf text] ls Htext Hls IH]; cbn [map concat fst snd app].
  - rewrite (replace_LF_clean tail Ht).
    rewrite <- (app_nil_r tail) at 1. rewrite replace_CRCRLF_clean by exact Ht.
    now rewrite app_nil_r.
  - simpl in Htext. unfold lineWith at 1 3. rewrite <- !app_assoc.
    rewrite replace_LF_app, (replace_LF_clean text Htext).
    rewrite replace_CRCRLF_clean by exact Htext. f_equal.
    destruct crlf; cbn [app].
    + rewrite !replace_LF_cons. change (Byte.eqb CR NL) with false.
      rewrite eqb_refl. cbn [app].
      rewrite replace_CRCRLF_crcrlf. now rewrite IH.
    + rewrite replace_LF_cons, eqb_refl. cbn [app].
      rewrite replace_CRCRLF_crlf. now rewrite IH.
Qed.

(** X11 (Session.Write, the two bytes.Replace calls).  In line-discipline mode
    both line endings come out as CR LF: for lines of text that each end in
    LF or in CR LF, followed by text with no line ending, the data handed to
    the codec is the same lines each ended by CR LF, so a line that already
    ends in CR LF is not given a second CR. *)
Theorem Session_Write_line_endings (s : Session) (ls : list (bool * list byte))
  (tail : list byte) (fuel : nat)
  (Hpty : isPTY s = true)
  (Hlines : Forall (fun l => noLineBreak (snd l)) ls)
  (Htail : noLineBreak tail) :
  option_map (fun r => (snd (fst r), s_writer (snd r)))
    (Session_Write fuel s
       (concat (map (fun l => lineWith (fst l) (snd l)) ls) ++ tail))
  = option_map (fun r => (snd (fst r), snd r))
      (Write fuel (s_writer s)
         (concat (map (fun l => lineWith true (snd l)) ls) ++ tail)).
Proof.
  unfold Session_Write. rewrite Hpty.
  fold (ptyNormalize (concat (map (fun l => lineWith (fst l) (snd l)) ls) ++ tail)).
  rewrite (ptyNormalize_lines ls tail Hlines Htail).
  destruct (Write fuel (s_writer s) _) as [[[n e] w']|]; reflexivity.
Qed.

Lemma Session_Write_line_endings_witness :
  option_map (fun r => (snd (fst r), s_writer (snd r)))
    (Session_Write 1 (demoSession true [])
       (concat (map (fun l => lineWith (fst l) (snd l))
                    [(false, [x6f; x6b]); (true, [x24])]) ++ [x20]))
  = option_map (fun r => (snd (fst r), snd r))
      (Write 1 (s_writer (demoSession true []))
         (concat (map (fun l => lineWith true (snd l))
                      [(false, [x6f; x6b]); (true, [x24])]) ++ [x20])).
Proof.
  apply (Session_Write_line_endings (demoSession true [])
           [(false, [x6f; x6b]); (true, [x24])] [x20] 1 eq_refl).
  - repeat constructor; discriminate.
  - repeat constructor; discriminate.
Defined.

Lemma replace_LF_length s :
  length (bytes_Replace s [NL] [CR; NL]) = length s + count_occ Byte.byte_eq_dec s NL.
Proof.
  induction s as [|c s IH]; [reflexivity|].
  rewrite replace_LF_cons, length_app, IH. cbn [count_occ length].
  destruct (Byte.byte_eq_dec c NL) as [-> | Hc].
  - rewrite eqb_refl. simpl. lia.
  - rewrite (eqb_neq _ _ Hc). simpl. lia.
Qed.

Lemma replace_LF_count s :
  count_occ Byte.byte_eq_dec (bytes_Replace s [NL] [CR; NL]) NL
  = count_occ Byte.byte_eq_dec s NL.
Proof.
  induction s as [|c s IH]; [reflexivity|].
  rewrite replace_LF_cons, count_occ_app, IH. cbn [count_occ].
  destruct (Byte.byte_eq_dec c NL) as [-> | Hc].
  - rewrite eqb_refl. reflexivity.
  - rewrite (eqb_neq _ _ Hc). cbn [count_occ].
    destruct (Byte.byte_eq_dec c NL); [contradiction|reflexivity].
Qed.

Lemma replace_CRCRLF_length : forall n s,
  length s <= n ->
  length s <= length (bytes_Replace s [CR; CR; NL] [CR; NL])
              + count_occ Byte.byte_eq_dec s NL.
Proof.
  induction n as [|n IH]; intros s Hs.
  - destruct s; [simpl; lia|simpl in Hs; lia].
  - destruct s as [|c s]; [simpl; lia|].
    unfold bytes_Replace. cbn [replace_from].
    destruct (hasPrefix (c :: s) [CR; CR; NL]) eqn:P.
    + destruct s as [|c1 [|c2 s]]; cbn [hasPrefix] in P;
        try (rewrite ?andb_false_r in P; discriminate).
      apply andb_prop in P as [P0 P]. apply andb_prop in P as [P1 P].
      apply andb_prop in P as [P2 _].
      apply eqb_eq in P0, P1, P2. subst c c1 c2.
      rewrite replace_from_skip. cbn [length Nat.sub skipn].
      specialize (IH s ltac:(simpl in Hs; lia)). unfold bytes_Replace in IH.
      rewrite length_app. cbn [length count_occ].
      destruct (Byte.byte_eq_dec CR NL); [discriminate|].
      destruct (Byte.byte_eq_dec NL NL); [|congruence]. lia.
    + specialize (IH s ltac:(simpl in Hs; lia)). unfold bytes_Replace in IH.
      cbn [length count_occ]. destruct (Byte.byte_eq_dec c NL); lia.
Qed.

Lemma ptyNormalize_length data : length data <= length (ptyNormalize data).
Proof.
  unfold ptyNormalize.
  pose proof (replace_CRCRLF_length _ (bytes_Replace data [NL] [CR; NL]) (le_n _)) as H.
  rewrite replace_LF_count, replace_LF_length in H. lia.
Qed.

(** X12 (Session.Write, the clamp of bytesWritten).  In line-discipline mode
    the rewritten data is never shorter than the data given, so when the
    rewritten data does not trip the command test and the write succeeds, the
    count returned is exactly len(data), however many CR bytes were added on
    the wire. *)
Theorem Session_Write_pty_count (s : Session) (data : list byte) (fuel : nat)
  (n : Z) (s' : Session)
  (Hpty : isPTY s = true)
  (Hdata : isCommand (ptyNormalize data) = false)
  (HW : Session_Write fuel s data = Some ((n, None), s')) :
  n = Z.of_nat (length data) /\
  sent (w_writer (s_writer s'))
  = sent (w_writer (s_writer s)) ++ escape (ptyNormalize data) /\
  length data <= length (ptyNormalize data).
Proof.
  unfold Session_Write in HW. rewrite Hpty in HW.
  fold (ptyNormalize data) in HW.
  destruct (Write fuel (s_writer s) (ptyNormalize data)) as [[[k e] w']|] eqn:E;
    [|discriminate].
  injection HW as Hn -> <-.
  unfold Write in E. rewrite Hdata in E.
  destruct (Write_loop fuel (w_writer (s_writer s)) (ptyNormalize data) [] 0)
    as [[[k1 e1] w1]|] eqn:L; [|discriminate].
  simpl in E. injection E as -> -> <-.
  apply Write_loop_ok in L as (S1 & K & _). simpl in S1, K. cbn [w_writer].
  pose proof (ptyNormalize_length data) as L.
  split; [|split; [exact S1|exact L]].
  subst k. cbn [andb] in Hn.
  destruct (Z.of_nat (length data) <? Z.of_nat (length (ptyNormalize data)))%Z eqn:C.
  - now symmetry.
  - apply Z.ltb_ge in C. lia.
Qed.

Lemma Session_Write_pty_count_witness :
  exists s',
    Session_Write 1 (demoSession true []) [x6f; NL] = Some ((2%Z, None), s') /\
    sent (w_writer (s_writer s')) = [x6f; CR; NL].
Proof.
  eexists. split; [reflexivity|].
  apply (proj1 (proj2 (Session_Write_pty_count (demoSession true []) [x6f; NL] 1 2 _
                         eq_refl eq_refl eq_refl))).
Defined.

(* ================================================================== *)
(** * Further properties of [RequestWindowSize] *)

Lemma skipUnrelated_sbOther_err : forall body, sbOther body ->
  forall fuel b rest,
    pending b = body ++ rest -> length (pending b) < fuel ->
    exists b', skipUnrelated fuel b = Some (None, b') /\ pending b' = rest /\
               srcErr b' = srcErr b.
Proof.
  induction 1 as [|c l Hc Hl IH|c l Hc Hl IH]; intros fuel b rest Hp Hf;
    (destruct fuel as [|fuel]; [lia|]); cbn [skipUnrelated];
    simpl in Hp; destruct (ReadByte_cons _ _ _ Hp) as (b1 & -> & P1 & S1).
  - rewrite eqb_refl.
    destruct (ReadByte_cons _ _ _ P1) as (b2 & -> & P2 & S2).
    rewrite eqb_refl. exists b2. repeat split; auto. congruence.
  - rewrite (eqb_neq _ _ Hc).
    destruct (IH fuel b1 rest P1) as (b' & E & P' & S').
    { rewrite Hp in Hf. rewrite P1. simpl in Hf. lia. }
    exists b'. repeat split; auto. congruence.
  - rewrite eqb_refl.
    destruct (ReadByte_cons _ _ _ P1) as (b2 & -> & P2 & S2).
    rewrite (eqb_neq _ _ Hc).
    destruct (IH fuel b2 rest P2) as (b' & E & P' & S').
    { rewrite Hp in Hf. rewrite P2. simpl in Hf. lia. }
    exists b'. repeat split; auto. congruence.
Qed.

Lemma be16_range hi lo : (0 <= be16 hi lo <= 65535)%Z.
Proof.
  rewrite be16_value.
  pose proof (Byte.to_N_bounded hi). pose proof (Byte.to_N_bounded lo). lia.
Qed.

Lemma byteOfInt_value x : Z.of_N (Byte.to_N (byteOfInt x)) = (x mod 256)%Z.
Proof.
  unfold byteOfInt.
  assert (H : (0 <= x mod 256 < 256)%Z) by (apply Z.mod_pos_bound; lia).
  destruct (Byte.of_N (Z.to_N (x mod 256))) as [b|] eqn:E.
  - apply Byte.to_of_N in E. rewrite E. lia.
  - apply Byte.of_N_None_iff in E. lia.
Qed.

Lemma be16_byteOfInt x :
  (0 <= x < 65536)%Z ->
  be16 (byteOfInt (Z.shiftr x 8)) (byteOfInt (Z.land x 255)) = x.
Proof.
  intros Hx. rewrite be16_value, !byteOfInt_value.
  rewrite Z.shiftr_div_pow2 by lia.
  change 255%Z with (Z.ones 8). rewrite Z.land_ones by lia.
  change (2 ^ 8)%Z with 256%Z.
  rewrite Z.mod_mod by lia.
  rewrite (Z.mod_small (x / 256) 256).
  - pose proof (Z.div_mod x 256 ltac:(lia)). lia.
  - split; [apply Z.div_pos; lia|apply Z.div_lt_upper_bound; lia].
Qed.

Section WaitingLoop.

Variable NAWS : byte.
Variable timeout : nat -> bool.
Hypothesis never : forall i, timeout i = false.

Lemma nawsWait_passes : forall pre, passedOver NAWS pre ->
  forall fuel i s rest,
    pending (buffered (s_reader s)) = pre ++ rest ->
    length (pending (buffered (s_reader s))) < fuel ->
    exists f' j s',
      nawsWait NAWS timeout fuel i s = nawsWait NAWS timeout f' j s' /\
      pending (buffered (s_reader s')) = rest /\ length rest < f' /\
      GetWindowSize s' = GetWindowSize s /\ s_writer s' = s_writer s /\
      isPTY s' = isPTY s /\
      srcErr (buffered (s_reader s')) = srcErr (buffered (s_reader s)).
Proof.
induction 1 as [|o l Hl IH|o l Ho Hl IH|o body l Ho Hb Hl IH|c l H1 H3 Hl IH];
  intros fuel i s rest Hp Hf.
- exists fuel, i, s. simpl in Hp. rewrite Hp in Hf. auto 10.
- destruct fuel as [|fuel]; [lia|]. cbn [nawsWait]. rewrite never.
  simpl in Hp. rewrite Hp in Hf. simpl in Hf.
  destruct (Peek1_cons _ _ _ Hp) as (b0 & -> & P0 & S0). rewrite eqb_refl.
  destruct (ReadByte_cons _ _ _ P0) as (b1 & -> & P1 & S1).
  destruct (ReadByte_cons _ _ _ P1) as (b2 & -> & P2 & S2).
  rewrite eqb_refl. cbn [orb].
  destruct (ReadByte_cons _ _ _ P2) as (b3 & -> & P3 & S3).
  change (Byte.eqb WILL WONT) with false. rewrite andb_false_r.
  destruct (IH fuel (S i) (withBuffered s b3) rest P3)
    as (f' & j & s' & E & R); [simpl; rewrite P3; lia|].
  exists f', j, s'. split; [exact E|].
  destruct R as (R1 & R2 & R3 & R4 & R5 & R6). repeat split; auto.
  rewrite R6. simpl. congruence.
- destruct fuel as [|fuel]; [lia|]. cbn [nawsWait]. rewrite never.
  simpl in Hp. rewrite Hp in Hf. simpl in Hf.
  destruct (Peek1_cons _ _ _ Hp) as (b0 & -> & P0 & S0). rewrite eqb_refl.
  destruct (ReadByte_cons _ _ _ P0) as (b1 & -> & P1 & S1).
  destruct (ReadByte_cons _ _ _ P1) as (b2 & -> & P2 & S2).
  change (Byte.eqb WONT WILL) with false. rewrite eqb_refl. cbn [orb].
  destruct (ReadByte_cons _ _ _ P2) as (b3 & -> & P3 & S3).
  rewrite (eqb_neq _ _ Ho). cbn [andb].
  destruct (IH fuel (S i) (withBuffered s b3) rest P3)
    as (f' & j & s' & E & R); [simpl; rewrite P3; lia|].
  exists f', j, s'. split; [exact E|].
  destruct R as (R1 & R2 & R3 & R4 & R5 & R6). repeat split; auto.
  rewrite R6. simpl. congruence.
- destruct fuel as [|fuel]; [lia|]. cbn [nawsWait]. rewrite never.
  simpl in Hp. rewrite Hp in Hf. simpl in Hf.
  destruct (Peek1_cons _ _ _ Hp) as (b0 & -> & P0 & S0). rewrite eqb_refl.
  destruct (ReadByte_cons _ _ _ P0) as (b1 & -> & P1 & S1).
  destruct (ReadByte_cons _ _ _ P1) as (b2 & -> & P2 & S2).
  change (Byte.eqb SB WILL || Byte.eqb SB WONT) with false. cbn iota.
  rewrite eqb_refl.
  destruct (ReadByte_cons _ _ _ P2) as (b3 & -> & P3 & S3).
  rewrite (eqb_neq _ _ Ho). rewrite <- app_assoc in P3.
  rewrite !length_app in Hf.
  destruct (skipUnrelated_sbOther_err body Hb fuel b3 _ P3) as (b4 & -> & P4 & S4).
  { rewrite P3, !length_app. lia. }
  destruct (IH fuel (S i) (withBuffered s b4) rest P4)
    as (f' & j & s' & E & R); [simpl; rewrite P4, !length_app; lia|].
  exists f', j, s'. split; [exact E|].
  destruct R as (R1 & R2 & R3 & R4 & R5 & R6). repeat split; auto.
  rewrite R6. simpl. congruence.
- destruct fuel as [|fuel]; [lia|]. cbn [nawsWait]. rewrite never.
  simpl in Hp. rewrite Hp in Hf. simpl in Hf.
  destruct (Peek1_cons _ _ _ Hp) as (b0 & -> & P0 & S0). rewrite eqb_refl.
  destruct (ReadByte_cons _ _ _ P0) as (b1 & -> & P1 & S1).
  destruct (ReadByte_cons _ _ _ P1) as (b2 & -> & P2 & S2).
  unfold isVerb in H1. apply orb_false_elim in H1 as [H1 _].
  apply orb_false_elim in H1 as [H1 _]. apply orb_false_elim in H1 as [H1 H2].
  rewrite H1, H2, (eqb_neq _ _ H3). cbn [orb].
  destruct (IH fuel (S i) (withBuffered s b2) rest P2)
    as (f' & j & s' & E & R); [simpl; rewrite P2; lia|].
  exists f', j, s'. split; [exact E|].
  destruct R as (R1 & R2 & R3 & R4 & R5 & R6). repeat split; auto.
  rewrite R6. simpl. congruence.
Qed.

Lemma nawsWait_refused fuel i s rest :
  pending (buffered (s_reader s)) = IAC :: WONT :: NAWS :: rest -> 0 < fuel ->
  exists s',
    nawsWait NAWS timeout fuel i s = Some (None, s') /\
    pending (buffered (s_reader s')) = rest /\
    GetWindowSize s' = GetWindowSize s.
Proof.
  intros Hp Hf. destruct fuel as [|fuel]; [lia|]. cbn [nawsWait]. rewrite never.
  destruct (Peek1_cons _ _ _ Hp) as (b0 & -> & P0 & S0). rewrite eqb_refl.
  destruct (ReadByte_cons _ _ _ P0) as (b1 & -> & P1 & S1).
  destruct (ReadByte_cons _ _ _ P1) as (b2 & -> & P2 & S2).
  change (Byte.eqb WONT WILL) with false. rewrite eqb_refl. cbn [orb].
  destruct (ReadByte_cons _ _ _ P2) as (b3 & -> & P3 & S3).
  rewrite eqb_refl. cbn [andb]. exists (withBuffered s b3). auto.
Qed.

Lemma nawsWait_end fuel i s :
  pending (buffered (s_reader s)) = [] -> 0 < fuel ->
  exists s',
    nawsWait NAWS timeout fuel i s
    = Some (if isEOF (srcErr (buffered (s_reader s))) then None
            else Some (ErrWrap "peek failed" (srcErr (buffered (s_reader s)))),
            s') /\
    GetWindowSize s' = GetWindowSize s.
Proof.
  intros Hp Hf. destruct fuel as [|fuel]; [lia|]. cbn [nawsWait]. rewrite never.
  peek_one (buffered (s_reader s)).
  { destruct HP as (_ & _ & (l & Hl) & _). congruence. }
  destruct HP as (_ & _ & -> & _).
  destruct (isEOF (srcErr (buffered (s_reader s)))); eexists; split; reflexivity.
Qed.

Lemma nawsWait_cut fuel i s :
  pending (buffered (s_reader s)) = [IAC] -> 0 < fuel ->
  exists s',
    nawsWait NAWS timeout fuel i s
    = Some (Some (ErrWrap "read command after IAC failed"
                    (srcErr (buffered (s_reader s)))), s') /\
    GetWindowSize s' = GetWindowSize s.
Proof.
  intros Hp Hf. destruct fuel as [|fuel]; [lia|]. cbn [nawsWait]. rewrite never.
  destruct (Peek1_cons _ _ _ Hp) as (b0 & -> & P0 & S0). rewrite eqb_refl.
  destruct (ReadByte_cons _ _ _ P0) as (b1 & -> & P1 & S1).
  read_byte b1.
  { destruct HR as (A & _). congruence. }
  destruct HR as (_ & _ & -> & _). rewrite S1, S0.
  eexists. split; reflexivity.
Qed.

Lemma nawsWait_bad_terminator fuel i s p0 p1 p2 p3 t0 t1 rest :
  pending (buffered (s_reader s))
  = IAC :: SB :: NAWS :: p0 :: p1 :: p2 :: p3 :: t0 :: t1 :: rest ->
  ~ (t0 = IAC /\ t1 = SE) -> 0 < fuel ->
  exists s',
    nawsWait NAWS timeout fuel i s = Some (Some ErrBadTerminator, s') /\
    pending (buffered (s_reader s')) = rest /\
    GetWindowSize s' = GetWindowSize s.
Proof.
  intros Hp Ht Hf. destruct fuel as [|fuel]; [lia|]. cbn [nawsWait]. rewrite never.
  destruct (Peek1_cons _ _ _ Hp) as (b0 & -> & P0 & S0). rewrite eqb_refl.
  destruct (ReadByte_cons _ _ _ P0) as (b1 & -> & P1 & S1).
  destruct (ReadByte_cons _ _ _ P1) as (b2 & -> & P2 & S2).
  change (Byte.eqb SB WILL || Byte.eqb SB WONT) with false. cbn iota.
  rewrite eqb_refl.
  destruct (ReadByte_cons _ _ _ P2) as (b3 & -> & P3 & S3).
  rewrite eqb_refl.
  destruct (ReadFull_app 4 b3 [p0; p1; p2; p3] (t0 :: t1 :: rest) eq_refl P3)
    as (b4 & -> & P4).
  destruct (ReadFull_app 2 b4 [t0; t1] rest eq_refl P4) as (b5 & -> & P5).
  cbn [nth].
  replace (negb (Byte.eqb t0 IAC) || negb (Byte.eqb t1 SE)) with true.
  - exists (withBuffered s b5). auto.
  - symmetry. destruct (Byte.eqb t0 IAC) eqn:E0; [|reflexivity].
    destruct (Byte.eqb t1 SE) eqn:E1; [|reflexivity].
    exfalso. apply Ht. split; now apply eqb_eq.
Qed.

End WaitingLoop.

Lemma ReadFull_loop_length : forall k b got,
  length (pending (snd (ReadFull_loop k b got))) <= length (pending b).
Proof.
  induction k as [|k IH]; intros b got; cbn [ReadFull_loop]; [simpl; lia|].
  read_byte b.
  - destruct HR as (A & _). specialize (IH b0 (got ++ [c])).
    rewrite A. simpl. lia.
  - destruct HR as (A & B & _). simpl. rewrite A, B. lia.
Qed.

Lemma skipUnrelated_total : forall fuel b,
  length (pending b) < fuel ->
  exists e b', skipUnrelated fuel b = Some (e, b') /\
               length (pending b') <= length (pending b).
Proof.
  induction fuel as [|fuel IH]; intros b L; [lia|]. cbn [skipUnrelated].
  read_byte b.
  2:{ destruct HR as (A & B & _). eexists _, _. split; [reflexivity|].
      rewrite A, B. lia. }
  destruct HR as (A & _). rewrite A in L |- *. simpl in L.
  assert (Again : forall b', length (pending b') <= length (pending b0) ->
            exists e b'', skipUnrelated fuel b' = Some (e, b'') /\
                          length (pending b'') <= length (c :: pending b0)).
  { intros b' L'. destruct (IH b') as (e & b'' & E & L''); [lia|].
    exists e, b''. split; [exact E|]. simpl. lia. }
  destruct (Byte.eqb c IAC); [|now apply Again].
  read_byte b0.
  2:{ destruct HR as (A' & B' & _). eexists _, _. split; [reflexivity|].
      rewrite B'. simpl. lia. }
  destruct HR as (A' & _).
  destruct (Byte.eqb c0 SE).
  - eexists _, _. split; [reflexivity|]. rewrite A'. simpl. lia.
  - apply Again. rewrite A'. simpl. lia.
Qed.

Lemma NawsOutcome_ret s e b' :
  length (pending b') <= length (pending (buffered (s_reader s))) ->
  NawsOutcome s (Some (e, withBuffered s b')).
Proof.
  intros L. exists e, (withBuffered s b').
  split; [reflexivity|]. split; [reflexivity|]. split; [reflexivity|].
  split; [exact L|]. left. reflexivity.
Qed.

Lemma NawsOutcome_rec s b' res :
  length (pending b') <= length (pending (buffered (s_reader s))) ->
  NawsOutcome (withBuffered s b') res -> NawsOutcome s res.
Proof.
  intros L (e & s' & E & W & P & Len & G). exists e, s'. simpl in *.
  repeat split; auto. lia.
Qed.

Lemma nawsWait_total (NAWS : byte) (timeout : nat -> bool) : forall fuel i s,
  length (pending (buffered (s_reader s))) < fuel ->
  NawsOutcome s (nawsWait NAWS timeout fuel i s).
Proof.
  induction fuel as [|fuel IH]; intros i s L; [lia|]. cbn [nawsWait].
  destruct (timeout i).
  { exists None, s. split; [reflexivity|]. split; [reflexivity|].
    split; [reflexivity|]. split; [lia|]. left. reflexivity. }
  set (b := buffered (s_reader s)) in *.
  assert (Rec : forall b' j, length (pending b') < length (pending b) ->
            NawsOutcome s (nawsWait NAWS timeout fuel j (withBuffered s b'))).
  { intros b' j L'. apply NawsOutcome_rec with (b' := b'); [fold b; lia|].
    apply IH. simpl. lia. }
  assert (Ret : forall e b', length (pending b') <= length (pending b) ->
            NawsOutcome s (Some (e, withBuffered s b'))).
  { intros e b' L'. now apply NawsOutcome_ret. }
  peek_one b.
  2:{ destruct HP as (A & B & _).
      destruct (isEOF e); apply Ret; rewrite B; simpl; lia. }
  destruct HP as (A0 & _).
  destruct (Byte.eqb p IAC); [|apply Ret; rewrite A0; lia].
  read_byte b0.
  2:{ destruct HR as (_ & B & _). apply Ret. rewrite B. simpl. lia. }
  destruct HR as (A1 & _).
  assert (L1 : length (pending b1) < length (pending b))
    by (rewrite <- A0, A1; simpl; lia).
  read_byte b1.
  2:{ destruct HR as (_ & B & _). apply Ret. rewrite B. simpl. lia. }
  destruct HR as (A2 & _).
  assert (L2 : length (pending b2) < length (pending b))
    by (rewrite A2 in L1; simpl in L1; lia).
  destruct (Byte.eqb c0 WILL || Byte.eqb c0 WONT).
  { read_byte b2.
    2:{ destruct HR as (_ & B & _). apply Ret. rewrite B. simpl. lia. }
    destruct HR as (A3 & _).
    assert (L3 : length (pending b3) < length (pending b))
      by (rewrite A3 in L2; simpl in L2; lia).
    destruct (Byte.eqb c1 NAWS && Byte.eqb c0 WONT); [apply Ret; lia|now apply Rec]. }
  destruct (Byte.eqb c0 SB); [|now apply Rec].
  read_byte b2.
  2:{ destruct HR as (_ & B & _). apply Ret. rewrite B. simpl. lia. }
  destruct HR as (A3 & _).
  assert (L3 : length (pending b3) < length (pending b))
    by (rewrite A3 in L2; simpl in L2; lia).
  destruct (Byte.eqb c1 NAWS).
  - unfold ReadFull.
    pose proof (ReadFull_loop_length 4 b3 []) as F4.
    destruct (ReadFull_loop 4 b3 []) as [[payload|e] b4]; simpl in F4;
      [|apply Ret; lia].
    pose proof (ReadFull_loop_length 2 b4 []) as F2.
    destruct (ReadFull_loop 2 b4 []) as [[seHdr|e] b5]; simpl in F2;
      [|apply Ret; lia].
    destruct (negb (Byte.eqb (nth 0 seHdr x00) IAC)
              || negb (Byte.eqb (nth 1 seHdr x00) SE)); [apply Ret; lia|].
    eexists None, _. split; [reflexivity|]. simpl. fold b.
    split; [reflexivity|]. split; [reflexivity|]. split; [lia|].
    right. split; [reflexivity|]. unfold GetWindowSize. simpl. eauto.
  - destruct (skipUnrelated_total fuel b3) as (e & b4 & -> & L4); [lia|].
    destruct e as [x|]; [apply Ret; lia|apply Rec; lia].
Qed.

Lemma RequestWindowSize_after_prefix (NAWS : byte) (timeout : nat -> bool)
  (Htimer : forall i, timeout i = false)
  (s : Session) (fuel : nat) (n : Z) (s1 : Session) (pre rest : list byte) :
  Session_WriteCommand fuel s IAC DO NAWS = Some ((n, None), s1) ->
  passedOver NAWS pre ->
  pending (buffered (s_reader s)) = pre ++ rest ->
  length (pending (buffered (s_reader s))) < fuel ->
  exists f' j s2,
    RequestWindowSize NAWS timeout fuel s = nawsWait NAWS timeout f' j s2 /\
    pending (buffered (s_reader s2)) = rest /\ length rest < f' /\
    GetWindowSize s2 = GetWindowSize s /\
    srcErr (buffered (s_reader s2)) = srcErr (buffered (s_reader s)).
Proof.
  intros Hsend Hpre Hwire Hfuel. unfold RequestWindowSize. rewrite Hsend.
  apply Session_Write_keeps in Hsend as (R & C & W & _).
  destruct (nawsWait_passes NAWS timeout Htimer pre Hpre fuel 0 s1 rest)
    as (f' & j & s2 & E & P & F & G & _ & _ & Se).
  { now rewrite R. }
  { now rewrite R. }
  exists f', j, s2. split; [exact E|]. split; [exact P|]. split; [exact F|].
  split; [|now rewrite Se, R].
  rewrite G. unfold GetWindowSize. now rewrite C, W.
Qed.

(** X13 (Session.RequestWindowSize, case WILL, WONT).  When the peer answers
    255 WONT NAWS, with only items the waiting loop passes over before it,
    RequestWindowSize returns nil, the window size is as it was, and the bytes
    after the refusal are left unread. *)
Theorem RequestWindowSize_refused (NAWS : byte) (timeout : nat -> bool)
  (Htimer : forall i, timeout i = false)
  (s : Session) (fuel : nat) (n : Z) (s1 : Session)
  (Hsend : Session_WriteCommand fuel s IAC DO NAWS = Some ((n, None), s1))
  (pre rest : list byte) (Hpre : passedOver NAWS pre)
  (Hwire : pending (buffered (s_reader s)) = pre ++ IAC :: WONT :: NAWS :: rest)
  (Hfuel : length (pending (buffered (s_reader s))) < fuel) :
  exists s',
    RequestWindowSize NAWS timeout fuel s = Some (None, s') /\
    GetWindowSize s' = GetWindowSize s /\
    pending (buffered (s_reader s')) = rest.
Proof.
  destruct (RequestWindowSize_after_prefix NAWS timeout Htimer s fuel n s1 pre _
              Hsend Hpre Hwire Hfuel) as (f' & j & s2 & -> & P & F & G & _).
  destruct (nawsWait_refused NAWS timeout Htimer f' j s2 rest P) as (s' & E & P' & G');
    [lia|].
  exists s'. split; [exact E|]. split; [congruence|exact P'].
Qed.

Lemma RequestWindowSize_refused_witness :
  exists s',
    RequestWindowSize x1f (fun _ => false) 9
      (demoSession false [[IAC; WILL; x18]; [IAC; WONT; x1f; x6c; x73]])
    = Some (None, s') /\
    GetWindowSize s' = (0%Z, 0%Z) /\
    pending (buffered (s_reader s')) = [x6c; x73].
Proof.
  eapply (RequestWindowSize_refused x1f (fun _ => false) (fun _ => eq_refl)
            (demoSession false [[IAC; WILL; x18]; [IAC; WONT; x1f; x6c; x73]])
            9 _ _ _ [IAC; WILL; x18] [x6c; x73]).
  - repeat constructor.
  - reflexivity.
  - simpl. lia.
  Unshelve. all: try reflexivity.
Defined.

(** X14 (Session.RequestWindowSize).  Whatever the peer sends and whenever the
    timer fires, once the DO NAWS write has returned RequestWindowSize
    returns; after that write it writes nothing, it only takes bytes off the
    stream, and the window size is as it was unless it returns nil having
    decoded both numbers, each between 0 and 65535: an error never leaves a
    size behind. *)
Theorem RequestWindowSize_returns (NAWS : byte) (timeout : nat -> bool)
  (s : Session) (fuel : nat) (n : Z) (err : option error) (s1 : Session)
  (Hsend : Session_WriteCommand fuel s IAC DO NAWS = Some ((n, err), s1))
  (Hfuel : length (pending (buffered (s_reader s))) < fuel) :
  exists e s',
    RequestWindowSize NAWS timeout fuel s = Some (e, s') /\
    s_writer s' = s_writer s1 /\
    length (pending (buffered (s_reader s')))
    <= length (pending (buffered (s_reader s))) /\
    (err <> None -> e <> None) /\
    (GetWindowSize s' = GetWindowSize s \/
     (e = None /\
      exists cols rows,
        GetWindowSize s' = (cols, rows) /\
        (0 <= cols <= 65535)%Z /\ (0 <= rows <= 65535)%Z)).
Proof.
  unfold RequestWindowSize. rewrite Hsend.
  apply Session_Write_keeps in Hsend as (R & C & W & _).
  assert (G1 : GetWindowSize s1 = GetWindowSize s)
    by (unfold GetWindowSize; now rewrite C, W).
  destruct err as [x|].
  - eexists _, s1. split; [reflexivity|]. split; [reflexivity|].
    split; [rewrite R; lia|]. split; [discriminate|]. now left.
  - destruct (nawsWait_total NAWS timeout fuel 0 s1) as (e & s' & E & Wr & _ & L & G).
    { now rewrite R. }
    exists e, s'. split; [exact E|]. split; [exact Wr|].
    split; [now rewrite <- R|]. split; [congruence|].
    destruct G as [G | (-> & a & b & c & d & G)].
    + left. congruence.
    + right. split; [reflexivity|]. exists (be16 a b), (be16 c d).
      split; [exact G|]. split; apply be16_range.
Qed.

Lemma RequestWindowSize_returns_witness :
  exists e s',
    RequestWindowSize x1f (fun i => 2 <=? i) 9
      (demoSession false [[IAC; SB; x18; x01; IAC; SE; IAC; SB]])
    = Some (e, s') /\
    s_writer s'
    = newWriter {| sent := [IAC; DO; x1f]; behave := acceptAll; calls := 1 |} /\
    length (pending (buffered (s_reader s'))) <= 8 /\
    (@None error <> None -> e <> None) /\
    (GetWindowSize s' = (0%Z, 0%Z) \/
     (e = None /\
      exists cols rows,
        GetWindowSize s' = (cols, rows) /\
        (0 <= cols <= 65535)%Z /\ (0 <= rows <= 65535)%Z)).
Proof.
  apply (RequestWindowSize_returns x1f (fun i => 2 <=? i)
           (demoSession false [[IAC; SB; x18; x01; IAC; SE; IAC; SB]]) 9 3 None
           {| isPTY := false;
              s_reader := newReader [[IAC; SB; x18; x01; IAC; SE; IAC; SB]] EOF;
              s_writer := newWriter {| sent := [IAC; DO; x1f];
                                       behave := acceptAll; calls := 1 |};
              termCols := 0; termRows := 0 |}
           eq_refl).
  simpl. lia.
Defined.

(** X15 (Session.RequestWindowSize, the Peek and ReadByte error branches).
    After items the waiting loop passes over: when the stream ends there,
    RequestWindowSize returns nil if the transport reports io.EOF and the
    transport's error wrapped as "peek failed" otherwise; when the stream ends
    one byte later, after a lone 255, it returns the transport's error
    wrapped as "read command after IAC failed", io.EOF included.  The window
    size is as it was in every case. *)
Theorem RequestWindowSize_stream_ends (NAWS : byte) (timeout : nat -> bool)
  (Htimer : forall i, timeout i = false)
  (s : Session) (fuel : nat) (n : Z) (s1 : Session)
  (Hsend : Session_WriteCommand fuel s IAC DO NAWS = Some ((n, None), s1))
  (pre : list byte) (cut : bool) (Hpre : passedOver NAWS pre)
  (Hwire : pending (buffered (s_reader s)) = pre ++ (if cut then [IAC] else []))
  (Hfuel : length (pending (buffered (s_reader s))) < fuel) :
  exists s',
    RequestWindowSize NAWS timeout fuel s
    = Some (if cut
            then Some (ErrWrap "read command after IAC failed"
                         (srcErr (buffered (s_reader s))))
            else if isEOF (srcErr (buffered (s_reader s))) then None
                 else Some (ErrWrap "peek failed" (srcErr (buffered (s_reader s)))),
            s') /\
    GetWindowSize s' = GetWindowSize s.
Proof.
  destruct (RequestWindowSize_after_prefix NAWS timeout Htimer s fuel n s1 pre _
              Hsend Hpre Hwire Hfuel) as (f' & j & s2 & -> & P & F & G & Se).
  destruct cut.
  - destruct (nawsWait_cut NAWS timeout Htimer f' j s2 P) as (s' & E & G'); [lia|].
    exists s'. rewrite E, Se. split; [reflexivity|congruence].
  - destruct (nawsWait_end NAWS timeout Htimer f' j s2 P) as (s' & E & G'); [lia|].
    exists s'. rewrite E, Se. split; [reflexivity|congruence].
Qed.

Lemma RequestWindowSize_stream_ends_witness :
  exists s',
    RequestWindowSize x1f (fun _ => false) 5
      (demoSession false [[IAC; WILL; x1f; IAC]])
    = Some (Some (ErrWrap "read command after IAC failed" EOF), s') /\
    GetWindowSize s' = (0%Z, 0%Z).
Proof.
  eapply (RequestWindowSize_stream_ends x1f (fun _ => false) (fun _ => eq_refl)
            (demoSession false [[IAC; WILL; x1f; IAC]])
            5 _ _ _ [IAC; WILL; x1f] true).
  - repeat constructor.
  - reflexivity.
  - simpl. lia.
  Unshelve. all: try reflexivity.
Defined.

(** X16 (Session.RequestWindowSize, the check of seHdr).  The four bytes after
    255 SB NAWS are taken as they come, with no doubled 255 undone, and the
    next two must be 255 SE: when they are not, RequestWindowSize returns the
    error "invalid NAWS SB terminator after payload", having consumed those
    nine bytes, and stores no size.  A peer that doubles a 255 in one of the
    four numbers, or sends more than four, gets this error. *)
Theorem RequestWindowSize_bad_terminator (NAWS : byte) (timeout : nat -> bool)
  (Htimer : forall i, timeout i = false)
  (s : Session) (fuel : nat) (n : Z) (s1 : Session)
  (Hsend : Session_WriteCommand fuel s IAC DO NAWS = Some ((n, None), s1))
  (pre : list byte) (p0 p1 p2 p3 t0 t1 : byte) (rest : list byte)
  (Hpre : passedOver NAWS pre)
  (Hwire : pending (buffered (s_reader s))
           = pre ++ IAC :: SB :: NAWS :: p0 :: p1 :: p2 :: p3 :: t0 :: t1 :: rest)
  (Hterm : ~ (t0 = IAC /\ t1 = SE))
  (Hfuel : length (pending (buffered (s_reader s))) < fuel) :
  exists s',
    RequestWindowSize NAWS timeout fuel s = Some (Some ErrBadTerminator, s') /\
    GetWindowSize s' = GetWindowSize s /\
    pending (buffered (s_reader s')) = rest.
Proof.
  destruct (RequestWindowSize_after_prefix NAWS timeout Htimer s fuel n s1 pre _
              Hsend Hpre Hwire Hfuel) as (f' & j & s2 & -> & P & F & G & _).
  destruct (nawsWait_bad_terminator NAWS timeout Htimer f' j s2
              p0 p1 p2 p3 t0 t1 rest P Hterm) as (s' & E & P' & G'); [lia|].
  exists s'. split; [exact E|]. split; [congruence|exact P'].
Qed.

Lemma RequestWindowSize_bad_terminator_witness :
  exists s',
    RequestWindowSize x1f (fun _ => false) 11
      (demoSession false [[IAC; SB; x1f; x00; IAC; IAC; x00; x18; IAC; SE]])
    = Some (Some ErrBadTerminator, s') /\
    GetWindowSize s' = (0%Z, 0%Z) /\
    pending (buffered (s_reader s')) = [SE].
Proof.
  eapply (RequestWindowSize_bad_terminator x1f (fun _ => false) (fun _ => eq_refl)
            (demoSession false [[IAC; SB; x1f; x00; IAC; IAC; x00; x18; IAC; SE]])
            11 _ _ _ [] x00 IAC IAC x00 x18 IAC [SE]).
  - constructor.
  - reflexivity.
  - intros [X _]. discriminate.
  - simpl. lia.
  Unshelve. all: try reflexivity.
Defined.

(** X17 (Session.RequestWindowSize against the encoding of
    TestRequestWindowSize_NAWS).  For every window of [cols] by [rows], both
    between 0 and 65535, the subnegotiation the test builds, sent after items
    the waiting loop passes over, makes RequestWindowSize return nil with
    GetWindowSize() = (cols, rows); HasWindowSize() then holds exactly when
    both numbers are positive. *)
Theorem RequestWindowSize_test_encoding (NAWS : byte) (timeout : nat -> bool)
  (Htimer : forall i, timeout i = false)
  (s : Session) (fuel : nat) (n : Z) (s1 : Session)
  (Hsend : Session_WriteCommand fuel s IAC DO NAWS = Some ((n, None), s1))
  (pre : list byte) (cols rows : Z) (rest : list byte)
  (Hpre : passedOver NAWS pre)
  (Hcols : (0 <= cols < 65536)%Z) (Hrows : (0 <= rows < 65536)%Z)
  (Hwire : pending (buffered (s_reader s)) = pre ++ nawsSB NAWS cols rows ++ rest)
  (Hfuel : length (pending (buffered (s_reader s))) < fuel) :
  exists s',
    RequestWindowSize NAWS timeout fuel s = Some (None, s') /\
    GetWindowSize s' = (cols, rows) /\
    HasWindowSize s' = (0 <? cols)%Z && (0 <? rows)%Z /\
    pending (buffered (s_reader s')) = rest.
Proof.
  unfold RequestWindowSize. rewrite Hsend.
  apply Session_Write_keeps in Hsend as (R & _).
  destruct (nawsWait_window NAWS timeout Htimer pre Hpre fuel 0 s1
              (byteOfInt (Z.shiftr cols 8)) (byteOfInt (Z.land cols 255))
              (byteOfInt (Z.shiftr rows 8)) (byteOfInt (Z.land rows 255)) rest)
    as (s' & E & P & C & W & _).
  { rewrite R. exact Hwire. }
  { now rewrite R. }
  rewrite be16_byteOfInt in C, W by assumption.
  exists s'. split; [exact E|]. unfold GetWindowSize, HasWindowSize.
  rewrite C, W. auto.
Qed.

Lemma RequestWindowSize_test_encoding_witness :
  exists s',
    RequestWindowSize x1f (fun _ => false) 13
      (demoSession false [[IAC; WILL; x1f]; nawsSB x1f 99 99])
    = Some (None, s') /\
    GetWindowSize s' = (99%Z, 99%Z) /\
    HasWindowSize s' = true /\
    pending (buffered (s_reader s')) = [].
Proof.
  eapply (RequestWindowSize_test_encoding x1f (fun _ => false) (fun _ => eq_refl)
            (demoSession false [[IAC; WILL; x1f]; nawsSB x1f 99 99])
            13 _ _ _ [IAC; WILL; x1f] 99 99 []).
  - repeat constructor.
  - lia.
  - lia.
  - reflexivity.
  - simpl. lia.
  Unshelve. all: try reflexivity.
Defined.

(* ================================================================== *)
(** * The login handler of the shell *)

Lemma bytes_Equal_eq : forall a b, bytes_Equal a b = true -> a = b.
Proof.
  induction a as [|x a IH]; intros [|y b] H; simpl in H; try discriminate.
  - reflexivity.
  - apply andb_prop in H as [H1 H2]. apply eqb_eq in H1. f_equal; auto.
Qed.

Lemma bytes_Equal_refl : forall a, bytes_Equal a a = true.
Proof.
  induction a as [|x a IH]; [reflexivity|]. simpl. now rewrite eqb_refl, IH.
Qed.

Lemma Session_WriteLine_keeps fuel s text e s' :
  Session_WriteLine fuel s text = Some (e, s') -> s_reader s' = s_reader s.
Proof.
  unfold Session_WriteLine, WriteLine, io_Write, Session_Writer.
  destruct (Session_Write fuel s (concat text)) as [[[n e1] s1]|] eqn:E;
    [|discriminate].
  intros [= <- <-]. now apply Session_Write_keeps in E.
Qed.

Lemma Session_WriteCommand_keeps fuel s c o a res s' :
  Session_WriteCommand fuel s c o a = Some (res, s') -> s_reader s' = s_reader s.
Proof.
  unfold Session_WriteCommand, WriteCommand, io_Write, Session_Writer.
  intros E. now apply Session_Write_keeps in E.
Qed.

Lemma ReadLine_loop_Session : forall fuel (s : Session) acc,
  ReadLine_loop fuel s acc
  = match ReadLine_loop fuel (s_reader s) acc with
    | None => None
    | Some (res, r') =>
      Some (res, {| isPTY := isPTY s; s_reader := r'; s_writer := s_writer s;
                    termCols := termCols s; termRows := termRows s |})
    end.
Proof.
  induction fuel as [|fuel IH]; intros s acc; [reflexivity|].
  cbn [ReadLine_loop].
  change (io_Read s 1) with (Session_Read s 1).
  change (io_Read (s_reader s) 1) with (Read (s_reader s) 1).
  unfold Session_Read.
  destruct (Read (s_reader s) 1) as [[p err] r1].
  destruct p as [|c p].
  - destruct err as [e|]; [reflexivity|]. rewrite IH. reflexivity.
  - destruct (Byte.eqb c NL); [reflexivity|]. rewrite IH. reflexivity.
Qed.

Lemma Session_ReadLine_reader fuel s l e s2 :
  Session_ReadLine fuel s = Some ((l, e), s2) ->
  ReadLine fuel (s_reader s) = Some ((l, e), s_reader s2).
Proof.
  unfold Session_ReadLine, ReadLine. rewrite ReadLine_loop_Session.
  destruct (ReadLine_loop fuel (s_reader s) []) as [[[lb|er] r']|];
    [| |discriminate]; intros [= <- <- <-]; reflexivity.
Qed.

Lemma linesRead_app fuel : forall a b r r1 r2,
  linesRead fuel r a r1 -> linesRead fuel r1 b r2 -> linesRead fuel r (a ++ b) r2.
Proof.
  induction a as [|l a IH]; intros b r r1 r2 A B; cbn [linesRead app] in *.
  - now subst r1.
  - destruct A as (r0 & R & A). exists r0. split; [exact R|]. eapply IH; eauto.
Qed.

(** One turn of the loop reads two lines off the Session's reader, whatever it
    writes around them: it says yes only on the user name and the password,
    and goes round again only when they are not both right. *)
Lemma authAttempt_lines fuel username password s res :
  authAttempt fuel username password s = Some res ->
  match res with
  | inl (true, s') =>
    linesRead fuel (s_reader s) [username; password] (s_reader s')
  | inl (false, _) => True
  | inr s' =>
    exists u p,
      ~ (u = username /\ p = password) /\
      linesRead fuel (s_reader s) [u; p] (s_reader s')
  end.
Proof.
  unfold authAttempt. intros H.
  destruct (Session_WriteLine fuel s [loginPrompt]) as [[[e|] s1]|] eqn:W1;
    [now injection H as <-| |discriminate].
  destruct (Session_ReadLine fuel s1) as [[[u [e|]] s2]|] eqn:R1;
    [now injection H as <-| |discriminate].
  destruct (Session_WriteLine fuel s2 [passwordPrompt]) as [[[e|] s3]|] eqn:W2;
    [now injection H as <-| |discriminate].
  destruct (Session_WriteCommand fuel s3 IAC WILL ECHO) as [[[n [e|]] s4]|] eqn:C1;
    [now injection H as <-| |discriminate].
  destruct (Session_ReadLine fuel s4) as [[[p [e|]] s5]|] eqn:R2;
    [now injection H as <-| |discriminate].
  destruct (Session_WriteCommand fuel s5 IAC WONT ECHO) as [[[m [e|]] s6]|] eqn:C2;
    [now injection H as <-| |discriminate].
  destruct (Session_WriteLine fuel s6 [[NL]]) as [[[e|] s7]|] eqn:W3;
    [now injection H as <-| |discriminate].
  apply Session_WriteLine_keeps in W1, W2, W3.
  apply Session_WriteCommand_keeps in C1, C2.
  apply Session_ReadLine_reader in R1, R2.
  rewrite W1 in R1. rewrite C1, W2 in R2.
  assert (L : forall s', s_reader s' = s_reader s7 ->
              linesRead fuel (s_reader s) [u; p] (s_reader s')).
  { intros s' E. cbn [linesRead]. exists (s_reader s2). split; [exact R1|].
    exists (s_reader s5). split; [exact R2|]. congruence. }
  destruct (bytes_Equal p password && bytes_Equal u username) eqn:Eq.
  - injection H as <-. apply andb_prop in Eq as [Ep Eu].
    apply bytes_Equal_eq in Ep, Eu. subst u p. now apply L.
  - assert (Ne : ~ (u = username /\ p = password)).
    { intros [-> ->]. rewrite !bytes_Equal_refl in Eq. discriminate. }
    destruct (Session_WriteLine fuel s7 [loginIncorrect]) as [[[e|] s8]|] eqn:W4;
      [now injection H as <-| |discriminate].
    injection H as <-. apply Session_WriteLine_keeps in W4.
    exists u, p. split; [exact Ne|]. now apply L.
Qed.

Lemma authLoop_true fuel username password maxAttempts : forall remaining s s',
  authLoop fuel username password maxAttempts remaining s = Some (true, s') ->
  exists failed : list (list byte * list byte),
    length failed < remaining /\
    Forall (fun up => ~ (fst up = username /\ snd up = password)) failed /\
    linesRead fuel (s_reader s)
      (concat (map (fun up => [fst up; snd up]) failed) ++ [username; password])
      (s_reader s').
Proof.
  induction remaining as [|k IH]; intros s s' H; cbn [authLoop] in H.
  - destruct (Session_WriteLine fuel s [triesExceeded maxAttempts]) as [[e s1]|];
      discriminate.
  - destruct (authAttempt fuel username password s) as [[[b s1]|s1]|] eqn:A;
      [| |discriminate]; apply authAttempt_lines in A.
    + injection H as -> ->. exists []. cbn [length map concat app].
      split; [lia|]. split; [constructor|exact A].
    + destruct A as (u & p & Ne & L).
      apply IH in H as (failed & F1 & F2 & F3).
      exists ((u, p) :: failed). cbn [length map concat fst snd].
      split; [lia|]. split; [constructor; [exact Ne|exact F2]|].
      rewrite <- app_assoc. eapply linesRead_app; [exact L|exact F3].
Qed.

(** X18 (shell/auth.go, NewAuthHandler).  The handler says yes only when the
    lines that came off the stream of the Session it was given are, in this
    order and with nothing read between or after them: for each failed
    attempt, fewer of them than [maxAttempts], a user name and a password
    that are not both right, and then the user name and the password, byte
    for byte as ReadLine returns them.  In particular it never says yes with
    [maxAttempts] below one; this holds whatever the peer sends and whatever
    the transport does. *)
Theorem NewAuthHandler_sound (username password : list byte) (maxAttempts : Z)
  (fuel : nat) (s s' : Session)
  (Hyes : NewAuthHandler username password maxAttempts fuel s = Some (true, s')) :
  (1 <= maxAttempts)%Z /\
  exists failed : list (list byte * list byte),
    (Z.of_nat (length failed) < maxAttempts)%Z /\
    Forall (fun up => ~ (fst up = username /\ snd up = password)) failed /\
    linesRead fuel (s_reader s)
      (concat (map (fun up => [fst up; snd up]) failed) ++ [username; password])
      (s_reader s').
Proof.
  unfold NewAuthHandler in Hyes.
  apply authLoop_true in Hyes as (failed & F1 & F2 & F3).
  split; [lia|]. exists failed. split; [lia|]. split; [exact F2|exact F3].
Qed.

Lemma NewAuthHandler_sound_witness :
  (1 <= 2)%Z /\
  exists (failed : list (list byte * list byte)) (r' : reader),
    (Z.of_nat (length failed) < 2)%Z /\
    Forall (fun up => ~ (fst up = [x61; x6c] /\ snd up = [x70])) failed /\
    linesRead 5
      (s_reader (demoSession false
                   [[x61; x6c; CR; NL; x71; CR; NL]; [x61; x6c; CR; NL];
                    [x70; CR; NL; x6c; x73]]))
      (concat (map (fun up => [fst up; snd up]) failed) ++ [[x61; x6c]; [x70]])
      r' /\
    pending (buffered r') = [x6c; x73].
Proof.
  assert (H : exists s',
             NewAuthHandler [x61; x6c] [x70] 2 5
               (demoSession false
                  [[x61; x6c; CR; NL; x71; CR; NL]; [x61; x6c; CR; NL];
                   [x70; CR; NL; x6c; x73]])
             = Some (true, s') /\
             pending (buffered (s_reader s')) = [x6c; x73]).
  { eexists. split; vm_compute; reflexivity. }
  destruct H as (s' & H & P).
  destruct (NewAuthHandler_sound [x61; x6c] [x70] 2 5
              (demoSession false
                 [[x61; x6c; CR; NL; x71; CR; NL]; [x61; x6c; CR; NL];
                  [x70; CR; NL; x6c; x73]])
              s' H) as (M & failed & F1 & F2 & F3).
  split; [exact M|]. exists failed, (s_reader s').
  split; [exact F1|]. split; [exact F2|]. split; [exact F3|exact P].
Defined.

Lemma Session_ReadLine_decodes s line rest fuel :
  decodes (pending (buffered (s_reader s))) (line ++ NL :: rest) ->
  ~ In NL line -> length line < fuel ->
  exists s',
    Session_ReadLine fuel s = Some ((trimCRLF (line ++ [NL]), None), s') /\
    decodes (pending (buffered (s_reader s'))) rest /\
    s_writer s' = s_writer s /\ isPTY s' = isPTY s.
Proof.
  intros Hd Hn Hf. unfold Session_ReadLine, ReadLine.
  rewrite ReadLine_loop_Session.
  destruct (ReadLine_loop_decodes line (s_reader s) rest fuel [] Hd Hn Hf)
    as (r' & -> & D & _).
  eexists. split; [reflexivity|]. simpl. auto.
Qed.

Lemma Session_Write_acceptAll fuel s data :
  behave (w_writer (s_writer s)) = acceptAll -> 0 < fuel ->
  exists n s',
    Session_Write fuel s data = Some ((n, None), s') /\
    s_reader s' = s_reader s /\ isPTY s' = isPTY s /\
    behave (w_writer (s_writer s')) = acceptAll.
Proof.
  intros Ha Hf. unfold Session_Write.
  match goal with |- context [Write fuel (s_writer s) ?d] => set (data' := d) end.
  unfold Write. destruct (isCommand data').
  - destruct (LongWrite_acceptAll fuel (w_writer (s_writer s)) (skipn 4 data') 0 Ha Hf)
      as (w' & -> & _ & B).
    simpl. eexists _, _. split; [reflexivity|]. simpl. auto.
  - destruct (Write_loop_acceptAll data' fuel (w_writer (s_writer s)) [] 0 Ha Hf)
      as (w' & E).
    rewrite E. apply Write_loop_ok in E as (_ & _ & B).
    simpl. eexists _, _. split; [reflexivity|]. simpl. repeat split; auto.
    congruence.
Qed.

Lemma Session_WriteLine_acceptAll fuel s text :
  behave (w_writer (s_writer s)) = acceptAll -> 0 < fuel ->
  exists s',
    Session_WriteLine fuel s text = Some (None, s') /\
    s_reader s' = s_reader s /\ isPTY s' = isPTY s /\
    behave (w_writer (s_writer s')) = acceptAll.
Proof.
  intros Ha Hf. unfold Session_WriteLine, WriteLine, io_Write, Session_Writer.
  destruct (Session_Write_acceptAll fuel s (concat text) Ha Hf)
    as (n & s' & -> & R). exists s'. auto.
Qed.

Lemma Session_WriteCommand_acceptAll fuel s c o a :
  behave (w_writer (s_writer s)) = acceptAll -> 0 < fuel ->
  exists n s',
    Session_WriteCommand fuel s c o a = Some ((n, None), s') /\
    s_reader s' = s_reader s /\ isPTY s' = isPTY s /\
    behave (w_writer (s_writer s')) = acceptAll.
Proof.
  intros Ha Hf. unfold Session_WriteCommand, WriteCommand, io_Write, Session_Writer.
  apply Session_Write_acceptAll; auto.
Qed.

(** X19 (shell/auth.go, NewAuthHandler over ReadLine, WriteLine and
    WriteCommand).  With at least one attempt allowed and a transport that
    takes all it is given, a peer whose data is the user name, CR LF, the
    password, CR LF is let in at the first attempt, whatever negotiation items
    lie between its bytes; the handler leaves the data after the second line
    unread. *)
Theorem NewAuthHandler_accepts (username password : list byte) (maxAttempts : Z)
  (fuel : nat) (s : Session) (rest : list byte)
  (Hmax : (1 <= maxAttempts)%Z)
  (Htransport : behave (w_writer (s_writer s)) = acceptAll)
  (Huser : ~ In NL username) (Hpass : ~ In NL password)
  (Hwire : decodes (pending (buffered (s_reader s)))
             (username ++ [CR; NL] ++ password ++ [CR; NL] ++ rest))
  (Hfuel : length username + length password + 2 < fuel) :
  exists s',
    NewAuthHandler username password maxAttempts fuel s = Some (true, s') /\
    decodes (pending (buffered (s_reader s'))) rest.
Proof.
  unfold NewAuthHandler.
  destruct (Z.to_nat maxAttempts) as [|k] eqn:K; [lia|].
  cbn [authLoop]. unfold authAttempt.
  assert (Hf : 0 < fuel) by lia.
  destruct (Session_WriteLine_acceptAll fuel s [loginPrompt] Htransport Hf)
    as (s1 & -> & R1 & _ & B1).
  destruct (Session_ReadLine_decodes s1 (username ++ [CR])
              (password ++ [CR; NL] ++ rest) fuel) as (s2 & E2 & D2 & W2 & _).
  { rewrite R1, <- app_assoc. exact Hwire. }
  { intros X. apply in_app_or in X as [X | [X | X]];
      [now apply Huser|discriminate|contradiction]. }
  { rewrite length_app. simpl. lia. }
  rewrite E2. rewrite <- W2 in B1.
  destruct (Session_WriteLine_acceptAll fuel s2 [passwordPrompt] B1 Hf)
    as (s3 & -> & R3 & _ & B3).
  destruct (Session_WriteCommand_acceptAll fuel s3 IAC WILL ECHO B3 Hf)
    as (n4 & s4 & -> & R4 & _ & B4).
  destruct (Session_ReadLine_decodes s4 (password ++ [CR]) rest fuel)
    as (s5 & E5 & D5 & W5 & _).
  { rewrite R4, R3, <- app_assoc. exact D2. }
  { intros X. apply in_app_or in X as [X | [X | X]];
      [now apply Hpass|discriminate|contradiction]. }
  { rewrite length_app. simpl. lia. }
  rewrite E5. rewrite <- W5 in B4.
  destruct (Session_WriteCommand_acceptAll fuel s5 IAC WONT ECHO B4 Hf)
    as (n6 & s6 & -> & R6 & _ & B6).
  destruct (Session_WriteLine_acceptAll fuel s6 [[NL]] B6 Hf)
    as (s7 & -> & R7 & _ & B7).
  rewrite <- !app_assoc. cbn [app]. rewrite !trimCRLF_crlf, !bytes_Equal_refl.
  cbn [andb]. exists s7. split; [reflexivity|]. now rewrite R7, R6.
Qed.

Lemma NewAuthHandler_accepts_witness :
  exists s',
    NewAuthHandler [x61; x6c] [x70; IAC] 3 7
      (demoSession true [[x61; x6c; CR; NL; IAC; DO; ECHO];
                         [x70; IAC; IAC; CR; NL; x6c; x73]])
    = Some (true, s') /\
    decodes (pending (buffered (s_reader s'))) [x6c; x73].
Proof.
  apply (NewAuthHandler_accepts [x61; x6c] [x70; IAC] 3 7
           (demoSession true [[x61; x6c; CR; NL; IAC; DO; ECHO];
                              [x70; IAC; IAC; CR; NL; x6c; x73]])
           [x6c; x73]).
  - lia.
  - reflexivity.
  - intros [X | [X | X]]; try discriminate; contradiction.
  - intros [X | [X | X]]; try discriminate; contradiction.
  - simpl. repeat (constructor; [discriminate|]).
    apply decodes_verb; [reflexivity|].
    constructor; [discriminate|]. apply decodes_doubled.
    repeat (constructor; [discriminate|]). constructor.
  - simpl. lia.
Defined.
